(** * SpaggiariCircularsParser: the fetch / extract / reconcile / sync pipeline

    A shallow embedding of the Go program (the worker of [main.go]) and the
    properties of its specification.  Go values are modelled as follows:
    - [uint64] identifiers are [N]; [strconv.ParseUint] rejects what does not
      fit in 64 bits, and the program does no arithmetic on identifiers;
    - slices are lists; an index expression [s[i]] is a partial lookup whose
      failure is the runtime fault "index out of range";
    - a pointer that may be [nil] is an [option]; selecting a field through
      [nil] is the runtime fault "nil pointer dereference";
    - [log.Fatal] ends the process; a function that can end the process or
      fault returns in the [run] monad, Go's [error] results are ordinary
      values inside it. *)

From Stdlib Require Import ZArith NArith Lia String Ascii List.
From stdpp Require Import base decidable option list sorting gmap.
From Equations Require Import Equations.
Import ListNotations.

Set Warnings "-register-all".

Local Open Scope string_scope.
Local Open Scope list_scope.

(** ** Outcomes of running Go code *)

Inductive fault : Type :=
| IndexOutOfRange      (* runtime panic: index out of range *)
| NilDereference       (* runtime panic: nil pointer dereference *)
| FatalExit.           (* log.Fatal: the message is logged, then os.Exit(1) *)

Inductive run (A : Type) : Type :=
| Done (a : A)
| Abort (f : fault).
Arguments Done {A} a.
Arguments Abort {A} f.

Definition run_bind {A B} (m : run A) (k : A -> run B) : run B :=
  match m with
  | Done a => k a
  | Abort f => Abort f
  end.

Notation "'let*' x ':=' m 'in' k" := (run_bind m (fun x => k))
  (at level 10, x pattern, m at level 100, k at level 200).

(** [s[i]] on a slice. *)
Definition index {A} (s : list A) (i : nat) : run A :=
  match s !! i with
  | Some x => Done x
  | None => Abort IndexOutOfRange
  end.

(** [p.field] through a pointer. *)
Definition deref {A} (p : option A) : run A :=
  match p with
  | Some x => Done x
  | None => Abort NilDereference
  end.

(** Go [error] values returned by the functions of the program. *)
Inductive error : Type :=
| ErrRequest            (* http.NewRequest *)
| ErrTransport          (* client.Do *)
| ErrDecode             (* "can't parse response body" *)
| ErrMarkup             (* goquery.NewDocumentFromReader *)
| ErrOpen               (* sql.Open *)
| ErrPing               (* db.Ping *)
| ErrBegin              (* db.Begin *)
| ErrExec (k : nat)     (* tx.Exec of the k-th statement of the transaction *)
| ErrCommit.            (* tx.Commit *)

(** ** Data model *)

Record date : Type := mkDate { year : Z; month : Z; day : Z }.

Record attachment : Type := mkAttachment {
  att_Id : N;
  att_Title : string
}.

Record circular : Type := mkCircular {
  Id : N;
  Title : string;
  Category : string;
  PublishedDate : date;
  ValidUntilDate : date;
  Attachments : list attachment
}.

(** ** Reconciler: the diff step of [deleteRemovedCirculars] *)

(** [sort.Search(n, f)]: binary search for the least index in [0, n) at
    which [f] holds, [n] when there is none.  The loop is the library's:
    [i, j := 0, n; for i < j { h := int(uint(i+j) >> 1);
      if !f(h) { i = h + 1 } else { j = h } }; return i].
    The predicate is a Go closure that indexes a slice, so it runs in [run]. *)
Equations? Search_loop (f : nat -> run bool) (i j : nat) : run nat
  by wf (j - i) lt :=
  Search_loop f i j with decide (i < j) := {
    | left _ with f ((i + j) / 2) := {
        | Done true := Search_loop f i ((i + j) / 2);
        | Done false := Search_loop f ((i + j) / 2 + 1) j;
        | Abort e := Abort e };
    | right _ := Done i }.
Proof.
  all: change (Nat.divmod (i + j) 1 0 1).1 with ((i + j) / 2).
  all: assert ((i + j) / 2 < j) by (apply Nat.Div0.div_lt_upper_bound; lia).
  all: assert (i <= (i + j) / 2) by (apply Nat.div_le_lower_bound; lia).
  all: lia.
Qed.

Definition Search (n : nat) (f : nat -> run bool) : run nat :=
  Search_loop f 0 n.

(** [sort.Slice(s, func(i, j) bool { return s[i] > s[j] })]: the slice is
    rearranged into descending order.  Identifiers are numbers, so which
    algorithm the library uses cannot be observed. *)
Definition geN (a b : N) : Prop := (b <= a)%N.
#[local] Instance geN_dec a b : Decision (geN a b) := N.le_dec b a.
#[local] Instance geN_total : Total geN.
Proof. intros a b. unfold geN. lia. Qed.
#[local] Instance geN_trans : Transitive geN.
Proof. intros a b c. unfold geN. lia. Qed.

Definition sortDesc (s : list N) : list N := merge_sort geN s.

(** The identifiers of the current extraction, as collected by the first
    loop of [deleteRemovedCirculars]. *)
Definition parsedCircIds (circulars : list circular) : list N :=
  map Id circulars.
Definition parsedAttachIds (circulars : list circular) : list N :=
  flat_map (fun c => map att_Id (Attachments c)) circulars.

(** The condition of the [if] in the search loops:
    [idx := sort.Search(len(parsed), func(i int) bool { return parsed[i] <= id });
     parsed[idx] != id]. *)
Definition notParsed (parsed : list N) (id : N) : run bool :=
  let* idx := Search (length parsed)
                (fun i => let* x := index parsed i in Done (x <=? id)%N) in
  let* x := index parsed idx in
  Done (negb (x =? id)%N).

(** [for _, id := range dbIds { if notParsed { toRemove = append(toRemove, id) } }] *)
Fixpoint idsToRemove (parsed : list N) (dbIds : list N) : run (list N) :=
  match dbIds with
  | [] => Done []
  | id :: rest =>
      let* b := notParsed parsed id in
      let* tl := idsToRemove parsed rest in
      Done (if b then id :: tl else tl)
  end.

(** The Reconciler for one identifier domain: sort the current identifiers,
    then keep the persisted ones that the search does not find. *)
Definition removalCandidates (current persisted : list N) : run (list N) :=
  idsToRemove (sortDesc current) persisted.

(** ** Library functions used by the Extractor *)

Definition isDigit (c : ascii) : bool :=
  ((48 <=? nat_of_ascii c) && (nat_of_ascii c <=? 57))%nat.

Definition digitVal (c : ascii) : N := N.of_nat (nat_of_ascii c - 48).

(** [strconv.ParseUint(s, 10, 64)]: a non-empty run of decimal digits whose
    value fits in 64 bits; no sign, no underscore, nothing else. *)
Fixpoint parseDigits (acc : N) (s : string) : option N :=
  match s with
  | EmptyString => Some acc
  | String c s' =>
      if isDigit c then parseDigits (10 * acc + digitVal c)%N s' else None
  end.

Definition ParseUint (s : string) : option N :=
  match s with
  | EmptyString => None
  | _ =>
      match parseDigits 0%N s with
      | Some n => if (n <? 2 ^ 64)%N then Some n else None
      | None => None
      end
  end.

(** [strings.Contains(s, substr)]. *)
Fixpoint Contains (s substr : string) : bool :=
  String.prefix substr s ||
  match s with
  | EmptyString => false
  | String _ s' => Contains s' substr
  end.

(** [time.Parse("02/01/2006", value)].  The layout is a two-digit day, a
    slash, a two-digit month, a slash and a four-digit year; the month must
    lie in 1..12, nothing may follow the year, and the day is checked
    against the length of the month at the end. *)
Definition isLeap (y : Z) : bool :=
  ((y mod 4 =? 0) && (negb (y mod 100 =? 0) || (y mod 400 =? 0)))%Z.

Definition daysIn (m y : Z) : Z :=
  if (m =? 2)%Z then (if isLeap y then 29 else 28)%Z
  else if ((m =? 4) || (m =? 6) || (m =? 9) || (m =? 11))%Z then 30%Z
  else 31%Z.

(** [getnum(s, true)]: exactly two digits. *)
Definition getnum2 (s : string) : option (Z * string) :=
  match s with
  | String a (String b rest) =>
      if isDigit a && isDigit b
      then Some (Z.of_N (10 * digitVal a + digitVal b), rest)
      else None
  | _ => None
  end.

(** The year element [2006]: the next four bytes, all digits. *)
Definition getyear (s : string) : option (Z * string) :=
  match s with
  | String a (String b (String c (String d rest))) =>
      if isDigit a && isDigit b && isDigit c && isDigit d
      then Some (Z.of_N (1000 * digitVal a + 100 * digitVal b
                         + 10 * digitVal c + digitVal d), rest)
      else None
  | _ => None
  end.

(** [skip(value, "/")]. *)
Definition skipSlash (s : string) : option string :=
  match s with
  | String c rest => if Ascii.eqb c "/" then Some rest else None
  | EmptyString => None
  end.

Definition parseDate (value : string) : option date :=
  match getnum2 value with
  | None => None
  | Some (d, v1) =>
  match skipSlash v1 with
  | None => None
  | Some v2 =>
  match getnum2 v2 with
  | None => None
  | Some (m, v3) =>
  if ((m <=? 0) || (12 <? m))%Z then None else
  match skipSlash v3 with
  | None => None
  | Some v4 =>
  match getyear v4 with
  | None => None
  | Some (y, v5) =>
  match v5 with
  | String _ _ => None                       (* extra text *)
  | EmptyString =>
      if ((d <? 1) || (daysIn m y <? d))%Z then None   (* day out of range *)
      else Some (mkDate y m d)
  end end end end end end.

(** ** The parsed document ([golang.org/x/net/html] nodes, [goquery]
    selections)

    A node carries its type, its [Data] (the tag name of an element, the
    text of a text node), its attributes and its children in document
    order.  The sibling and child pointers of the Go struct are read off
    the tree: [FirstChild] is the head of the children, and a node reached
    by a query is kept with its [PrevSibling]. *)

Inductive NodeType : Type :=
| ErrorNode | TextNode | DocumentNode | ElementNode | CommentNode | DoctypeNode.

Inductive Node : Type :=
| mkNode (type : NodeType) (data : string) (attr : list (string * string))
         (children : list Node).

Definition Type_ (n : Node) : NodeType := let 'mkNode t _ _ _ := n in t.
Definition Data (n : Node) : string := let 'mkNode _ d _ _ := n in d.
Definition Attr (n : Node) : list (string * string) := let 'mkNode _ _ a _ := n in a.
Definition Children (n : Node) : list Node := let 'mkNode _ _ _ c := n in c.
Definition FirstChild (n : Node) : option Node := head (Children n).

Definition isElement (n : Node) : bool :=
  match Type_ n with ElementNode => true | _ => false end.

(** A [*html.Node] as a query returns it. *)
Record NodeRef : Type := mkRef {
  PrevSibling : option Node;
  target : Node
}.

(** A [goquery.Selection]: the matched nodes, in document order. *)
Definition Selection : Type := list NodeRef.

(** The selector matchers of the program.  A class selector looks for the
    name among the white-space separated words of a [class] attribute
    (cascadia's [matchInclude]). *)
Definition isSpace (c : ascii) : bool :=
  match nat_of_ascii c with
  | 32 | 9 | 13 | 10 | 12 => true
  | _ => false
  end.

Fixpoint matchInclude (val : string) (word : string) (s : string) : bool :=
  match s with
  | EmptyString =>
      match word with
      | EmptyString => false
      | _ => String.eqb word val
      end
  | String c s' =>
      if isSpace c then String.eqb word val || matchInclude val "" s'
      else matchInclude val (word ++ String c "")%string s'
  end.

Definition byTag (tag : string) (n : Node) : bool :=
  isElement n && String.eqb (Data n) tag.

Definition byClass (class : string) (n : Node) : bool :=
  isElement n &&
  existsb (fun kv => String.eqb (fst kv) "class" && matchInclude class "" (snd kv))
          (Attr n).

Definition byTagClass (tag class : string) (n : Node) : bool :=
  byTag tag n && byClass class n.

(** [Matcher.MatchAll(n)]: [n] itself when it matches, then the matches
    below it, in document order. *)
Fixpoint matchAll (m : Node -> bool) (prev : option Node) (n : Node)
  : Selection :=
  match n with
  | mkNode _ _ _ cs =>
      (if m n then [mkRef prev n] else []) ++
      (fix below (prev : option Node) (cs : list Node) : Selection :=
         match cs with
         | [] => []
         | c :: cs' => matchAll m prev c ++ below (Some c) cs'
         end) None cs
  end.

Fixpoint matchChildren (m : Node -> bool) (prev : option Node)
  (cs : list Node) : Selection :=
  match cs with
  | [] => []
  | c :: cs' => matchAll m prev c ++ matchChildren m (Some c) cs'
  end.

(** [s.Find(selector)] on a selection of at most one node (every [Find] of
    the program is of this kind): the matching descendants. *)
Definition Find (s : Selection) (m : Node -> bool) : Selection :=
  match s with
  | [] => []
  | r :: _ => matchChildren m None (Children (target r))
  end.

(** [s.Eq(i)] and [s.First()]. *)
Definition Eq (s : Selection) (i : nat) : Selection :=
  match s !! i with
  | Some r => [r]
  | None => []
  end.
Definition First (s : Selection) : Selection := Eq s 0.

(** [s.Text()]: the text nodes below the selected nodes, concatenated. *)
Fixpoint nodeText (n : Node) : string :=
  match n with
  | mkNode t d _ cs =>
      ((match t with TextNode => d | _ => "" end) ++
       (fix texts (cs : list Node) : string :=
          match cs with
          | [] => ""
          | c :: cs' => nodeText c ++ texts cs'
          end) cs)%string
  end.

Definition Text (s : Selection) : string :=
  String.concat "" (map (fun r => nodeText (target r)) s).

(** [s.Attr(name)]: the attribute of the first selected node. *)
Definition getAttributeValue (name : string) (n : Node) : string * bool :=
  match List.find (fun kv => String.eqb (fst kv) name) (Attr n) with
  | Some kv => (snd kv, true)
  | None => ("", false)
  end.

Definition SelAttr (s : Selection) (name : string) : string * bool :=
  match s with
  | [] => ("", false)
  | r :: _ => getAttributeValue name (target r)
  end.

(** ** Extractor: [findNodeWithContext] and [parseCirculars] *)

(** What the program writes to its log. *)
Inductive log_entry : Type :=
| ErrParseId                       (* ERROR: can't parse id to int. Skipping *)
| ErrNoTitle (id : N)              (* ERROR: Circular %d, has no 'title' field. Skipping *)
| ErrNoCategory (id : N)           (* ... has no 'category' field. Skipping *)
| ErrNoPublished (id : N)          (* ... has no 'published date' field. Skipping *)
| ErrBadPublished (id : N)         (* ... can't parse published date. Skipping *)
| ErrNoValidUntil (id : N)         (* ... has no 'valid until' field. Skipping *)
| ErrBadValidUntil (id : N)        (* ... can't parse valid until date. Skipping *)
| WarnAttachment (id : N)          (* WARNING: can't parse circular(%d) attachment. Skipping attachment *)
| InfoGetting                      (* INFO: getting circulars *)
| InfoParsing                      (* INFO: parsing circulars *)
| InfoParsed (n : nat)             (* INFO: parsed %d circulars *)
| InfoUpdating                     (* INFO: updating DB *)
| InfoUpdated                      (* INFO: updated DB *)
| InfoRemoving                     (* INFO: removing deleted circulars *)
| InfoRemoved (circulars attachments : nat)
                                   (* INFO: removed %d circulars and %d attachments *)
| InfoWaiting                      (* INFO: waiting *)
| ErrCycle (err : error).          (* ERROR: %v *)

(** [findNodeWithContext(context, s)]: the first child of the first node
    whose previous sibling's [Data] contains [context].  The previous
    sibling is read without a nil check. *)
Fixpoint findNodeWithContext (context : string) (s : list NodeRef)
  : run (option Node * bool) :=
  match s with
  | [] => Done (None, false)
  | n :: rest =>
      let* prev := deref (PrevSibling n) in
      if Contains (Data prev) context
      then Done (FirstChild (target n), true)
      else findNodeWithContext context rest
  end.

(** The inner [Each] over the attachment markers of the information cell. *)
Fixpoint parseAttachments (id : N) (markers : Selection)
  : list attachment * list log_entry :=
  match markers with
  | [] => ([], [])
  | a :: rest =>
      let '(atts, logs) := parseAttachments id rest in
      match SelAttr [a] "id_doc" with
      | (idDocStr, true) =>
          match ParseUint idDocStr with
          | None => (atts, WarnAttachment id :: logs)
          | Some idDoc => (mkAttachment idDoc (Text [a]) :: atts, logs)
          end
      | (_, false) => (atts, logs)
      end
  end.

(** The body of the outer [Each]: one result row.  [Done (None, logs)] is
    an early [return] (the row is skipped), [Done (Some c, logs)] appends
    [c] to [circulars]. *)
Definition parseRow (row : NodeRef) : run (option circular * list log_entry) :=
  match SelAttr (Find [row] (byClass "download-file")) "id_doc" with
  | (_, false) => Done (None, [])
  | (idStr, true) =>
  match ParseUint idStr with
  | None => Done (None, [ErrParseId])
  | Some id =>
  let infoColumn := Eq (Find [row] (byTag "td")) 1 in
  let spanTags := Find infoColumn (byTag "span") in
  let title := Text (First spanTags) in
  if String.eqb title "" then Done (None, [ErrNoTitle id]) else
  let* (category, exist_) := findNodeWithContext "Categoria" spanTags in
  if negb exist_ then Done (None, [ErrNoCategory id]) else
  let* (publishedDateStr, exist_) := findNodeWithContext "Pubblicato il" spanTags in
  if negb exist_ then Done (None, [ErrNoPublished id]) else
  let* publishedNode := deref publishedDateStr in
  match parseDate (Data publishedNode) with
  | None => Done (None, [ErrBadPublished id])
  | Some publishedDate =>
  let* (validUntilDateStr, exist_) := findNodeWithContext "Valido fino" spanTags in
  if negb exist_ then Done (None, [ErrNoValidUntil id]) else
  let* validUntilNode := deref validUntilDateStr in
  match parseDate (Data validUntilNode) with
  | None => Done (None, [ErrBadValidUntil id])
  | Some validUntilDate =>
  let '(attachments, logs) :=
    parseAttachments id (Find infoColumn (byClass "link-to-file")) in
  let* categoryNode := deref category in
  Done (Some (mkCircular id title (Data categoryNode) publishedDate
                validUntilDate attachments), logs)
  end end end end.

(** [doc.Find("tr.row-result").Each(...)]: the rows in document order; a
    fault in one row ends the whole pass. *)
Fixpoint parseRows (rows : Selection) : run (list circular * list log_entry) :=
  match rows with
  | [] => Done ([], [])
  | row :: rest =>
      let* (c, logs) := parseRow row in
      let* (cs, logs') := parseRows rest in
      Done (match c with Some c => c :: cs | None => cs end, logs ++ logs')
  end.

Definition resultRows (doc : Node) : Selection :=
  Find [mkRef None doc] (byTagClass "tr" "row-result").

(** [parseCirculars] once [goquery.NewDocumentFromReader] has produced the
    document. *)
Definition parseDocument (doc : Node) : run (list circular * list log_entry) :=
  parseRows (resultRows doc).

(** ** Fetcher: [getCirculars] *)

Record moreCircularsMsg : Type := mkMsg {
  Status : bool;
  msg_Data : Z;
  Err : string;
  Errdbg : string;
  Htm : string;      (* table lines with circulars *)
  Cnt : Z            (* number of circulars available in next request *)
}.

(** What one round of the loop meets upstream. *)
Inductive response : Type :=
| Reply (m : moreCircularsMsg)    (* the request was answered and the body decoded *)
| RequestError                    (* http.NewRequest returned an error *)
| TransportError                  (* client.Do returned an error *)
| DecodeError.                    (* the body is not the expected JSON *)

Inductive fetched : Type :=
| Corpus (html : string)
| FetchFailed (err : error)
| Stalled.                        (* a request was sent and is never answered *)

(** Go's [int] is 64 bits wide on the platforms the program runs on. *)
Definition wrap64 (z : Z) : Z := ((z + 2 ^ 63) mod 2 ^ 64 - 2 ^ 63)%Z.

(** The [for] loop of [getCirculars].  [upstream] is what the successive
    rounds meet; [asked] collects the [ls] offsets of the requests sent. *)
Fixpoint getCirculars_loop (upstream : list response) (count : Z)
  (circularsHtml : string) (asked : list Z) : fetched * list Z :=
  match upstream with
  | [] => (Stalled, asked ++ [count])
  | RequestError :: _ => (FetchFailed ErrRequest, asked)
  | TransportError :: _ => (FetchFailed ErrTransport, asked ++ [count])
  | DecodeError :: _ => (FetchFailed ErrDecode, asked ++ [count])
  | Reply m :: rest =>
      let circularsHtml := (circularsHtml ++ Htm m)%string in
      if (Cnt m <=? 0)%Z
      then (Corpus ("<html><body><table>" ++ circularsHtml
                    ++ "</table></body></html>")%string,
            asked ++ [count])
      else getCirculars_loop rest (wrap64 (count + 100)) circularsHtml
             (asked ++ [count])
  end.

Definition getCirculars (upstream : list response) : fetched * list Z :=
  getCirculars_loop upstream 0%Z "" [].

(** ** Sync Engine: the relational store *)

(** Modelled from the spec: the persisted schema (the table definitions are
    not part of the sources).  A circular table keyed by identifier with
    title, category, published date, valid-until date and insertion
    timestamp; an attachment table keyed by identifier with a title and the
    identifier of the owning circular. *)
Record circolare_row : Type := mkCircolare {
  titolo : string;
  categoria : string;
  data : string;
  valida_fino : string;
  aggiunta_il : string
}.

Record allegato_row : Type := mkAllegato {
  allegato_titolo : string;
  id_circolare : N
}.

Record database : Type := mkDatabase {
  circolare : gmap N circolare_row;
  circolare_allegato : gmap N allegato_row
}.

(** The two texts [queryCircular] / [queryAttachment] can hold. *)
Inductive insert_kind : Type :=
| InsertIgnore      (* INSERT IGNORE INTO ... VALUES (...) *)
| InsertOrUpdate.   (* INSERT INTO ... VALUES (...) ON DUPLICATE KEY UPDATE ... *)

Inductive statement : Type :=
| InsertCircolare (q : insert_kind) (id : N) (row : circolare_row)
| InsertAllegato (q : insert_kind) (id_allegato : N) (row : allegato_row)
| SelectCircolareIds      (* SELECT id FROM circolare ORDER BY id DESC *)
| SelectAllegatoIds       (* SELECT id_allegato id FROM circolare_allegato ORDER BY id DESC *)
| DeleteAllegato (id : N) (* DELETE FROM circolare_allegato WHERE id_allegato = ? *)
| DeleteCircolare (id : N). (* DELETE FROM circolare WHERE id = ? *)

(** Modelled from the spec: what a statement that succeeds does to the
    tables.  [INSERT IGNORE] leaves an existing row alone; the
    [ON DUPLICATE KEY UPDATE] clause of the circular query assigns titolo,
    categoria, data and valida_fino, that of the attachment query assigns
    titolo only. *)
Definition insertCircolare (q : insert_kind) (id : N) (r : circolare_row)
  (t : gmap N circolare_row) : gmap N circolare_row :=
  match t !! id, q with
  | None, _ => <[id := r]> t
  | Some _, InsertIgnore => t
  | Some old, InsertOrUpdate =>
      <[id := mkCircolare (titolo r) (categoria r) (data r) (valida_fino r)
                (aggiunta_il old)]> t
  end.

Definition insertAllegato (q : insert_kind) (id : N) (r : allegato_row)
  (t : gmap N allegato_row) : gmap N allegato_row :=
  match t !! id, q with
  | None, _ => <[id := r]> t
  | Some _, InsertIgnore => t
  | Some old, InsertOrUpdate =>
      <[id := mkAllegato (allegato_titolo r) (id_circolare old)]> t
  end.

Definition applyStatement (s : statement) (db : database) : database :=
  match s with
  | InsertCircolare q id r =>
      mkDatabase (insertCircolare q id r (circolare db)) (circolare_allegato db)
  | InsertAllegato q id r =>
      mkDatabase (circolare db) (insertAllegato q id r (circolare_allegato db))
  | DeleteAllegato id =>
      mkDatabase (circolare db) (delete id (circolare_allegato db))
  | DeleteCircolare id =>
      mkDatabase (delete id (circolare db)) (circolare_allegato db)
  | SelectCircolareIds | SelectAllegatoIds => db
  end.

(** How the store behaves during one call of [insertCirculars] or
    [deleteRemovedCirculars]: which of the calls on the connection succeed,
    and the clock read when a statement is built. *)
Record store_env : Type := mkStore {
  open_ok : bool;
  ping_ok : bool;
  begin_ok : bool;
  stmt_ok : nat -> bool;     (* does the k-th statement of the transaction succeed *)
  commit_ok : bool;
  now : nat -> string        (* time.Now().UTC().Format(time.RFC3339) at the k-th statement *)
}.

(** An open transaction: the rows as the transaction sees them, and the
    statements sent so far. *)
Record tx : Type := mkTx {
  work : database;
  sent : list statement
}.

(** [tx.Exec]: a statement that fails changes nothing. *)
Definition Exec (env : store_env) (t : tx) (s : statement) : tx * option error :=
  let k := length (sent t) in
  if stmt_ok env k
  then (mkTx (applyStatement s (work t)) (sent t ++ [s]), None)
  else (mkTx (work t) (sent t ++ [s]), Some (ErrExec k)).

(** [tx.Query] followed by the [rows.Next] / [rows.Scan] loop: the
    identifiers of a table, largest first.  The key columns hold unsigned
    64-bit numbers, so [Scan] into a [uint64] succeeds. *)
Definition Query {V} (env : store_env) (t : tx) (s : statement)
  (table : gmap N V) : tx * option (list N) :=
  let k := length (sent t) in
  (mkTx (work t) (sent t ++ [s]),
   if stmt_ok env k then Some (sortDesc (elements (dom table))) else None).

(** [Time.Format("2006-01-02")] of a date whose year has four digits, as
    [time.Parse] with the layout above produces them. *)
Definition digitChar (n : Z) : ascii := ascii_of_nat (48 + Z.to_nat n).
Definition pad2 (n : Z) : string :=
  String (digitChar (n / 10)) (String (digitChar (n mod 10)) "").
Definition formatDate (d : date) : string :=
  (pad2 (year d / 100) ++ pad2 (year d mod 100) ++ "-" ++ pad2 (month d)
   ++ "-" ++ pad2 (day d))%string.

(** ** Sync Engine: [insertCirculars] *)

Definition circolareOf (c : circular) (aggiunta : string) : circolare_row :=
  mkCircolare (Title c) (Category c) (formatDate (PublishedDate c))
    (formatDate (ValidUntilDate c)) aggiunta.

Definition allegatoOf (cid : N) (att : attachment) : allegato_row :=
  mkAllegato (att_Title att) cid.

(** The inner loop over [c.Attachments]; stops at the first error. *)
Fixpoint insertAttachments (env : store_env) (q : insert_kind) (cid : N)
  (atts : list attachment) (t : tx) : tx * option error :=
  match atts with
  | [] => (t, None)
  | att :: rest =>
      match Exec env t (InsertAllegato q (att_Id att) (allegatoOf cid att)) with
      | (t', Some err) => (t', Some err)
      | (t', None) => insertAttachments env q cid rest t'
      end
  end.

(** The texts chosen at the top of the loop body: the [INSERT IGNORE]
    pair, replaced by the [ON DUPLICATE KEY UPDATE] pair
    [if idx < numToUpdate]. *)
Definition queryKind (numToUpdate : Z) (idx : nat) : insert_kind :=
  if (Z.of_nat idx <? numToUpdate)%Z then InsertOrUpdate else InsertIgnore.

(** The loop [for idx, c := range circulars]. *)
Fixpoint insertLoop (env : store_env) (numToUpdate : Z) (idx : nat)
  (circulars : list circular) (t : tx) : tx * option error :=
  match circulars with
  | [] => (t, None)
  | c :: rest =>
      let q := queryKind numToUpdate idx in
      match Exec env t (InsertCircolare q (Id c)
                          (circolareOf c (now env (length (sent t))))) with
      | (t1, Some err) => (t1, Some err)
      | (t1, None) =>
          match insertAttachments env q (Id c) (Attachments c) t1 with
          | (t2, Some err) => (t2, Some err)
          | (t2, None) => insertLoop env numToUpdate (S idx) rest t2
          end
      end
  end.

(** [insertCirculars]: the store after the call, the returned error, and
    the statements that were sent.  Leaving without [tx.Commit] leaves the
    store as it was: the work of the transaction is never made visible. *)
Definition insertCirculars (circulars : list circular) (numToUpdate : Z)
  (env : store_env) (db : database)
  : database * option error * list statement :=
  if negb (open_ok env) then (db, Some ErrOpen, [])
  else if negb (ping_ok env) then (db, Some ErrPing, [])
  else if negb (begin_ok env) then (db, Some ErrBegin, [])
  else
    match insertLoop env numToUpdate 0 circulars (mkTx db []) with
    | (t, Some err) => (db, Some err, sent t)
    | (t, None) =>
        if commit_ok env then (work t, None, sent t)
        else (db, Some ErrCommit, sent t)
    end.

(** The statements one pass of the loop body sends for a circular: the
    circular's insert, then one insert per attachment, all of one kind. *)
Definition statementsFor (q : insert_kind) (c : circular) (ts : string)
  : list statement :=
  InsertCircolare q (Id c) (circolareOf c ts)
  :: map (fun att => InsertAllegato q (att_Id att) (allegatoOf (Id c) att))
       (Attachments c).

(** ** Sync Engine: [deleteRemovedCirculars] *)

(** [for _, id := range ids { tx.Exec("DELETE ...", id) }]: the result of
    [Exec] is dropped. *)
Definition deleteAll (env : store_env) (del : N -> statement) (ids : list N)
  (t : tx) : tx :=
  fold_left (fun t id => fst (Exec env t (del id))) ids t.

Definition deleteRemovedCirculars (circulars : list circular)
  (env : store_env) (db : database)
  : run (database * (nat * nat * option error) * list statement) :=
  if negb (open_ok env) then Done (db, (0, 0, Some ErrOpen), [])
  else if negb (ping_ok env) then Done (db, (0, 0, Some ErrPing), [])
  else if negb (begin_ok env) then Done (db, (0, 0, Some ErrBegin), [])
  else
    let parsedCircId := sortDesc (parsedCircIds circulars) in
    let parsedAttachId := sortDesc (parsedAttachIds circulars) in
    let t0 := mkTx db [] in
    match Query env t0 SelectCircolareIds (circolare (work t0)) with
    | (_, None) => Abort FatalExit                      (* log.Fatal(errC) *)
    | (t1, Some dbCircularsId) =>
    match Query env t1 SelectAllegatoIds (circolare_allegato (work t1)) with
    | (_, None) => Abort FatalExit                      (* log.Fatal(errA) *)
    | (t2, Some dbAttachmentsId) =>
        let* idsCircToRemove := idsToRemove parsedCircId dbCircularsId in
        let* idsAttachToRemove := idsToRemove parsedAttachId dbAttachmentsId in
        let t3 := deleteAll env DeleteAllegato idsAttachToRemove t2 in
        let t4 := deleteAll env DeleteCircolare idsCircToRemove t3 in
        if commit_ok env
        then Done (work t4,
                   (length idsCircToRemove, length idsAttachToRemove, None),
                   sent t4)
        else Done (db, (0, 0, Some ErrCommit), sent t4)
    end end.

(** ** The worker: [main] *)

Record config : Type := mkConfig {
  connectionString : string;
  siteUrl : string;
  parseTimeout : Z                          (* a time.Duration, in nanoseconds *)
}.

(** The credentials file. *)
Record dbConfig : Type := mkDbConfig {
  ConnectionString : string
}.

Inductive file_error : Type :=
| ErrFileOpen           (* os.Open *)
| ErrFileDecode.        (* json.NewDecoder(configFile).Decode *)

(** What [main] reads from its surroundings at startup.  [DecodeConfig] is
    [Decode(&config)] on a file: an error, or the pointer it leaves in
    [config], which is nil when the file holds the JSON value [null]. *)
Record os_env : Type := mkOs {
  LookupEnv : string -> option string;
  Args : list string;
  OpenFile : string -> option string;
  DecodeConfig : string -> option (option dbConfig);
  ParseDuration : string -> option Z
}.

(** [loadConfiguration(filename)]: the pair [(config, err)]. *)
Definition loadConfiguration (os : os_env) (filename : string)
  : option dbConfig * option file_error :=
  match OpenFile os filename with
  | None => (None, Some ErrFileOpen)
  | Some configFile =>
      match DecodeConfig os configFile with
      | None => (None, Some ErrFileDecode)
      | Some config => (config, None)
      end
  end.

(** The part of [main] before the loop.  Every [log.Fatal] ends the
    process; [dbConfig.ConnectionString] is read through the pointer
    [loadConfiguration] returned, without a nil check. *)
Definition startup (os : os_env) : run config :=
  let* connectionString :=
    match LookupEnv os "CIRCULARS_DB_CONNECTION_STRING" with
    | Some envVar => Done envVar
    | None =>
        if (length (Args os) <? 2)%nat then Abort FatalExit
        else
          let* sqlConfFilename := index (Args os) 1 in
          let '(conf, err) := loadConfiguration os sqlConfFilename in
          match err with
          | Some _ => Abort FatalExit
          | None =>
              let* c := deref conf in
              Done (ConnectionString c)
          end
    end in
  let* siteUrl :=
    match LookupEnv os "CIRCULARS_SITE_URL" with
    | Some envVar => Done envVar
    | None => Abort FatalExit
    end in
  let* parseTimeout :=
    match LookupEnv os "CIRCULARS_CYCLE_WAIT" with
    | Some envVar =>
        match ParseDuration os envVar with
        | Some i => Done i
        | None => Abort FatalExit
        end
    | None => Abort FatalExit
    end in
  Done (mkConfig connectionString siteUrl parseTimeout).

(** Instants are nanoseconds since the zero [time.Time]. *)
Definition Minute : Z := 60000000000.
Definition Hour : Z := 3600000000000.

(** [t.Truncate(d)]. *)
Definition Truncate (t d : Z) : Z :=
  if (d <=? 0)%Z then t else (t - t mod d)%Z.

Record loop_state : Type := mkLoop {
  nextTime : Z;
  nextCleanupTime : Z
}.

(** What one pass of the loop meets: the upstream replies, the markup
    parser's verdict on the corpus, and the store during the write and
    during the cleanup. *)
Record cycle_env : Type := mkCycle {
  upstream : list response;
  NewDocumentFromReader : string -> option Node;
  write_store : store_env;
  cleanup_store : store_env
}.

(** How a pass ends when the process survives it: the loop goes round
    again, or it sits in a request that is never answered. *)
Inductive pass : Type :=
| Continue (s : loop_state) (db : database) (log : list log_entry)
| Blocked.

(** One pass of the [for] loop of [main], after the sleep. *)
Definition cycle (e : cycle_env) (s : loop_state) (db : database)
  (cfg : config) : run pass :=
  let nextTime1 := (Truncate (nextTime s) Minute + parseTimeout cfg)%Z in
  let s1 := mkLoop nextTime1 (nextCleanupTime s) in
  match fst (getCirculars (upstream e)) with
  | Stalled => Done Blocked
  | FetchFailed err => Done (Continue s1 db [InfoGetting; ErrCycle err])
  | Corpus circularsHtml =>
  match NewDocumentFromReader e circularsHtml with
  | None => Done (Continue s1 db [InfoGetting; InfoParsing; ErrCycle ErrMarkup])
  | Some doc =>
  let* (circulars, rowLog) := parseDocument doc in
  let log1 := [InfoGetting; InfoParsing] ++ rowLog
              ++ [InfoParsed (length circulars); InfoUpdating] in
  match insertCirculars circulars 25 (write_store e) db with
  | (db1, Some err, _) => Done (Continue s1 db1 (log1 ++ [ErrCycle err]))
  | (db1, None, _) =>
      if (nextCleanupTime s <? nextTime1)%Z then
        let s2 := mkLoop nextTime1 (Truncate nextTime1 Hour + 6 * Hour)%Z in
        let* (db2, (removedCirculars, removedAttachments, err), _) :=
          deleteRemovedCirculars circulars (cleanup_store e) db1 in
        match err with
        | Some err =>
            Done (Continue s2 db2
                    (log1 ++ [InfoUpdated; InfoRemoving; ErrCycle err]))
        | None =>
            Done (Continue s2 db2
                    (log1 ++ [InfoUpdated; InfoRemoving;
                              InfoRemoved removedCirculars removedAttachments;
                              InfoWaiting]))
        end
      else Done (Continue s1 db1 (log1 ++ [InfoUpdated; InfoWaiting]))
  end end end.

(** The loop of [main] over the passes it gets to make: the state it is in
    after them, unless the process ended on the way. *)
Fixpoint passes (cfg : config) (es : list cycle_env) (s : loop_state)
  (db : database) : run pass :=
  match es with
  | [] => Done (Continue s db [])
  | e :: rest =>
      let* p := cycle e s db cfg in
      match p with
      | Blocked => Done Blocked
      | Continue s' db' log =>
          let* p' := passes cfg rest s' db' in
          match p' with
          | Blocked => Done Blocked
          | Continue s'' db'' log' => Done (Continue s'' db'' (log ++ log'))
          end
      end
  end.

(** [main]: startup, then the loop; it starts without waiting, with the
    first cleanup due at once. *)
Definition main (os : os_env) (start : Z) (es : list cycle_env)
  (db : database) : run pass :=
  let* cfg := startup os in
  passes cfg es (mkLoop start start) db.

(** ** Concrete documents

    The markup of a result page as the parser delivers it. *)

Definition el (tag : string) (attrs : list (string * string)) (cs : list Node) : Node :=
  mkNode ElementNode tag attrs cs.
Definition txt (s : string) : Node := mkNode TextNode s [] [].

Definition idCell (id : string) : Node :=
  el "td" [] [el "a" [("class", "btn download-file"); ("id_doc", id)] []].

Definition infoCell (title cat pub valid : string) (files : list Node) : Node :=
  el "td" []
     ([txt " "; el "span" [] [txt title];
       txt "Categoria: "; el "span" [] [txt cat];
       txt "Pubblicato il "; el "span" [] [txt pub];
       txt "Valido fino al "; el "span" [] [txt valid]] ++ files).

Definition fileLink (id title : string) : Node :=
  el "a" [("class", "link-to-file"); ("id_doc", id)] [txt title].

Definition resultRow (cells : list Node) : Node :=
  el "tr" [("class", "row-result")] cells.

Definition page (rows : list Node) : Node :=
  mkNode DocumentNode "" []
    [el "html" [] [el "head" [] []; el "body" [] [el "table" [] [el "tbody" [] rows]]]].

Definition doc1 := page
      [resultRow [idCell "12"; infoCell "Sciopero" "Avvisi" "07/09/2024" "30/09/2024"
                               [fileLink "7" "testo.pdf"; fileLink "x" "rotto.pdf"]];
       resultRow [el "td" [] []; infoCell "Annullata" "Avvisi" "07/09/2024" "30/09/2024" []];
       resultRow [idCell "13"; infoCell "Gita" "Avvisi" "31/13/2024" "30/09/2024" []];
       resultRow [idCell "14"; infoCell "Orario" "Docenti" "01/10/2024" "31/10/2024" []]].

(** ** Concrete stores *)

(** A store whose every call succeeds, and one in which exactly the [bad]-th
    statement of the transaction fails. *)
Definition steady_store : store_env :=
  mkStore true true true (fun _ => true) true (fun _ => "2024-09-07T10:00:00Z").

Definition failing_at (bad : nat) : store_env :=
  mkStore true true true (fun k => negb (k =? bad)%nat) true
    (fun _ => "2024-09-07T10:00:00Z").

Definition sept7 : date := mkDate 2024 9 7.
Definition sept30 : date := mkDate 2024 9 30.

(** The current extraction: circulars 9 and 1, the latter with attachment 2. *)
Definition listed : list circular :=
  [mkCircular 9 "Sciopero" "Avvisi" sept7 sept30 [];
   mkCircular 1 "Orario" "Docenti" sept7 sept30 [mkAttachment 2 "orario.pdf"]].

Definition stored_row (t : string) : circolare_row :=
  mkCircolare t "Avvisi" "2024-09-01" "2024-09-30" "2024-09-01T08:00:00Z".

(** The store before a cleanup: circulars 9, 5 and 1; attachment 8 of
    circular 9, attachment 7 of circular 5, attachment 2 of circular 1. *)
Definition stored : database :=
  mkDatabase
    (<[9%N := stored_row "Sciopero"]> (<[5%N := stored_row "Gita"]>
       (<[1%N := stored_row "Orario"]> ∅)))
    (<[8%N := mkAllegato "volantino.pdf" 9]> (<[7%N := mkAllegato "gita.pdf" 5]>
       (<[2%N := mkAllegato "orario.pdf" 1]> ∅))).

(** ** Vocabulary for the properties of the Extractor

    What a row offers to the queries of [parseCirculars], read off the
    document alone. *)

(** The [span] elements of the information cell (the second [td]). *)
Definition spanTagsOf (row : NodeRef) : Selection :=
  Find (Eq (Find [row] (byTag "td")) 1) (byTag "span").

(** The identifier marker: the [id_doc] attribute of the first
    [.download-file] element. *)
Definition idMarker (row : NodeRef) : string * bool :=
  SelAttr (Find [row] (byClass "download-file")) "id_doc".

Definition titleOf (row : NodeRef) : string := Text (First (spanTagsOf row)).

(** A span is labelled [context] when the [Data] of the node just before
    it contains [context]. *)
Definition isLabelled (context : string) (n : NodeRef) : bool :=
  match PrevSibling n with
  | Some prev => Contains (Data prev) context
  | None => false
  end.

Definition labelSpan (context : string) (row : NodeRef) : option NodeRef :=
  List.find (isLabelled context) (spanTagsOf row).

(** The text that follows a label: the [Data] of the first child of the
    first span labelled [context]. *)
Definition labelled (context : string) (row : NodeRef) : option string :=
  match labelSpan context row with
  | Some n => option_map Data (FirstChild (target n))
  | None => None
  end.


Definition unparseableId (row : NodeRef) : Prop :=
  snd (idMarker row) = true /\ ParseUint (fst (idMarker row)) = None.

Definition emptyTitle (row : NodeRef) : Prop := titleOf row = "".

Definition missingLabel (row : NodeRef) : Prop :=
  labelSpan "Categoria" row = None \/ labelSpan "Pubblicato il" row = None
  \/ labelSpan "Valido fino" row = None.

Definition malformedDate (row : NodeRef) : Prop :=
  (exists s, labelled "Pubblicato il" row = Some s /\ parseDate s = None) \/
  (exists s, labelled "Valido fino" row = Some s /\ parseDate s = None).

(** Every span of the information cell has a node before it and a node
    inside it. *)
Definition wellLinked (row : NodeRef) : Prop :=
  Forall (fun n => is_Some (PrevSibling n) /\ is_Some (FirstChild (target n)))
         (spanTagsOf row).

(** What a row contributes to the result and to the log. *)
Definition circularOf (row : NodeRef) : option circular :=
  match parseRow row with
  | Done (Some c, _) => Some c
  | _ => None
  end.

Definition diagnosticsOf (row : NodeRef) : list log_entry :=
  match parseRow row with
  | Done (_, logs) => logs
  | Abort _ => []
  end.

(** Rows that go through, and the two shapes on which the label scan
    dereferences nil: an information cell that opens with its first span,
    and a date label followed by an empty span. *)
Definition soundRow (id title : string) : Node :=
  resultRow [idCell id; infoCell title "Docenti" "01/10/2024" "31/10/2024" []].

Definition spanFirstCell : Node :=
  el "td" []
     [el "span" [] [txt "Sciopero"];
      txt "Categoria: "; el "span" [] [txt "Avvisi"];
      txt "Pubblicato il "; el "span" [] [txt "07/09/2024"];
      txt "Valido fino al "; el "span" [] [txt "30/09/2024"]].

Definition emptyValueCell : Node :=
  el "td" []
     [txt " "; el "span" [] [txt "Sciopero"];
      txt "Categoria: "; el "span" [] [txt "Avvisi"];
      txt "Pubblicato il "; el "span" [] [];
      txt "Valido fino al "; el "span" [] [txt "30/09/2024"]].

Definition docSpanFirst : Node :=
  page [soundRow "14" "Orario"; resultRow [idCell "12"; spanFirstCell];
        soundRow "15" "Gita"].

Definition docEmptyValue : Node :=
  page [soundRow "14" "Orario"; resultRow [idCell "12"; emptyValueCell];
        soundRow "15" "Gita"].




(** ** Vocabulary for the properties of the worker *)

(** The two queries of the cleanup succeed. *)
Definition cleanupQueriesOk (e : cycle_env) : Prop :=
  stmt_ok (cleanup_store e) 0 = true /\ stmt_ok (cleanup_store e) 1 = true.

(** The failures a pass can meet, with the error the failing call returns:
    the fetch (request, transport, decode), the markup parse, the write
    transaction, and the connection, begin or commit of the cleanup. *)
Inductive cycleFailure (e : cycle_env) (s : loop_state) (db : database)
  (cfg : config) : error -> Prop :=
| FetchFails err :
    fst (getCirculars (upstream e)) = FetchFailed err ->
    cycleFailure e s db cfg err
| MarkupFails html :
    fst (getCirculars (upstream e)) = Corpus html ->
    NewDocumentFromReader e html = None ->
    cycleFailure e s db cfg ErrMarkup
| WriteFails html doc circulars rowLog db1 err trace :
    fst (getCirculars (upstream e)) = Corpus html ->
    NewDocumentFromReader e html = Some doc ->
    parseDocument doc = Done (circulars, rowLog) ->
    insertCirculars circulars 25 (write_store e) db = (db1, Some err, trace) ->
    cycleFailure e s db cfg err
| CleanupFails html doc circulars rowLog db1 trace db2 rc ra err trace' :
    fst (getCirculars (upstream e)) = Corpus html ->
    NewDocumentFromReader e html = Some doc ->
    parseDocument doc = Done (circulars, rowLog) ->
    insertCirculars circulars 25 (write_store e) db = (db1, None, trace) ->
    (nextCleanupTime s < Truncate (nextTime s) Minute + parseTimeout cfg)%Z ->
    deleteRemovedCirculars circulars (cleanup_store e) db1
    = Done (db2, (rc, ra, Some err), trace') ->
    cycleFailure e s db cfg err.

(** A pass that gets as far as the queries of a cleanup that is due, with
    one of the two queries failing. *)
Inductive cleanupQueryFails (e : cycle_env) (s : loop_state) (db : database)
  (cfg : config) : Prop :=
| QueryFails html doc circulars rowLog db1 trace :
    fst (getCirculars (upstream e)) = Corpus html ->
    NewDocumentFromReader e html = Some doc ->
    parseDocument doc = Done (circulars, rowLog) ->
    insertCirculars circulars 25 (write_store e) db = (db1, None, trace) ->
    (nextCleanupTime s < Truncate (nextTime s) Minute + parseTimeout cfg)%Z ->
    open_ok (cleanup_store e) = true ->
    ping_ok (cleanup_store e) = true ->
    begin_ok (cleanup_store e) = true ->
    ~ cleanupQueriesOk e ->
    cleanupQueryFails e s db cfg.

(** ** A concrete deployment *)

Definition fiveMinutes : Z := 5 * Minute.

Definition deployed : os_env :=
  mkOs (fun name =>
          if String.eqb name "CIRCULARS_DB_CONNECTION_STRING"
          then Some "user:pass@tcp(db:3306)/circolari"
          else if String.eqb name "CIRCULARS_SITE_URL"
          then Some "https://web.spaggiari.eu/sdg/app/default/comunicati.php?sede_codice=XXXX0000"
          else if String.eqb name "CIRCULARS_CYCLE_WAIT" then Some "5m"
          else None)
       ["circolari"] (fun _ => None) (fun _ => None)
       (fun d => if String.eqb d "5m" then Some fiveMinutes else None).

Definition onePage : list response :=
  [Reply (mkMsg true 0 "" "" "<tr>...</tr>" 0)].

(** The markup parser on that page: one sound row. *)
Definition parsedPage (html : string) : option Node :=
  Some (page [soundRow "14" "Orario"]).

(** A pass in which the first query of the cleanup fails. *)
Definition queryFails : cycle_env :=
  mkCycle onePage parsedPage steady_store (failing_at 0).

(** A pass in which the transport fails. *)
Definition transportFails : cycle_env :=
  mkCycle [TransportError] parsedPage steady_store steady_store.

Definition emptyStore : database := mkDatabase ∅ ∅.

#[global] Instance wellLinked_dec row : Decision (wellLinked row).
Proof. unfold wellLinked. apply _. Defined.


(** A date written the way the layout [02/01/2006] reads it: two digits
    of day, two of month, four of year, slashes between. *)
Definition formatDMY (d : date) : string :=
  (pad2 (day d) ++ "/" ++ pad2 (month d) ++ "/"
   ++ pad2 (year d / 100) ++ pad2 (year d mod 100))%string.

Definition validDate (d : date) : Prop :=
  (0 <= year d <= 9999 /\ 1 <= month d <= 12 /\
   1 <= day d <= daysIn (month d) (year d))%Z.

(** ** Vocabulary for the other components *)

(** The offsets of the first [n] requests. *)
Definition offsetsFrom (count : Z) (n : nat) : list Z :=
  map (fun k => (count + 100 * Z.of_nat k)%Z) (seq 0 n).

(** Between two states of a transaction: statements were only added, and
    each added one succeeded. *)
Definition went_well (env : store_env) (t t' : tx) : Prop :=
  length (sent t) <= length (sent t') /\
  forall k, length (sent t) <= k < length (sent t') -> stmt_ok env k = true.

(** What the label scan returns when it returns: the child of the first
    labelled span. *)
Definition labelResult (context : string) (spans : list NodeRef)
  : option Node * bool :=
  match List.find (isLabelled context) spans with
  | Some n => (FirstChild (target n), true)
  | None => (None, false)
  end.

(** The configuration [deployed] yields, and the store after the cleanup
    of [stored] against [listed] when every statement succeeds. *)
Definition deployedConfig : config :=
  mkConfig "user:pass@tcp(db:3306)/circolari"
    "https://web.spaggiari.eu/sdg/app/default/comunicati.php?sede_codice=XXXX0000"
    fiveMinutes.

Definition cleaned : database :=
  mkDatabase (delete 5%N (circolare stored))
    (delete 7%N (delete 8%N (circolare_allegato stored))).

Definition firstPage : moreCircularsMsg := mkMsg true 0 "" "" "<tr>a</tr>" 100.
Definition secondPage : moreCircularsMsg := mkMsg true 0 "" "" "<tr>b</tr>" 0.

(** A pass whose page holds no result row. *)
Definition emptyListing : cycle_env :=
  mkCycle onePage (fun _ => Some (page [])) steady_store steady_store.

(** ** Vocabulary for further properties *)

(** The error a round of the fetch loop returns when it does not get a
    decoded reply. *)
Definition failureOf (r : response) : option error :=
  match r with
  | Reply _ => None
  | RequestError => Some ErrRequest
  | TransportError => Some ErrTransport
  | DecodeError => Some ErrDecode
  end.

(** The container [getCirculars] puts around the fragments. *)
Definition wrapTable (fragments : string) : string :=
  ("<html><body><table>" ++ fragments ++ "</table></body></html>")%string.

(** A circular as the data model wants it: identifiers that fit in 64
    bits, a title that is not empty, two calendar dates. *)
Definition wellFormed (c : circular) : Prop :=
  (Id c < 2 ^ 64)%N /\ Title c <> "" /\
  validDate (PublishedDate c) /\ validDate (ValidUntilDate c) /\
  Forall (fun a => (att_Id a < 2 ^ 64)%N) (Attachments c).

(** The attachment markers of the information cell. *)
Definition attachmentMarkersOf (row : NodeRef) : Selection :=
  Find (Eq (Find [row] (byTag "td")) 1) (byClass "link-to-file").

Definition hasIdDoc (a : NodeRef) : bool := snd (SelAttr [a] "id_doc").

(** The digits of a day/month/year text in the order year, month, day. *)
Definition isoOfDMY (s : string) : string :=
  (substring 6 4 s ++ "-" ++ substring 3 2 s ++ "-" ++ substring 0 2 s)%string.

(** The store after a list of statements that all succeed. *)
Definition applyAll (ss : list statement) (db : database) : database :=
  fold_left (fun d s => applyStatement s d) ss db.

(** What [insertCirculars] never changes in a row that is already stored:
    the insertion timestamp of a circular, the owner of an attachment. *)
Definition keepsOrigins (db db' : database) : Prop :=
  (forall id old, circolare db !! id = Some old ->
     exists new, circolare db' !! id = Some new /\
                 aggiunta_il new = aggiunta_il old) /\
  (forall id old, circolare_allegato db !! id = Some old ->
     exists new, circolare_allegato db' !! id = Some new /\
                 id_circolare new = id_circolare old).

(** Every stored row is left exactly as it is. *)
Definition keepsRows (db db' : database) : Prop :=
  (forall id old, circolare db !! id = Some old -> circolare db' !! id = Some old) /\
  (forall id old, circolare_allegato db !! id = Some old ->
     circolare_allegato db' !! id = Some old).

(** Every row of [db'] is a row of [db], unchanged. *)
Definition onlyRemoves (db db' : database) : Prop :=
  (forall id r, circolare db' !! id = Some r -> circolare db !! id = Some r) /\
  (forall id r, circolare_allegato db' !! id = Some r ->
     circolare_allegato db !! id = Some r).

(** A loop that ends with an error ended on the statement that failed. *)
Definition stoppedAt (env : store_env) (t t' : tx) (err : error) : Prop :=
  err = ErrExec (length (sent t') - 1) /\
  length (sent t) < length (sent t') /\
  stmt_ok env (length (sent t') - 1) = false /\
  forall k, length (sent t) <= k < length (sent t') - 1 -> stmt_ok env k = true.

(** The log entries the Extractor writes. *)
Definition isRowEntry (l : log_entry) : bool :=
  match l with
  | ErrParseId | ErrNoTitle _ | ErrNoCategory _ | ErrNoPublished _
  | ErrBadPublished _ | ErrNoValidUntil _ | ErrBadValidUntil _
  | WarnAttachment _ => true
  | _ => false
  end.

(** What the surroundings must offer for [main] to get to its loop with
    the configuration [cfg]: the connection string from the environment
    or, when the variable is not set, from the file named by the first
    argument, which must open and decode to a configuration; the site
    address and a parsable cycle period from the environment. *)
Definition configuredAs (os : os_env) (cfg : config) : Prop :=
  (LookupEnv os "CIRCULARS_DB_CONNECTION_STRING" = Some (connectionString cfg)
   \/ LookupEnv os "CIRCULARS_DB_CONNECTION_STRING" = None /\
      exists file content,
        Args os !! 1 = Some file /\ OpenFile os file = Some content /\
        DecodeConfig os content = Some (Some (mkDbConfig (connectionString cfg)))) /\
  LookupEnv os "CIRCULARS_SITE_URL" = Some (siteUrl cfg) /\
  exists w, LookupEnv os "CIRCULARS_CYCLE_WAIT" = Some w /\
            ParseDuration os w = Some (parseTimeout cfg).

(** The connection string is not in the environment and the file named by
    the first argument decodes without error to a nil configuration. *)
Definition nilConfiguration (os : os_env) : Prop :=
  LookupEnv os "CIRCULARS_DB_CONNECTION_STRING" = None /\
  exists file content,
    Args os !! 1 = Some file /\ OpenFile os file = Some content /\
    DecodeConfig os content = Some None.

(** A deployment that names its credentials file on the command line. *)
Definition deployedWithFile : os_env :=
  mkOs (fun name =>
          if String.eqb name "CIRCULARS_SITE_URL" then Some "https://example.org/"
          else if String.eqb name "CIRCULARS_CYCLE_WAIT" then Some "5m"
          else None)
       ["circolari"; "sqlcredentials.json"]
       (fun f => if String.eqb f "sqlcredentials.json" then Some "{...}" else None)
       (fun content => if String.eqb content "{...}"
                       then Some (Some (mkDbConfig "user:pass@/db")) else None)
       (fun d => if String.eqb d "5m" then Some fiveMinutes else None).

(** The same deployment with a credentials file that holds [null]. *)
Definition deployedWithNull : os_env :=
  mkOs (LookupEnv deployedWithFile) (Args deployedWithFile)
       (fun f => if String.eqb f "sqlcredentials.json" then Some "null" else None)
       (fun content => if String.eqb content "null" then Some None else None)
       (ParseDuration deployedWithFile).

(** A pass in which everything succeeds. *)
Definition steadyPass : cycle_env :=
  mkCycle onePage parsedPage steady_store steady_store.

(** The log of a completed cleanup, or of one that returned an error. *)
Definition cleanupLog (rc ra : nat) (err : option error) : list log_entry :=
  match err with
  | Some err => [InfoRemoving; ErrCycle err]
  | None => [InfoRemoving; InfoRemoved rc ra; InfoWaiting]
  end.

(** A store holding one circular that the page no longer lists. *)
Definition staleStore : database :=
  mkDatabase (<[20%N := stored_row "Gita"]> ∅) ∅.

(** The store after [steadyPass]: the one circular of the page. *)
Definition mirrored : database :=
  mkDatabase
    (<[14%N := mkCircolare "Orario" "Docenti" "2024-10-01" "2024-10-31"
                 "2024-09-07T10:00:00Z"]> ∅) ∅.

(** ** The earlier implementation: [parseCirculars] of [circolari.go]

    It differs from the current one in the rows without identifier marker:
    they are parsed like the others, with identifier 0, and collected in a
    second list, [canceled]. *)

Module Legacy.

(** How the body of the outer [Each] leaves a row. *)
Inductive row_result : Type :=
| Listed (c : circular)       (* appended to [circulars] *)
| Canceled (c : circular)     (* appended to [canceled] *)
| Skipped.                    (* an early [return] *)

Definition parseRow (row : NodeRef) : run (row_result * list log_entry) :=
  let '(idStr, exist_) :=
    SelAttr (Find [row] (byClass "download-file")) "id_doc" in
  let noId := negb exist_ in
  match (if negb noId then ParseUint idStr else Some 0%N) with
  | None => Done (Skipped, [ErrParseId])
  | Some id =>
  let infoColumn := Eq (Find [row] (byTag "td")) 1 in
  let spanTags := Find infoColumn (byTag "span") in
  let title := Text (First spanTags) in
  if String.eqb title "" then Done (Skipped, [ErrNoTitle id]) else
  let* (category, exist_) := findNodeWithContext "Categoria" spanTags in
  if negb exist_ then Done (Skipped, [ErrNoCategory id]) else
  let* (publishedDateStr, exist_) := findNodeWithContext "Pubblicato il" spanTags in
  if negb exist_ then Done (Skipped, [ErrNoPublished id]) else
  let* publishedNode := deref publishedDateStr in
  match parseDate (Data publishedNode) with
  | None => Done (Skipped, [ErrBadPublished id])
  | Some publishedDate =>
  let* (validUntilDateStr, exist_) := findNodeWithContext "Valido fino" spanTags in
  if negb exist_ then Done (Skipped, [ErrNoValidUntil id]) else
  let* validUntilNode := deref validUntilDateStr in
  match parseDate (Data validUntilNode) with
  | None => Done (Skipped, [ErrBadValidUntil id])
  | Some validUntilDate =>
  if negb noId then
    let '(attachments, logs) :=
      parseAttachments id (Find infoColumn (byClass "link-to-file")) in
    let* categoryNode := deref category in
    Done (Listed (mkCircular id title (Data categoryNode) publishedDate
                    validUntilDate attachments), logs)
  else
    let* categoryNode := deref category in
    Done (Canceled (mkCircular 0 title (Data categoryNode) publishedDate
                      validUntilDate []), [])
  end end end.

Fixpoint parseRows (rows : Selection)
  : run (list circular * list circular * list log_entry) :=
  match rows with
  | [] => Done ([], [], [])
  | row :: rest =>
      let* (r, logs) := parseRow row in
      let* (found, logs') := parseRows rest in
      Done (match r with Listed c => c :: fst found | _ => fst found end,
            match r with Canceled c => c :: snd found | _ => snd found end,
            logs ++ logs')
  end.

(** [parseCirculars] once the document is there: [circulars], [canceled]
    and the log. *)
Definition parseDocument (doc : Node)
  : run (list circular * list circular * list log_entry) :=
  parseRows (resultRows doc).

End Legacy.

(** A row without identifier marker whose information cell is complete. *)
Definition canceledRow (title : string) : Node :=
  resultRow [el "td" [] []; infoCell title "Docenti" "01/10/2024" "31/10/2024" []].

Definition docCanceled : Node :=
  page [soundRow "14" "Orario"; canceledRow "Gita"].

(** How many cleanups a log shows to have been started. *)
Definition isRemoving (l : log_entry) : bool :=
  match l with InfoRemoving => true | _ => false end.

Definition cleanupsStarted (log : list log_entry) : nat :=
  length (List.filter isRemoving log).

(* ================================================================== *)
(** * Properties *)

(** ** Reconciler *)

Example notParsed_found : notParsed [9; 7; 4]%N 7%N = Done false.
Proof. reflexivity. Qed.

Example notParsed_absent_inside : notParsed [9; 7; 4]%N 8%N = Done true.
Proof. reflexivity. Qed.

Example notParsed_below_all : notParsed [9; 7; 4]%N 3%N = Abort IndexOutOfRange.
Proof. reflexivity. Qed.

Example removalCandidates_ex :
  removalCandidates [4; 9; 7]%N [9; 8; 7; 5; 4]%N = Done [8; 5]%N.
Proof. reflexivity. Qed.

Section SearchSpec.
Variable f : nat -> run bool.
Variable p : nat -> bool.
Variable n : nat.
Hypothesis f_total : forall h, h < n -> f h = Done (p h).
Hypothesis p_mono : forall a b, a <= b -> b < n -> p a = true -> p b = true.

Lemma Search_loop_spec i j :
  i <= j <= n ->
  (forall h, h < i -> p h = false) ->
  (forall h, j <= h -> h < n -> p h = true) ->
  exists k, Search_loop f i j = Done k /\ i <= k <= j /\
            (forall h, h < k -> p h = false) /\
            (forall h, k <= h -> h < n -> p h = true).
Proof.
  funelim (Search_loop f i j); intros Hij Hlo Hhi.
  - exists i. repeat split; auto; try lia.
    intros h Hh Hn. apply Hhi; lia.
  - assert (Hm : i <= (i + j) / 2 < j).
    { split; [apply Nat.div_le_lower_bound | apply Nat.Div0.div_lt_upper_bound]; lia. }
    assert (Hp : p ((i + j) / 2) = true).
    { rewrite f_total in Heq by lia. congruence. }
    destruct H as (k & Hk & Hr & Hf & Ht); [lia | assumption | |].
    { intros h Hh Hn. apply (p_mono ((i + j) / 2)); auto. }
    exists k. repeat split; auto; lia.
  - assert (Hm : i <= (i + j) / 2 < j).
    { split; [apply Nat.div_le_lower_bound | apply Nat.Div0.div_lt_upper_bound]; lia. }
    assert (Hp : p ((i + j) / 2) = false).
    { rewrite f_total in Heq by lia. congruence. }
    destruct H as (k & Hk & Hr & Hf & Ht); [lia | | assumption |].
    { intros h Hh. destruct (p h) eqn:E; [|reflexivity].
      rewrite (p_mono h ((i + j) / 2)) in Hp; [discriminate | lia | lia | assumption]. }
    exists k. repeat split; auto; lia.
  - rewrite f_total in Heq; [discriminate|].
    assert ((i + j) / 2 < j) by (apply Nat.Div0.div_lt_upper_bound; lia). lia.
Qed.

Lemma Search_spec :
  exists k, Search n f = Done k /\ k <= n /\
            (forall h, h < k -> p h = false) /\
            (forall h, k <= h -> h < n -> p h = true).
Proof.
  destruct (Search_loop_spec 0 n) as (k & Hk & Hr & Hf & Ht); try lia.
  exists k. repeat split; auto; lia.
Qed.
End SearchSpec.

(** In a descending slice, a later position holds a smaller or equal value. *)
Lemma sorted_desc_lookup (l : list N) a b x y :
  StronglySorted geN l -> l !! a = Some x -> l !! b = Some y -> a <= b ->
  (y <= x)%N.
Proof.
  intros Hs. revert a b x y.
  induction Hs as [|z l Hs IH Hall]; intros a b x y Ha Hb Hab.
  - discriminate.
  - rewrite Forall_forall in Hall.
    destruct a as [|a], b as [|b]; simpl in *.
    + injection Ha as ->. injection Hb as ->. lia.
    + injection Ha as ->. apply Hall. eapply list_elem_of_lookup_2; eauto.
    + lia.
    + eapply IH; eauto. lia.
Qed.

(** On a descending slice the search of the Reconciler returns the
    number of elements above [id]. *)
Lemma Search_descending (parsed : list N) (id : N) :
  StronglySorted geN parsed ->
  exists k,
    Search (length parsed)
      (fun i => let* x := index parsed i in Done (x <=? id)%N) = Done k /\
    k <= length parsed /\
    (forall h x, h < k -> parsed !! h = Some x -> (id < x)%N) /\
    (forall h x, k <= h -> parsed !! h = Some x -> (x <= id)%N).
Proof.
  intros Hs.
  set (p := fun h => match parsed !! h with Some x => (x <=? id)%N | None => true end).
  destruct (Search_spec (fun i => let* x := index parsed i in Done (x <=? id)%N)
              p (length parsed)) as (k & Hk & Hle & Hlo & Hhi).
  { intros h Hh. unfold index, p. destruct (lookup_lt_is_Some_2 parsed h Hh) as [x ->].
    reflexivity. }
  { intros a b Hab Hb. unfold p.
    destruct (lookup_lt_is_Some_2 parsed b Hb) as [y Hy].
    destruct (lookup_lt_is_Some_2 parsed a ltac:(lia)) as [x Hx].
    rewrite Hx, Hy. intros Hle. apply N.leb_le in Hle. apply N.leb_le.
    pose proof (sorted_desc_lookup _ _ _ _ _ Hs Hx Hy Hab). lia. }
  exists k. split; [exact Hk|]. split; [exact Hle|]. split.
  - intros h x Hh Hx. specialize (Hlo h Hh). unfold p in Hlo. rewrite Hx in Hlo.
    by apply N.leb_gt in Hlo.
  - intros h x Hh Hx. specialize (Hhi h Hh (lookup_lt_Some _ _ _ Hx)).
    unfold p in Hhi. rewrite Hx in Hhi. by apply N.leb_le.
Qed.

Lemma notParsed_found_or_not (parsed : list N) (id : N) :
  StronglySorted geN parsed ->
  Exists (fun x => (x <= id)%N) parsed ->
  notParsed parsed id = Done (bool_decide (id ∉ parsed)).
Proof.
  intros Hs Hex. unfold notParsed.
  destruct (Search_descending parsed id Hs) as (k & -> & Hk & Hlo & Hhi).
  simpl. unfold index. destruct (parsed !! k) as [x|] eqn:Ek.
  - simpl. f_equal. pose proof (Hhi k x (Nat.le_refl _) Ek) as Hx.
    destruct (x =? id)%N eqn:E; simpl; symmetry.
    + apply N.eqb_eq in E. subst x. apply bool_decide_eq_false.
      intros Hn. apply Hn. eapply list_elem_of_lookup_2; eauto.
    + apply N.eqb_neq in E. apply bool_decide_eq_true. intros Hin.
      apply list_elem_of_lookup in Hin as [m Hm].
      assert (k <= m).
      { destruct (le_lt_dec k m); [assumption|].
        pose proof (Hlo m id ltac:(lia) Hm). lia. }
      pose proof (sorted_desc_lookup _ _ _ _ _ Hs Ek Hm ltac:(assumption)). lia.
  - exfalso. apply lookup_ge_None in Ek.
    apply Exists_exists in Hex as (x & Hin & Hx).
    apply list_elem_of_lookup in Hin as [m Hm].
    pose proof (lookup_lt_Some _ _ _ Hm).
    pose proof (Hlo m x ltac:(lia) Hm). lia.
Qed.

Lemma notParsed_out_of_range (parsed : list N) (id : N) :
  StronglySorted geN parsed ->
  Forall (fun x => (id < x)%N) parsed ->
  notParsed parsed id = Abort IndexOutOfRange.
Proof.
  intros Hs Hall. unfold notParsed.
  destruct (Search_descending parsed id Hs) as (k & -> & Hk & Hlo & Hhi).
  simpl. unfold index. destruct (parsed !! k) as [x|] eqn:Ek; [|reflexivity].
  exfalso. pose proof (Hhi k x (Nat.le_refl _) Ek) as Hx.
  rewrite Forall_forall in Hall.
  specialize (Hall x (list_elem_of_lookup_2 _ _ _ Ek)). simpl in Hall. lia.
Qed.

(** ** Extractor *)

Example parseDate_ok : parseDate "07/09/2024" = Some (mkDate 2024 9 7).
Proof. reflexivity. Qed.

Example parseDate_bad_month : parseDate "31/13/2024" = None.
Proof. reflexivity. Qed.

Example parseDate_feb : parseDate "29/02/2023" = None /\ parseDate "29/02/2024" = Some (mkDate 2024 2 29).
Proof. split; reflexivity. Qed.

Example ParseUint_ex : ParseUint "18446744073709551615" = Some 18446744073709551615%N
  /\ ParseUint "18446744073709551616" = None /\ ParseUint "" = None /\ ParseUint "+1" = None.
Proof. repeat split; reflexivity. Qed.

(** ** Reconciler: what the search loop computes *)

Lemma sortDesc_sorted (s : list N) : StronglySorted geN (sortDesc s).
Proof. apply StronglySorted_merge_sort; apply _. Qed.

Lemma sortDesc_elem (s : list N) (x : N) : x ∈ sortDesc s <-> x ∈ s.
Proof. unfold sortDesc. by rewrite merge_sort_Permutation. Qed.

Lemma idsToRemove_difference (parsed persisted : list N) :
  StronglySorted geN parsed ->
  Forall (fun p => Exists (fun c => (c <= p)%N) parsed) persisted ->
  idsToRemove parsed persisted = Done (filter (fun p => p ∉ parsed) persisted).
Proof.
  intros Hs. induction 1 as [|p persisted Hp _ IH]; [reflexivity|].
  simpl. rewrite (notParsed_found_or_not _ _ Hs Hp). simpl. rewrite IH. simpl.
  rewrite filter_cons. unfold bool_decide. destruct (decide_rel _ _ _); reflexivity.
Qed.

Lemma idsToRemove_out_of_range (parsed persisted : list N) :
  StronglySorted geN parsed ->
  Exists (fun p => Forall (fun c => (p < c)%N) parsed) persisted ->
  idsToRemove parsed persisted = Abort IndexOutOfRange.
Proof.
  intros Hs. induction 1 as [p persisted Hp | p persisted _ IH].
  - simpl. by rewrite (notParsed_out_of_range _ _ Hs Hp).
  - simpl. rewrite IH.
    destruct (decide (Exists (fun c => (c <= p)%N) parsed)) as [He|Hn].
    + by rewrite (notParsed_found_or_not _ _ Hs He).
    + rewrite notParsed_out_of_range; [reflexivity | assumption |].
      apply not_Exists_Forall in Hn; [|intros x; apply _].
      eapply Forall_impl; [exact Hn|]. simpl. intros x Hx. lia.
Qed.

(** Away from the fault the Reconciler is the list difference. *)
Lemma removalCandidates_difference (current persisted : list N) :
  Forall (fun p => Exists (fun c => (c <= p)%N) current) persisted ->
  removalCandidates current persisted
  = Done (filter (fun p => p ∉ current) persisted).
Proof.
  intros H. unfold removalCandidates. rewrite idsToRemove_difference.
  - f_equal. apply list_filter_iff. intros x. by rewrite sortDesc_elem.
  - apply sortDesc_sorted.
  - eapply Forall_impl; [exact H|]. simpl. intros p Hp.
    apply Exists_exists in Hp as (c & Hc & Hle). apply Exists_exists.
    exists c. by rewrite sortDesc_elem.
Qed.

Lemma removalCandidates_done_inv (current persisted removed : list N) :
  removalCandidates current persisted = Done removed ->
  Forall (fun p => Exists (fun c => (c <= p)%N) current) persisted.
Proof.
  intros Hrun. apply Forall_forall. intros p Hp.
  destruct (decide (Exists (fun c => (c <= p)%N) current)) as [He|Hn]; [assumption|].
  exfalso. apply not_Exists_Forall in Hn; [|intros x; apply _].
  unfold removalCandidates in Hrun.
  rewrite idsToRemove_out_of_range in Hrun; [discriminate | apply sortDesc_sorted |].
  apply Exists_exists. exists p. split; [assumption|].
  apply Forall_forall. intros c Hc. apply (proj1 (sortDesc_elem _ _)) in Hc.
  rewrite Forall_forall in Hn. specialize (Hn c Hc). simpl in Hn. lia.
Qed.

(** Once the candidates of a run that went through are deleted, a second
    run over the same current identifiers finds nothing to remove. *)
Lemma removalCandidates_second_run (current persisted removed : list N) :
  removalCandidates current persisted = Done removed ->
  removalCandidates current (filter (fun p => p ∉ removed) persisted) = Done [].
Proof.
  intros Hrun. pose proof (removalCandidates_done_inv _ _ _ Hrun) as Hall.
  rewrite (removalCandidates_difference _ _ Hall) in Hrun.
  injection Hrun as <-.
  rewrite removalCandidates_difference.
  - f_equal. apply elem_of_nil_inv. intros p Hp.
    apply list_elem_of_filter in Hp as [Hnc Hp].
    apply list_elem_of_filter in Hp as [Hnr Hp].
    apply Hnr. apply list_elem_of_filter. by split.
  - apply Forall_forall. intros p Hp%list_elem_of_filter.
    rewrite Forall_forall in Hall. apply Hall. tauto.
Qed.

Lemma removalCandidates_out_of_range (current persisted : list N) :
  Exists (fun p => Forall (fun c => (p < c)%N) current) persisted ->
  removalCandidates current persisted = Abort IndexOutOfRange.
Proof.
  intros H. unfold removalCandidates.
  apply idsToRemove_out_of_range; [apply sortDesc_sorted|].
  eapply Exists_impl; [exact H|]. simpl. intros p Hp.
  apply Forall_forall. intros c Hc. apply (proj1 (sortDesc_elem _ _)) in Hc.
  rewrite Forall_forall in Hp. by apply Hp.
Qed.

(** C1 (diverges from the code).  The Reconciler returns the persisted
    identifiers minus the current ones only while every persisted
    identifier has a current identifier at or below it.  As soon as one
    persisted identifier is smaller than every current identifier, the
    binary search answers [len(parsed)] and the comparison [parsed[idx] != id]
    indexes past the end of the slice: the run ends with "index out of
    range" and the difference is not returned. *)
Theorem removalCandidates_faults_below_current (current persisted : list N) :
  Exists (fun p => Forall (fun c => (p < c)%N) current) persisted ->
  removalCandidates current persisted = Abort IndexOutOfRange /\
  removalCandidates current persisted
  <> Done (filter (fun p => p ∉ current) persisted).
Proof.
  intros H. rewrite (removalCandidates_out_of_range _ _ H). by split.
Qed.

Lemma removalCandidates_faults_below_current_witness :
  Exists (fun p => Forall (fun c => (p < c)%N) [2%N]) [2%N; 1%N]
  /\ removalCandidates [2%N] [2%N; 1%N] = Abort IndexOutOfRange.
Proof.
  assert (H : Exists (fun p => Forall (fun c => (p < c)%N) [2%N]) [2%N; 1%N]).
  { apply Exists_cons_tl, Exists_cons_hd.
    apply Forall_cons. split; [lia | apply Forall_nil_2]. }
  split; [exact H|].
  exact (proj1 (removalCandidates_faults_below_current [2%N] [2%N; 1%N] H)).
Defined.

(** C2 (diverges from the code).  With no current identifier the search
    over the empty slice answers 0 and [parsed[0]] is out of range: for a
    store that holds at least one identifier the membership test faults
    instead of returning every persisted identifier. *)
Theorem removalCandidates_no_current_faults (p : N) (persisted : list N) :
  removalCandidates [] (p :: persisted) = Abort IndexOutOfRange /\
  removalCandidates [] (p :: persisted) <> Done (p :: persisted).
Proof.
  rewrite removalCandidates_out_of_range; [by split|].
  apply Exists_cons_hd. apply Forall_nil_2.
Qed.

Lemma removalCandidates_nothing_persisted (current : list N) :
  removalCandidates current [] = Done [].
Proof. reflexivity. Qed.

(** ** Sync Engine: the delete transaction *)

Lemma deleteAll_sent env del ids t :
  sent (deleteAll env del ids t) = sent t ++ map del ids.
Proof.
  revert t. induction ids as [|id ids IH]; intros t; simpl.
  - by rewrite app_nil_r.
  - unfold deleteAll in *. simpl. rewrite IH. unfold Exec.
    destruct (stmt_ok env (length (sent t))); simpl; by rewrite <- app_assoc.
Qed.

(** The statements of a cleanup that reaches its end: the two queries, the
    attachment deletions, the circular deletions, for the identifiers the
    Reconciler returned. *)
Lemma deleteRemovedCirculars_sent circulars env db db' r trace :
  deleteRemovedCirculars circulars env db = Done (db', r, trace) ->
  trace = [] \/
  exists idsCirc idsAttach,
    removalCandidates (parsedCircIds circulars)
      (sortDesc (elements (dom (circolare db)))) = Done idsCirc /\
    removalCandidates (parsedAttachIds circulars)
      (sortDesc (elements (dom (circolare_allegato db)))) = Done idsAttach /\
    trace = [SelectCircolareIds; SelectAllegatoIds]
            ++ map DeleteAllegato idsAttach ++ map DeleteCircolare idsCirc.
Proof.
  unfold deleteRemovedCirculars, Query. simpl.
  destruct (open_ok env); simpl; [|intros [= <- <- <-]; by left].
  destruct (ping_ok env); simpl; [|intros [= <- <- <-]; by left].
  destruct (begin_ok env); simpl; [|intros [= <- <- <-]; by left].
  destruct (stmt_ok env 0); [|discriminate].
  destruct (stmt_ok env 1); [|discriminate].
  fold (removalCandidates (parsedCircIds circulars)
          (sortDesc (elements (dom (circolare db))))).
  fold (removalCandidates (parsedAttachIds circulars)
          (sortDesc (elements (dom (circolare_allegato db))))).
  destruct (removalCandidates (parsedCircIds circulars) _) as [idsCirc|]; [|discriminate].
  destruct (removalCandidates (parsedAttachIds circulars) _) as [idsAttach|]; [|discriminate].
  simpl. intros H. right. exists idsCirc, idsAttach. split; [reflexivity|].
  split; [reflexivity|].
  assert (trace = sent (deleteAll env DeleteCircolare idsCirc
                          (deleteAll env DeleteAllegato idsAttach
                             (mkTx db [SelectCircolareIds; SelectAllegatoIds])))) as ->.
  { destruct (commit_ok env); by injection H as <- <- <-. }
  rewrite !deleteAll_sent. reflexivity.
Qed.

(** C9.  In the statements of a cleanup, every deletion of an attachment
    comes before every deletion of a circular; both kinds lie between the
    begin and the commit of the one delete transaction. *)
Theorem deleteRemovedCirculars_attachments_first circulars env db db' r trace :
  deleteRemovedCirculars circulars env db = Done (db', r, trace) ->
  forall i j c a,
    trace !! i = Some (DeleteCircolare c) ->
    trace !! j = Some (DeleteAllegato a) ->
    j < i.
Proof.
  intros Hrun i j c a Hi Hj.
  destruct (deleteRemovedCirculars_sent _ _ _ _ _ _ Hrun)
    as [-> | (idsCirc & idsAttach & _ & _ & ->)]; [discriminate|].
  rewrite app_assoc in Hi, Hj.
  set (front := [SelectCircolareIds; SelectAllegatoIds] ++ map DeleteAllegato idsAttach) in *.
  apply lookup_app_Some in Hi as [Hi | [Hi _]].
  - exfalso. apply list_elem_of_lookup_2 in Hi. unfold front in Hi.
    apply elem_of_app in Hi as [Hi | Hi].
    + repeat (apply elem_of_cons in Hi as [Hi | Hi]; [discriminate|]).
      by apply elem_of_nil in Hi.
    + apply list_elem_of_In, in_map_iff in Hi as (? & ? & ?). discriminate.
  - apply lookup_app_Some in Hj as [Hj | [_ Hj]].
    + apply lookup_lt_Some in Hj. lia.
    + exfalso. apply list_elem_of_lookup_2 in Hj.
      apply list_elem_of_In, in_map_iff in Hj as (? & ? & ?). discriminate.
Qed.

(** A failed [DELETE] never surfaces: the only errors the cleanup returns
    come from opening the connection, beginning or committing. *)
Lemma deleteRemovedCirculars_errors circulars env db db' rc ra err trace :
  deleteRemovedCirculars circulars env db = Done (db', (rc, ra, Some err), trace) ->
  err = ErrOpen \/ err = ErrPing \/ err = ErrBegin \/ err = ErrCommit.
Proof.
  unfold deleteRemovedCirculars, Query. simpl.
  destruct (open_ok env); simpl; [|intros [= _ _ _ <- _]; tauto].
  destruct (ping_ok env); simpl; [|intros [= _ _ _ <- _]; tauto].
  destruct (begin_ok env); simpl; [|intros [= _ _ _ <- _]; tauto].
  destruct (stmt_ok env 0); [|discriminate].
  destruct (stmt_ok env 1); [|discriminate].
  destruct (idsToRemove _ _); [|discriminate]. simpl.
  destruct (idsToRemove _ _); [|discriminate]. simpl.
  destruct (commit_ok env); [discriminate|]. intros [= _ _ _ <- _]; tauto.
Qed.

(** The fault of the Reconciler inside the cleanup: with the connection,
    the transaction and both queries in order, an empty extraction against
    a store that holds a circular ends the call with "index out of range". *)
Lemma deleteRemovedCirculars_empty_extraction env db :
  open_ok env = true -> ping_ok env = true -> begin_ok env = true ->
  stmt_ok env 0 = true -> stmt_ok env 1 = true ->
  circolare db <> ∅ ->
  deleteRemovedCirculars [] env db = Abort IndexOutOfRange.
Proof.
  intros Ho Hp Hb H0 H1 Hne. unfold deleteRemovedCirculars, Query.
  rewrite Ho, Hp, Hb. simpl. rewrite H0, H1.
  destruct (sortDesc (elements (dom (circolare db)))) as [|p ps] eqn:E.
  - exfalso. apply Hne. apply dom_empty_inv_L, leibniz_equiv, elements_empty_inv.
    apply Permutation_nil_r. rewrite <- E. unfold sortDesc.
    by rewrite merge_sort_Permutation.
  - rewrite (idsToRemove_out_of_range _ (p :: ps)); [reflexivity | apply sortDesc_sorted |].
    apply Exists_cons_hd. apply Forall_nil_2.
Qed.

(** The same, from [main]: the configuration is in place, the page has no
    result row, the store holds circulars; the first pass ends the
    process. *)
Example main_faults_on_empty_listing :
  main deployed 0 [emptyListing] stored = Abort IndexOutOfRange.
Proof. vm_compute. reflexivity. Qed.

(** C3 (diverges from the code).  In the delete transaction the result of
    every [tx.Exec] is dropped.  Here the first deletion (attachment 8)
    fails; the loop goes on, attachment 7 and circular 5 are deleted, the
    transaction is committed and the call reports success and two removed
    attachments, while attachment 8 is still stored. *)
Theorem deleteRemovedCirculars_commits_after_failed_delete :
  stmt_ok (failing_at 2) 2 = false /\
  exists db',
    deleteRemovedCirculars listed (failing_at 2) stored
    = Done (db', (1, 2, None),
            [SelectCircolareIds; SelectAllegatoIds;
             DeleteAllegato 8; DeleteAllegato 7; DeleteCircolare 5]) /\
    circolare_allegato db' !! 8%N = Some (mkAllegato "volantino.pdf" 9) /\
    circolare_allegato db' !! 7%N = None /\
    circolare db' !! 5%N = None /\
    db' <> stored.
Proof.
  split; [reflexivity|].
  exists (mkDatabase (delete 5%N (circolare stored))
            (delete 7%N (circolare_allegato stored))).
  split; [vm_compute; reflexivity|].
  repeat split; try (vm_compute; reflexivity).
  intros H. apply (f_equal (fun d => circolare d !! 5%N)) in H.
  vm_compute in H. discriminate.
Qed.

(** ** Sync Engine: the write transaction *)

Lemma Exec_inv env t s t' r :
  Exec env t s = (t', r) ->
  sent t' = sent t ++ [s] /\
  match r with
  | None => stmt_ok env (length (sent t)) = true /\ work t' = applyStatement s (work t)
  | Some err => stmt_ok env (length (sent t)) = false /\ work t' = work t
                /\ err = ErrExec (length (sent t))
  end.
Proof.
  unfold Exec. destruct (stmt_ok env (length (sent t))); intros [= <- <-]; auto.
Qed.

Lemma went_well_refl env t : went_well env t t.
Proof. split; [lia | intros; lia]. Qed.

Lemma went_well_trans env t1 t2 t3 :
  went_well env t1 t2 -> went_well env t2 t3 -> went_well env t1 t3.
Proof.
  intros [L1 H1] [L2 H2]. split; [lia|]. intros k Hk.
  destruct (le_lt_dec (length (sent t2)) k); [apply H2 | apply H1]; lia.
Qed.

Lemma Exec_went_well env t s t' :
  Exec env t s = (t', None) -> went_well env t t'.
Proof.
  intros H. apply Exec_inv in H as (Hs & Hok & _). split.
  - rewrite Hs, length_app. simpl. lia.
  - intros k Hk. rewrite Hs, length_app in Hk. simpl in Hk.
    replace k with (length (sent t)) by lia. exact Hok.
Qed.

Lemma insertAttachments_went_well env q cid atts t t' :
  insertAttachments env q cid atts t = (t', None) -> went_well env t t'.
Proof.
  revert t. induction atts as [|a atts IH]; intros t; simpl.
  - intros [= <-]. apply went_well_refl.
  - destruct (Exec env t _) as [t1 [e|]] eqn:E; [discriminate|].
    intros H. eapply went_well_trans; [eapply Exec_went_well; eauto | eauto].
Qed.

Lemma insertLoop_went_well env n idx cs t t' :
  insertLoop env n idx cs t = (t', None) -> went_well env t t'.
Proof.
  revert idx t. induction cs as [|c cs IH]; intros idx t; simpl.
  - intros [= <-]. apply went_well_refl.
  - destruct (Exec env t _) as [t1 [e|]] eqn:E; [discriminate|].
    destruct (insertAttachments env _ _ _ t1) as [t2 [e|]] eqn:E2; [discriminate|].
    intros H.
    eapply went_well_trans; [eapply Exec_went_well; eauto|].
    eapply went_well_trans; [eapply insertAttachments_went_well; eauto | eauto].
Qed.

(** The write transaction is all or nothing: when [insertCirculars]
    returns an error the store is as before, and it returns an error as
    soon as one of the statements it sent has failed. *)
Lemma insertCirculars_error_keeps_store circulars n env db db' err trace :
  insertCirculars circulars n env db = (db', Some err, trace) -> db' = db.
Proof.
  unfold insertCirculars.
  destruct (open_ok env); simpl; [|by intros [= <- _ _]].
  destruct (ping_ok env); simpl; [|by intros [= <- _ _]].
  destruct (begin_ok env); simpl; [|by intros [= <- _ _]].
  destruct (insertLoop _ _ _ _ _) as [t [e|]]; [by intros [= <- _ _]|].
  destruct (commit_ok env); [discriminate | by intros [= <- _ _]].
Qed.

Lemma insertCirculars_failed_statement circulars n env db db' r trace k :
  insertCirculars circulars n env db = (db', r, trace) ->
  k < length trace -> stmt_ok env k = false ->
  db' = db /\ r <> None.
Proof.
  unfold insertCirculars.
  destruct (open_ok env); simpl; [|intros [= <- <- <-]; simpl; lia].
  destruct (ping_ok env); simpl; [|intros [= <- <- <-]; simpl; lia].
  destruct (begin_ok env); simpl; [|intros [= <- <- <-]; simpl; lia].
  destruct (insertLoop _ _ _ _ _) as [t [e|]] eqn:E.
  - intros [= <- <- <-] _ _. by split.
  - apply insertLoop_went_well in E as [_ Hall].
    intros H Hk Hbad. exfalso.
    assert (trace = sent t) as -> by (destruct (commit_ok env); by injection H).
    rewrite Hall in Hbad; [discriminate | simpl; lia].
Qed.

(** What the two kinds of insert do to the row under their key. *)
Lemma insertCircolare_lookup q id r (t : gmap N circolare_row) :
  insertCircolare q id r t !! id =
  match t !! id with
  | None => Some r
  | Some old =>
      match q with
      | InsertIgnore => Some old
      | InsertOrUpdate =>
          Some (mkCircolare (titolo r) (categoria r) (data r) (valida_fino r)
                  (aggiunta_il old))
      end
  end.
Proof.
  unfold insertCircolare. destruct (t !! id) as [old|] eqn:E.
  - destruct q; [assumption | apply lookup_insert_eq].
  - apply lookup_insert_eq.
Qed.

Lemma insertCircolare_other q id r (t : gmap N circolare_row) id' :
  id <> id' -> insertCircolare q id r t !! id' = t !! id'.
Proof.
  intros Hne. unfold insertCircolare.
  destruct (t !! id), q; try reflexivity; by apply lookup_insert_ne.
Qed.

Lemma insertAllegato_lookup q id r (t : gmap N allegato_row) :
  insertAllegato q id r t !! id =
  match t !! id with
  | None => Some r
  | Some old =>
      match q with
      | InsertIgnore => Some old
      | InsertOrUpdate => Some (mkAllegato (allegato_titolo r) (id_circolare old))
      end
  end.
Proof.
  unfold insertAllegato. destruct (t !! id) as [old|] eqn:E.
  - destruct q; [assumption | apply lookup_insert_eq].
  - apply lookup_insert_eq.
Qed.

Lemma insertAllegato_other q id r (t : gmap N allegato_row) id' :
  id <> id' -> insertAllegato q id r t !! id' = t !! id'.
Proof.
  intros Hne. unfold insertAllegato.
  destruct (t !! id), q; try reflexivity; by apply lookup_insert_ne.
Qed.

(** The attachment statements leave the circular table alone, and touch
    only the attachment rows they name. *)
Lemma insertAttachments_circolare env q cid atts t t' r :
  insertAttachments env q cid atts t = (t', r) ->
  circolare (work t') = circolare (work t).
Proof.
  revert t. induction atts as [|a atts IH]; intros t; simpl.
  - by intros [= <- _].
  - destruct (Exec env t _) as [t1 [e|]] eqn:E;
      apply Exec_inv in E as (_ & E).
    + intros [= <- _]. destruct E as (_ & -> & _). reflexivity.
    + intros H. rewrite (IH _ H). destruct E as (_ & ->). reflexivity.
Qed.

Lemma insertAttachments_other env q cid atts t t' r id :
  insertAttachments env q cid atts t = (t', r) ->
  id ∉ map att_Id atts ->
  circolare_allegato (work t') !! id = circolare_allegato (work t) !! id.
Proof.
  revert t. induction atts as [|a atts IH]; intros t; simpl.
  - by intros [= <- _].
  - intros H Hid. apply not_elem_of_cons in Hid as [Hne Hid].
    destruct (Exec env t _) as [t1 [e|]] eqn:E;
      apply Exec_inv in E as (_ & E).
    + injection H as <- _. destruct E as (_ & -> & _). reflexivity.
    + rewrite (IH _ H Hid). destruct E as (_ & ->). simpl.
      by apply insertAllegato_other.
Qed.

Lemma insertAttachments_at env q cid atts t t' a :
  insertAttachments env q cid atts t = (t', None) ->
  NoDup (map att_Id atts) -> a ∈ atts ->
  circolare_allegato (work t') !! att_Id a
  = insertAllegato q (att_Id a) (allegatoOf cid a)
      (circolare_allegato (work t)) !! att_Id a.
Proof.
  revert t. induction atts as [|b atts IH]; intros t; simpl.
  - intros _ _ Ha. by apply elem_of_nil in Ha.
  - intros H Hnd Ha. apply NoDup_cons in Hnd as [Hb Hnd].
    destruct (Exec env t _) as [t1 [e|]] eqn:E; [discriminate|].
    apply Exec_inv in E as (_ & _ & E).
    destruct (decide (att_Id a = att_Id b)) as [Heq|Hne].
    + rewrite Heq in *. rewrite (insertAttachments_other _ _ _ _ _ _ _ _ H Hb).
      rewrite E. simpl. rewrite !insertAllegato_lookup.
      apply elem_of_cons in Ha as [-> | Ha]; [reflexivity|].
      exfalso. apply Hb. rewrite <- Heq. apply list_elem_of_In, in_map, list_elem_of_In, Ha.
    + apply elem_of_cons in Ha as [-> | Ha]; [congruence|].
      rewrite (IH _ H Hnd Ha). rewrite E. simpl.
      rewrite !insertAllegato_lookup.
      rewrite insertAllegato_other by congruence. reflexivity.
Qed.

Lemma insertLoop_circolare_other env n idx cs t t' r id :
  insertLoop env n idx cs t = (t', r) ->
  id ∉ parsedCircIds cs ->
  circolare (work t') !! id = circolare (work t) !! id.
Proof.
  revert idx t. induction cs as [|c cs IH]; intros idx t; simpl.
  - by intros [= <- _].
  - intros H Hid. apply not_elem_of_cons in Hid as [Hne Hid].
    destruct (Exec env t _) as [t1 [e|]] eqn:E;
      apply Exec_inv in E as (_ & E).
    { injection H as <- _. destruct E as (_ & -> & _). reflexivity. }
    destruct E as (_ & E).
    assert (H1 : circolare (work t1) !! id = circolare (work t) !! id).
    { rewrite E. simpl. apply insertCircolare_other. congruence. }
    destruct (insertAttachments env _ _ _ t1) as [t2 [e|]] eqn:E2;
      pose proof (insertAttachments_circolare _ _ _ _ _ _ _ E2) as H2.
    { injection H as <- _. by rewrite H2. }
    rewrite (IH _ _ H Hid), H2. exact H1.
Qed.

Lemma insertLoop_circolare_at env n idx cs t t' i c :
  insertLoop env n idx cs t = (t', None) ->
  NoDup (parsedCircIds cs) -> cs !! i = Some c ->
  exists ts,
    circolare (work t') !! Id c
    = insertCircolare (queryKind n (idx + i)) (Id c) (circolareOf c ts)
        (circolare (work t)) !! Id c.
Proof.
  revert idx t i. induction cs as [|c0 cs IH]; intros idx t i; simpl.
  - intros _ _ Hi. discriminate.
  - intros H Hnd Hi. apply NoDup_cons in Hnd as [Hc0 Hnd].
    destruct (Exec env t _) as [t1 [e|]] eqn:E; [discriminate|].
    apply Exec_inv in E as (_ & _ & E).
    destruct (insertAttachments env _ _ _ t1) as [t2 [e|]] eqn:E2; [discriminate|].
    pose proof (insertAttachments_circolare _ _ _ _ _ _ _ E2) as H2.
    destruct i as [|i]; simpl in Hi.
    + injection Hi as ->. exists (now env (length (sent t))).
      rewrite (insertLoop_circolare_other _ _ _ _ _ _ _ _ H Hc0), H2, E.
      simpl. by rewrite Nat.add_0_r.
    + destruct (IH _ _ _ H Hnd Hi) as [ts Hts]. exists ts.
      assert (Hne : Id c0 <> Id c).
      { intros Heq. apply Hc0. rewrite Heq.
        apply list_elem_of_In, in_map, list_elem_of_In.
        eapply list_elem_of_lookup_2; eauto. }
      rewrite Hts, !insertCircolare_lookup, H2, E. simpl.
      rewrite insertCircolare_other by assumption.
      by replace (idx + S i) with (S (idx + i)) by lia.
Qed.

Lemma insertLoop_allegato_other env n idx cs t t' r id :
  insertLoop env n idx cs t = (t', r) ->
  id ∉ parsedAttachIds cs ->
  circolare_allegato (work t') !! id = circolare_allegato (work t) !! id.
Proof.
  revert idx t. induction cs as [|c cs IH]; intros idx t; simpl.
  - by intros [= <- _].
  - intros H Hid. apply not_elem_of_app in Hid as [Hc Hid].
    destruct (Exec env t _) as [t1 [e|]] eqn:E;
      apply Exec_inv in E as (_ & E).
    { injection H as <- _. destruct E as (_ & -> & _). reflexivity. }
    destruct E as (_ & E).
    assert (H1 : circolare_allegato (work t1) = circolare_allegato (work t)).
    { by rewrite E. }
    destruct (insertAttachments env _ _ _ t1) as [t2 [e|]] eqn:E2;
      pose proof (insertAttachments_other _ _ _ _ _ _ _ _ E2 Hc) as H2.
    { injection H as <- _. by rewrite H2, H1. }
    by rewrite (IH _ _ H Hid), H2, H1.
Qed.

Lemma insertLoop_allegato_at env n idx cs t t' i c a :
  insertLoop env n idx cs t = (t', None) ->
  NoDup (parsedAttachIds cs) -> cs !! i = Some c -> a ∈ Attachments c ->
  circolare_allegato (work t') !! att_Id a
  = insertAllegato (queryKind n (idx + i)) (att_Id a) (allegatoOf (Id c) a)
      (circolare_allegato (work t)) !! att_Id a.
Proof.
  revert idx t i. induction cs as [|c0 cs IH]; intros idx t i; simpl.
  - intros _ _ Hi. discriminate.
  - intros H Hnd Hi Ha. apply NoDup_app in Hnd as (Hnd0 & Hdisj & Hnd).
    destruct (Exec env t _) as [t1 [e|]] eqn:E; [discriminate|].
    apply Exec_inv in E as (_ & _ & E).
    assert (H1 : circolare_allegato (work t1) = circolare_allegato (work t)).
    { by rewrite E. }
    destruct (insertAttachments env _ _ _ t1) as [t2 [e|]] eqn:E2; [discriminate|].
    destruct i as [|i]; simpl in Hi.
    + injection Hi as ->.
      rewrite (insertLoop_allegato_other _ _ _ _ _ _ _ _ H).
      * rewrite (insertAttachments_at _ _ _ _ _ _ _ E2 Hnd0 Ha), H1.
        by rewrite Nat.add_0_r.
      * apply Hdisj. apply list_elem_of_In, in_map, list_elem_of_In, Ha.
    + rewrite (IH _ _ _ H Hnd Hi Ha), !insertAllegato_lookup.
      rewrite (insertAttachments_other _ _ _ _ _ _ _ _ E2), H1.
      * by replace (idx + S i) with (S idx + i) by lia.
      * intros Hin. apply (Hdisj _ Hin).
        apply list_elem_of_In, in_flat_map. exists c. split.
        -- apply list_elem_of_In. eapply list_elem_of_lookup_2; eauto.
        -- apply in_map, list_elem_of_In, Ha.
Qed.

(** The statements of a write that goes through, by position in the list. *)
Lemma insertAttachments_sent env q cid atts t t' :
  insertAttachments env q cid atts t = (t', None) ->
  sent t' = sent t
            ++ map (fun att => InsertAllegato q (att_Id att) (allegatoOf cid att)) atts.
Proof.
  revert t. induction atts as [|a atts IH]; intros t; simpl.
  - intros [= <-]. by rewrite app_nil_r.
  - destruct (Exec env t _) as [t1 [e|]] eqn:E; [discriminate|].
    apply Exec_inv in E as (E & _). intros H.
    rewrite (IH _ H), E, <- app_assoc. reflexivity.
Qed.

Lemma insertLoop_sent_grows env n idx cs t t' :
  insertLoop env n idx cs t = (t', None) -> exists more, sent t' = sent t ++ more.
Proof.
  revert idx t. induction cs as [|c cs IH]; intros idx t; simpl.
  - intros [= <-]. exists []. by rewrite app_nil_r.
  - destruct (Exec env t _) as [t1 [e|]] eqn:E; [discriminate|].
    apply Exec_inv in E as (E & _).
    destruct (insertAttachments env _ _ _ t1) as [t2 [e|]] eqn:E2; [discriminate|].
    apply insertAttachments_sent in E2. intros H.
    destruct (IH _ _ H) as [more ->]. rewrite E2, E.
    eexists. rewrite <- !app_assoc. reflexivity.
Qed.

Lemma insertLoop_sent_at env n idx cs t t' i c :
  insertLoop env n idx cs t = (t', None) -> cs !! i = Some c ->
  exists before after,
    sent t' = sent t ++ before
              ++ statementsFor (queryKind n (idx + i)) c
                   (now env (length (sent t) + length before))
              ++ after /\
    length before = i + length (parsedAttachIds (take i cs)).
Proof.
  revert idx t i. induction cs as [|c0 cs IH]; intros idx t i; simpl.
  - intros _ Hi. discriminate.
  - intros H Hi.
    destruct (Exec env t _) as [t1 [e|]] eqn:E; [discriminate|].
    apply Exec_inv in E as (E & _).
    destruct (insertAttachments env _ _ _ t1) as [t2 [e|]] eqn:E2; [discriminate|].
    apply insertAttachments_sent in E2.
    destruct i as [|i]; simpl in Hi.
    + injection Hi as ->. destruct (insertLoop_sent_grows _ _ _ _ _ _ H) as [more Hm].
      exists [], more. split; [|reflexivity].
      rewrite Hm, E2, E. simpl. rewrite !Nat.add_0_r, <- !app_assoc. reflexivity.
    + destruct (IH _ _ _ H Hi) as (before & after & Hs & Hl).
      exists (statementsFor (queryKind n idx) c0 (now env (length (sent t))) ++ before), after.
      split.
      * rewrite Hs, E2, E. unfold statementsFor at 2. simpl.
        rewrite !length_app, length_map. simpl.
        rewrite <- ?app_assoc. simpl. rewrite <- ?app_assoc.
        replace (idx + S i) with (S (idx + i)) by lia.
        replace (length (sent t) + S (length (Attachments c0) + length before))
          with (length (sent t) + 1 + length (Attachments c0) + length before) by lia.
        reflexivity.
      * unfold statementsFor. simpl. rewrite !length_app, !length_map, Hl.
        unfold parsedAttachIds. lia.
Qed.

Lemma queryKind_window (i : nat) :
  queryKind 25 i = if (i <? 25)%nat then InsertOrUpdate else InsertIgnore.
Proof.
  unfold queryKind. destruct (Nat.ltb_spec i 25), (Z.ltb_spec (Z.of_nat i) 25);
    (reflexivity || lia).
Qed.

(** C5.  In a write that goes through, as [main] calls it (window 25):
    the statements sent for the circular at position [i] and for its
    attachments are the [ON DUPLICATE KEY UPDATE] texts when [i < 25] and
    the [INSERT IGNORE] texts otherwise.  With identifiers unique within the
    extraction, this leaves the store as follows: a circular or attachment
    whose key is not stored is inserted; one whose key is stored has its
    title, category and dates (for an attachment its title) replaced when
    [i < 25], insertion timestamp and owner kept, and is left exactly as it
    was when [i >= 25]. *)
Theorem insertCirculars_recent_window circulars env db db' trace :
  insertCirculars circulars 25 env db = (db', None, trace) ->
  forall i c, circulars !! i = Some c ->
    (exists before after,
       trace = before
               ++ statementsFor (if (i <? 25)%nat then InsertOrUpdate else InsertIgnore)
                    c (now env (length before))
               ++ after /\
       length before = i + length (parsedAttachIds (take i circulars))) /\
    (NoDup (parsedCircIds circulars) ->
       match circolare db !! Id c with
       | None => exists ts, circolare db' !! Id c = Some (circolareOf c ts)
       | Some old =>
           circolare db' !! Id c
           = Some (if (i <? 25)%nat
                   then mkCircolare (Title c) (Category c)
                          (formatDate (PublishedDate c))
                          (formatDate (ValidUntilDate c)) (aggiunta_il old)
                   else old)
       end) /\
    (NoDup (parsedAttachIds circulars) ->
       forall a, a ∈ Attachments c ->
         match circolare_allegato db !! att_Id a with
         | None => circolare_allegato db' !! att_Id a = Some (allegatoOf (Id c) a)
         | Some old =>
             circolare_allegato db' !! att_Id a
             = Some (if (i <? 25)%nat
                     then mkAllegato (att_Title a) (id_circolare old)
                     else old)
         end).
Proof.
  unfold insertCirculars.
  destruct (open_ok env); simpl; [|discriminate].
  destruct (ping_ok env); simpl; [|discriminate].
  destruct (begin_ok env); simpl; [|discriminate].
  destruct (insertLoop env 25 0 circulars (mkTx db [])) as [t [e|]] eqn:E;
    [discriminate|].
  destruct (commit_ok env); [|discriminate].
  intros [= <- <-] i c Hi. pose proof (queryKind_window i) as Hq. repeat split.
  - destruct (insertLoop_sent_at _ _ _ _ _ _ _ _ E Hi) as (before & after & Hs & Hl).
    exists before, after. simpl in Hs. rewrite Hq in Hs. by split.
  - intros Hnd. destruct (insertLoop_circolare_at _ _ _ _ _ _ _ _ E Hnd Hi) as [ts Hts].
    simpl in Hts. rewrite insertCircolare_lookup, Hq in Hts.
    destruct (circolare db !! Id c) as [old|]; [|by exists ts].
    rewrite Hts. by destruct (i <? 25)%nat.
  - intros Hnd a Ha.
    pose proof (insertLoop_allegato_at _ _ _ _ _ _ _ _ _ E Hnd Hi Ha) as Hat.
    simpl in Hat. rewrite insertAllegato_lookup, Hq in Hat.
    destruct (circolare_allegato db !! att_Id a) as [old|]; [|exact Hat].
    rewrite Hat. by destruct (i <? 25)%nat.
Qed.

(** ** Fetcher *)

Lemma string_app_assoc (a b c : string) : ((a ++ b) ++ c = a ++ (b ++ c))%string.
Proof.
  induction a as [|x a IH]; [reflexivity|].
  change (String x ((a ++ b) ++ c) = String x (a ++ (b ++ c)))%string.
  by rewrite IH.
Qed.

Lemma string_app_empty (a : string) : (a ++ "")%string = a.
Proof.
  induction a as [|x a IH]; [reflexivity|].
  change (String x (a ++ "") = String x a)%string. by rewrite IH.
Qed.

Lemma concat_cons (x : string) (xs : list string) :
  String.concat "" (x :: xs) = (x ++ String.concat "" xs)%string.
Proof. destruct xs; [by rewrite string_app_empty | reflexivity]. Qed.

Lemma wrap64_small (z : Z) : (- 2 ^ 63 <= z < 2 ^ 63)%Z -> wrap64 z = z.
Proof. intros H. unfold wrap64. rewrite Z.mod_small; lia. Qed.

Lemma offsetsFrom_S count n :
  offsetsFrom count (S n) = count :: offsetsFrom (count + 100) n.
Proof.
  unfold offsetsFrom. simpl. rewrite <- seq_shift, map_map. f_equal; [f_equal; lia|].
  apply map_ext. intros k. lia.
Qed.

Lemma getCirculars_loop_pages (pages : list moreCircularsMsg)
  (last : moreCircularsMsg) (rest : list response) count html asked :
  Forall (fun m => (0 < Cnt m)%Z) pages -> (Cnt last <= 0)%Z ->
  (0 <= count)%Z -> (count + 100 * Z.of_nat (length pages) < 2 ^ 63)%Z ->
  getCirculars_loop (map Reply pages ++ Reply last :: rest) count html asked
  = (Corpus ("<html><body><table>"
             ++ (html ++ String.concat "" (map Htm (pages ++ [last])))
             ++ "</table></body></html>")%string,
     asked ++ offsetsFrom count (S (length pages))).
Proof.
  intros Hpos Hlast. revert count html asked.
  induction Hpos as [|m pages Hm _ IH]; intros count html asked Hc Hb; simpl.
  - destruct (Z.leb_spec (Cnt last) 0); [|lia].
    unfold offsetsFrom. simpl. by rewrite Z.add_0_r.
  - destruct (Z.leb_spec (Cnt m) 0); [lia|].
    simpl length in Hb. rewrite wrap64_small by lia.
    rewrite IH by lia. rewrite <- app_assoc. f_equal.
    + f_equal. f_equal.
      change (match map Htm (pages ++ [last]) with
              | [] => Htm m
              | _ :: _ => (Htm m ++ "" ++ String.concat "" (map Htm (pages ++ [last])))%string
              end)
        with (String.concat "" (Htm m :: map Htm (pages ++ [last]))).
      f_equal. by rewrite concat_cons, string_app_assoc.
    + f_equal. by rewrite (offsetsFrom_S count).
Qed.

(** C6.  Against any upstream whose replies report a positive remaining
    count until one reports a count of zero or less, the Fetcher sends one
    request per reply, with offsets 0, 100, 200, ... in this order, sends
    nothing after the reply whose count is not positive (whatever would
    have followed is never asked for), and returns the fragments of all
    these replies, concatenated in request order, inside
    [<html><body><table>] ... [</table></body></html>].  The offset is a Go
    [int]; the bound keeps it from wrapping. *)
Theorem getCirculars_paginates (pages : list moreCircularsMsg)
  (last : moreCircularsMsg) (rest : list response) :
  Forall (fun m => (0 < Cnt m)%Z) pages -> (Cnt last <= 0)%Z ->
  (100 * Z.of_nat (length pages) < 2 ^ 63)%Z ->
  getCirculars (map Reply pages ++ Reply last :: rest)
  = (Corpus ("<html><body><table>"
             ++ String.concat "" (map Htm (pages ++ [last]))
             ++ "</table></body></html>")%string,
     map (fun k => (100 * Z.of_nat k)%Z) (seq 0 (S (length pages)))).
Proof.
  intros Hpos Hlast Hb. unfold getCirculars.
  rewrite getCirculars_loop_pages by (assumption || lia).
  reflexivity.
Qed.

Lemma getCirculars_loop_stalls (pages : list moreCircularsMsg) count html asked :
  Forall (fun m => (0 < Cnt m)%Z) pages ->
  (0 <= count)%Z -> (count + 100 * Z.of_nat (length pages) < 2 ^ 63)%Z ->
  getCirculars_loop (map Reply pages) count html asked
  = (Stalled, asked ++ offsetsFrom count (S (length pages))).
Proof.
  intros Hpos. revert count html asked.
  induction Hpos as [|m pages Hm _ IH]; intros count html asked Hc Hb; simpl.
  - unfold offsetsFrom. simpl. by rewrite Z.add_0_r.
  - destruct (Z.leb_spec (Cnt m) 0); [lia|].
    simpl length in Hb. rewrite wrap64_small by lia.
    rewrite IH by lia. by rewrite <- app_assoc, (offsetsFrom_S count).
Qed.

(** While the remaining count stays positive the Fetcher keeps asking: when
    the replies end there, one more request is out. *)
Lemma getCirculars_keeps_asking (pages : list moreCircularsMsg) :
  Forall (fun m => (0 < Cnt m)%Z) pages ->
  (100 * Z.of_nat (length pages) < 2 ^ 63)%Z ->
  getCirculars (map Reply pages)
  = (Stalled, map (fun k => (100 * Z.of_nat k)%Z) (seq 0 (S (length pages)))).
Proof.
  intros Hpos Hb. unfold getCirculars.
  rewrite getCirculars_loop_stalls by (assumption || lia).
  reflexivity.
Qed.

(** ** Extractor: the label scan *)

(** Whenever the scan returns, it returns the first labelled span's child. *)
Lemma findNodeWithContext_done context spans r :
  findNodeWithContext context spans = Done r -> r = labelResult context spans.
Proof.
  unfold labelResult. induction spans as [|n spans IH]; simpl.
  - by intros [= <-].
  - unfold isLabelled at 1. destruct (PrevSibling n) as [prev|]; simpl; [|discriminate].
    destruct (Contains (Data prev) context); [by intros [= <-] | exact IH].
Qed.

(** It returns as long as every span has a previous sibling. *)
Lemma findNodeWithContext_linked context spans :
  Forall (fun n => is_Some (PrevSibling n)) spans ->
  findNodeWithContext context spans = Done (labelResult context spans).
Proof.
  unfold labelResult. induction 1 as [|n spans [prev Hn] _ IH]; simpl; [reflexivity|].
  unfold isLabelled at 1. rewrite Hn. simpl.
  destruct (Contains (Data prev) context); [reflexivity | exact IH].
Qed.

(** It faults on a span without previous sibling that no label precedes. *)
Lemma findNodeWithContext_nil_sibling context n spans :
  PrevSibling n = None ->
  findNodeWithContext context (n :: spans) = Abort NilDereference.
Proof. intros H. simpl. by rewrite H. Qed.

Lemma labelled_of_scan context row node :
  findNodeWithContext context (spanTagsOf row) = Done (Some node, true) ->
  labelled context row = Some (Data node).
Proof.
  intros H. apply findNodeWithContext_done in H. unfold labelResult in H.
  unfold labelled, labelSpan.
  destruct (List.find _ _) as [n|]; [|discriminate].
  injection H as <-. reflexivity.
Qed.

Lemma scan_of_linked context row :
  wellLinked row ->
  findNodeWithContext context (spanTagsOf row)
  = Done (match labelSpan context row with
          | Some n => (FirstChild (target n), true)
          | None => (None, false)
          end).
Proof.
  intros H. apply findNodeWithContext_linked.
  eapply Forall_impl; [exact H|]. simpl. tauto.
Qed.

Lemma labelSpan_child context row n :
  wellLinked row -> labelSpan context row = Some n ->
  exists child, FirstChild (target n) = Some child.
Proof.
  intros H Hn. apply find_some in Hn as [Hin _].
  unfold wellLinked in H. rewrite Forall_forall in H.
  apply list_elem_of_In in Hin. by destruct (H _ Hin) as [_ [child ->]]; eauto.
Qed.


Lemma titleOf_empty row : emptyTitle row <-> String.eqb (titleOf row) "" = true.
Proof. unfold emptyTitle. by rewrite String.eqb_eq. Qed.

(** On a well-linked row the body of the loop always returns; a row with a
    marker but an unparseable identifier, an empty title, a missing label
    or a malformed date is left out and one diagnostic is logged. *)
Lemma parseRow_linked row :
  wellLinked row ->
  exists o logs, parseRow row = Done (o, logs) /\
    (snd (idMarker row) = true ->
     unparseableId row \/ emptyTitle row \/ missingLabel row \/ malformedDate row ->
     o = None /\ exists e, logs = [e]).
Proof.
  intros Hl. unfold parseRow. fold (idMarker row) (spanTagsOf row) (titleOf row).
  rewrite !(scan_of_linked _ _ Hl).
  unfold unparseableId, missingLabel, malformedDate, labelled.
  destruct (idMarker row) as [idStr [|]]; simpl; [|eexists _, _; split; [reflexivity | discriminate]].
  destruct (ParseUint idStr) as [id|]; [|eexists _, _; split; [reflexivity | eauto]].
  destruct (String.eqb (titleOf row) "") eqn:Et;
    [eexists _, _; split; [reflexivity | eauto]|].
  destruct (labelSpan "Categoria" row) as [nc|] eqn:Ec; simpl;
    [|eexists _, _; split; [reflexivity | eauto]].
  destruct (labelSpan "Pubblicato il" row) as [np|] eqn:Ep; simpl;
    [|eexists _, _; split; [reflexivity | eauto]].
  destruct (labelSpan_child _ _ _ Hl Ep) as [pub ->]. simpl.
  destruct (parseDate (Data pub)) as [pd|] eqn:Epd;
    [|eexists _, _; split; [reflexivity | eauto]].
  destruct (labelSpan "Valido fino" row) as [nv|] eqn:Ev; simpl;
    [|eexists _, _; split; [reflexivity | eauto]].
  destruct (labelSpan_child _ _ _ Hl Ev) as [val ->]. simpl.
  destruct (parseDate (Data val)) as [vd|] eqn:Evd;
    [|eexists _, _; split; [reflexivity | eauto]].
  destruct (parseAttachments _ _) as [atts logs].
  destruct (labelSpan_child _ _ _ Hl Ec) as [cat ->]. simpl.
  eexists _, _. split; [reflexivity|].
  intros _ [[_ H] | [H | [[H | [H | H]] | [(s & Hs & H) | (s & Hs & H)]]]];
    try discriminate; try (apply titleOf_empty in H); simpl in *; congruence.
Qed.

Lemma circularOf_done row o logs :
  parseRow row = Done (o, logs) -> circularOf row = o /\ diagnosticsOf row = logs.
Proof. unfold circularOf, diagnosticsOf. intros ->. by destruct o. Qed.

Lemma parseRows_linked rows :
  Forall wellLinked rows ->
  parseRows rows = Done (omap circularOf rows, concat (map diagnosticsOf rows)).
Proof.
  induction 1 as [|row rows Hrow _ IH]; [reflexivity|].
  destruct (parseRow_linked row Hrow) as (o & logs & Hrun & _).
  destruct (circularOf_done _ _ _ Hrun) as [Hc Hd].
  simpl. rewrite Hrun, IH, Hc, Hd. simpl. by destruct o.
Qed.









(** The date layout, digit by digit. *)
Lemma isDigit_digitChar c :
  isDigit c = true ->
  exists k, (0 <= k < 10)%Z /\ c = digitChar k /\ digitVal c = Z.to_N k.
Proof.
  intros H. exists (Z.of_N (digitVal c)).
  destruct c as [[] [] [] [] [] [] [] []]; try discriminate H;
    vm_compute; repeat split; congruence.
Qed.

Lemma digitChar_isDigit k :
  (0 <= k < 10)%Z ->
  isDigit (digitChar k) = true /\ digitVal (digitChar k) = Z.to_N k.
Proof.
  intros H.
  assert (k = 0 \/ k = 1 \/ k = 2 \/ k = 3 \/ k = 4 \/ k = 5 \/ k = 6
          \/ k = 7 \/ k = 8 \/ k = 9)%Z as Hk by lia.
  repeat (destruct Hk as [-> | Hk]; [split; reflexivity|]).
  subst k. split; reflexivity.
Qed.

Lemma getnum2_shape s v rest :
  getnum2 s = Some (v, rest) ->
  s = (pad2 v ++ rest)%string /\ (0 <= v < 100)%Z.
Proof.
  destruct s as [|a [|b r]]; try discriminate. simpl.
  destruct (isDigit a) eqn:Ea; [|discriminate].
  destruct (isDigit b) eqn:Eb; [|discriminate]. simpl.
  intros [= <- <-].
  destruct (isDigit_digitChar a Ea) as (ka & Ha & -> & ->).
  destruct (isDigit_digitChar b Eb) as (kb & Hb & -> & ->).
  replace (Z.of_N (10 * Z.to_N ka + Z.to_N kb)) with (ka * 10 + kb)%Z by lia.
  split; [|lia]. unfold pad2.
  rewrite Z.div_add_l, Z.div_small, Z.add_0_r by lia.
  rewrite Z.add_comm, Z.mod_add, Z.mod_small by lia. reflexivity.
Qed.

Lemma getnum2_pad2 v rest :
  (0 <= v < 100)%Z -> getnum2 (pad2 v ++ rest) = Some (v, rest).
Proof.
  intros Hv. unfold pad2.
  change (getnum2 (String (digitChar (v / 10)) (String (digitChar (v mod 10)) rest))
          = Some (v, rest)).
  assert (H1 : (0 <= v / 10 < 10)%Z).
  { split; [apply Z.div_pos; lia | apply Z.div_lt_upper_bound; lia]. }
  assert (H2 : (0 <= v mod 10 < 10)%Z) by (apply Z.mod_pos_bound; lia).
  destruct (digitChar_isDigit _ H1) as [D1 V1].
  destruct (digitChar_isDigit _ H2) as [D2 V2].
  unfold getnum2. rewrite D1, D2, V1, V2. cbn [andb]. f_equal. f_equal.
  pose proof (Z.div_mod v 10 ltac:(lia)). lia.
Qed.

Lemma getyear_shape s y rest :
  getyear s = Some (y, rest) ->
  s = (pad2 (y / 100) ++ pad2 (y mod 100) ++ rest)%string /\ (0 <= y <= 9999)%Z.
Proof.
  destruct s as [|a [|b [|c [|d r]]]]; try discriminate. simpl.
  destruct (isDigit a) eqn:Ea; [|discriminate].
  destruct (isDigit b) eqn:Eb; [|discriminate].
  destruct (isDigit c) eqn:Ec; [|discriminate].
  destruct (isDigit d) eqn:Ed; [|discriminate]. simpl.
  intros [= <- <-].
  destruct (getnum2_shape (String a (String b ""))
              (Z.of_N (10 * digitVal a + digitVal b)) "") as [E1 B1].
  { simpl. rewrite Ea, Eb. reflexivity. }
  destruct (getnum2_shape (String c (String d ""))
              (Z.of_N (10 * digitVal c + digitVal d)) "") as [E2 B2].
  { simpl. rewrite Ec, Ed. reflexivity. }
  set (hi := Z.of_N (10 * digitVal a + digitVal b)) in *.
  set (lo := Z.of_N (10 * digitVal c + digitVal d)) in *.
  replace (Z.of_N (1000 * digitVal a + 100 * digitVal b + 10 * digitVal c
                   + digitVal d)) with (hi * 100 + lo)%Z by (unfold hi, lo; lia).
  split; [|lia].
  rewrite Z.div_add_l, Z.div_small, Z.add_0_r by lia.
  rewrite Z.add_comm, Z.mod_add, Z.mod_small by lia.
  clearbody hi lo. unfold pad2 in *.
  injection E1 as -> ->. injection E2 as -> ->. reflexivity.
Qed.

Lemma getyear_pad4 y rest :
  (0 <= y <= 9999)%Z ->
  getyear (pad2 (y / 100) ++ pad2 (y mod 100) ++ rest) = Some (y, rest).
Proof.
  intros Hy.
  assert (H1 : (0 <= y / 100 < 100)%Z).
  { split; [apply Z.div_pos; lia | apply Z.div_lt_upper_bound; lia]. }
  assert (H2 : (0 <= y mod 100 < 100)%Z) by (apply Z.mod_pos_bound; lia).
  pose proof (Z.div_mod y 100 ltac:(lia)) as Ey.
  set (hi := (y / 100)%Z) in *. set (lo := (y mod 100)%Z) in *. clearbody hi lo.
  assert (Ha : (0 <= hi / 10 < 10)%Z).
  { split; [apply Z.div_pos; lia | apply Z.div_lt_upper_bound; lia]. }
  assert (Hb : (0 <= hi mod 10 < 10)%Z) by (apply Z.mod_pos_bound; lia).
  assert (Hc : (0 <= lo / 10 < 10)%Z).
  { split; [apply Z.div_pos; lia | apply Z.div_lt_upper_bound; lia]. }
  assert (Hd : (0 <= lo mod 10 < 10)%Z) by (apply Z.mod_pos_bound; lia).
  pose proof (Z.div_mod hi 10 ltac:(lia)) as Ehi.
  pose proof (Z.div_mod lo 10 ltac:(lia)) as Elo.
  unfold pad2.
  change (getyear (String (digitChar (hi / 10))
                     (String (digitChar (hi mod 10))
                        (String (digitChar (lo / 10))
                           (String (digitChar (lo mod 10)) rest))))
          = Some (y, rest)).
  set (a := (hi / 10)%Z) in *. set (b := (hi mod 10)%Z) in *.
  set (c := (lo / 10)%Z) in *. set (d := (lo mod 10)%Z) in *.
  clearbody a b c d.
  destruct (digitChar_isDigit _ Ha) as [Da Va].
  destruct (digitChar_isDigit _ Hb) as [Db Vb].
  destruct (digitChar_isDigit _ Hc) as [Dc Vc].
  destruct (digitChar_isDigit _ Hd) as [Dd Vd].
  unfold getyear. rewrite Da, Db, Dc, Dd, Va, Vb, Vc, Vd. cbn [andb].
  f_equal. f_equal. lia.
Qed.

(** [time.Parse] with the layout [02/01/2006] accepts exactly the valid
    dates written as two digits of day, two of month and four of year. *)
Lemma parseDate_layout s d :
  parseDate s = Some d <-> s = formatDMY d /\ validDate d.
Proof.
  unfold parseDate, formatDMY, validDate. split.
  - destruct (getnum2 s) as [[dd v1]|] eqn:E1; [|discriminate].
    apply getnum2_shape in E1 as [-> B1].
    destruct v1 as [|c1 v2]; [discriminate|]. simpl skipSlash.
    destruct (Ascii.eqb_spec c1 "/"); [subst c1|discriminate].
    destruct (getnum2 v2) as [[mm v3]|] eqn:E2; [|discriminate].
    apply getnum2_shape in E2 as [-> B2].
    destruct ((mm <=? 0) || (12 <? mm))%Z eqn:Em; [discriminate|].
    destruct v3 as [|c2 v4]; [discriminate|]. simpl skipSlash.
    destruct (Ascii.eqb_spec c2 "/"); [subst c2|discriminate].
    destruct (getyear v4) as [[yy v5]|] eqn:E3; [|discriminate].
    apply getyear_shape in E3 as [-> B3].
    destruct v5; [|discriminate].
    destruct ((dd <? 1) || (daysIn mm yy <? dd))%Z eqn:Ed; [discriminate|].
    intros [= <-]. simpl.
    apply orb_false_iff in Em as [Em1 Em2]. apply orb_false_iff in Ed as [Ed1 Ed2].
    split; [|lia].
    rewrite string_app_empty. reflexivity.
  - intros (-> & Hy & Hm & Hd). destruct d as [yy mm dd].
    cbn [year month day] in *.
    assert (Hdd : (0 <= dd < 100)%Z).
    { assert (daysIn mm yy <= 31)%Z; [|lia]. unfold daysIn.
      destruct (mm =? 2)%Z; [by destruct (isLeap yy)|].
      by destruct (_ || _). }
    rewrite getnum2_pad2 by exact Hdd.
    change (skipSlash ("/" ++ ?x)) with (Some x). cbv beta iota.
    rewrite getnum2_pad2 by lia.
    destruct ((mm <=? 0) || (12 <? mm))%Z eqn:Em.
    { apply orb_true_iff in Em as [Em|Em]; lia. }
    change (skipSlash ("/" ++ ?x)) with (Some x). cbv beta iota.
    rewrite <- (string_app_empty (pad2 (yy mod 100))).
    rewrite getyear_pad4 by lia.
    destruct ((dd <? 1) || (daysIn mm yy <? dd))%Z eqn:Ed; [|reflexivity].
    apply orb_true_iff in Ed as [Ed|Ed]; lia.
Qed.



(** C10.  There are documents on which extraction does not skip a row but
    ends with a nil dereference, although rows around the offending one
    are sound: one where a span of the information cell has no previous
    sibling, and one where every span has a previous sibling but the span
    after the "Pubblicato il" label has no child. *)
Theorem extraction_faults_on_unlinked_rows :
  (exists doc row n,
     resultRows doc !! 1 = Some row /\
     n ∈ spanTagsOf row /\ PrevSibling n = None /\
     parseRow row = Abort NilDereference /\
     parseDocument doc = Abort NilDereference /\
     exists sound c, resultRows doc !! 0 = Some sound /\ circularOf sound = Some c) /\
  (exists doc row n,
     resultRows doc !! 1 = Some row /\
     Forall (fun n => is_Some (PrevSibling n)) (spanTagsOf row) /\
     labelSpan "Pubblicato il" row = Some n /\ FirstChild (target n) = None /\
     parseRow row = Abort NilDereference /\
     parseDocument doc = Abort NilDereference /\
     exists sound c, resultRows doc !! 0 = Some sound /\ circularOf sound = Some c).
Proof.
  split.
  - exists docSpanFirst. eexists. eexists.
    split; [reflexivity|].
    split; [apply list_elem_of_here|].
    repeat (split; [reflexivity|]).
    eexists. eexists. split; reflexivity.
  - exists docEmptyValue. eexists. eexists.
    split; [reflexivity|].
    split; [repeat constructor; eexists; reflexivity|].
    repeat (split; [reflexivity|]).
    eexists. eexists. split; reflexivity.
Qed.

(** ** The worker *)

(** How each part of a pass can end the process. *)
Lemma index_abort {A} (s : list A) i e : index s i = Abort e -> e = IndexOutOfRange.
Proof. unfold index. destruct (s !! i); [discriminate | by intros [= <-]]. Qed.

Lemma deref_abort {A} (p : option A) e : deref p = Abort e -> e = NilDereference.
Proof. destruct p; [discriminate | by intros [= <-]]. Qed.

Lemma Search_loop_abort f i j e :
  Search_loop f i j = Abort e -> exists h, f h = Abort e.
Proof.
  funelim (Search_loop f i j); intros Ha; try discriminate; eauto.
  injection Ha as <-. eauto.
Qed.

Lemma notParsed_abort parsed id e :
  notParsed parsed id = Abort e -> e = IndexOutOfRange.
Proof.
  unfold notParsed. destruct (Search _ _) as [idx|e'] eqn:Es; simpl.
  - destruct (index parsed idx) eqn:Ei; [discriminate|].
    intros [= <-]. by apply index_abort in Ei.
  - intros [= <-]. apply Search_loop_abort in Es as [h Hh].
    destruct (index parsed h) eqn:Ei; [discriminate|].
    simpl in Hh. injection Hh as <-. by apply index_abort in Ei.
Qed.

Lemma idsToRemove_abort parsed ids e :
  idsToRemove parsed ids = Abort e -> e = IndexOutOfRange.
Proof.
  induction ids as [|id ids IH]; simpl; [discriminate|].
  destruct (notParsed parsed id) eqn:En; simpl.
  - destruct (idsToRemove parsed ids); [discriminate|]. simpl.
    intros [= <-]. by apply IH.
  - intros [= <-]. by apply notParsed_abort in En.
Qed.

Lemma findNodeWithContext_abort context spans e :
  findNodeWithContext context spans = Abort e -> e = NilDereference.
Proof.
  induction spans as [|n spans IH]; simpl; [discriminate|].
  destruct (PrevSibling n) as [prev|]; simpl; [|by intros [= <-]].
  destruct (Contains _ _); [discriminate | exact IH].
Qed.

Lemma parseRow_abort row e : parseRow row = Abort e -> e = NilDereference.
Proof.
  unfold parseRow.
  destruct (SelAttr _ _) as [idStr [|]]; [|discriminate].
  destruct (ParseUint idStr) as [id|]; [|discriminate].
  destruct (String.eqb _ _); [discriminate|].
  destruct (findNodeWithContext "Categoria" _) as [[cat [|]]|] eqn:Ec; simpl;
    try discriminate; [|intros [= <-]; by apply findNodeWithContext_abort in Ec].
  destruct (findNodeWithContext "Pubblicato il" _) as [[pub [|]]|] eqn:Ep; simpl;
    try discriminate; [|intros [= <-]; by apply findNodeWithContext_abort in Ep].
  destruct pub as [pub|]; simpl; [|by intros [= <-]].
  destruct (parseDate (Data pub)); [|discriminate].
  destruct (findNodeWithContext "Valido fino" _) as [[val [|]]|] eqn:Ev; simpl;
    try discriminate; [|intros [= <-]; by apply findNodeWithContext_abort in Ev].
  destruct val as [val|]; simpl; [|by intros [= <-]].
  destruct (parseDate (Data val)); [|discriminate].
  destruct (parseAttachments _ _).
  destruct cat; simpl; [discriminate | by intros [= <-]].
Qed.

Lemma parseRows_abort rows e : parseRows rows = Abort e -> e = NilDereference.
Proof.
  induction rows as [|row rows IH]; simpl; [discriminate|].
  destruct (parseRow row) as [[c logs]|] eqn:Er; simpl.
  - destruct (parseRows rows) as [[cs logs']|]; [discriminate|]. simpl.
    intros [= <-]. by apply IH.
  - intros [= <-]. by apply parseRow_abort in Er.
Qed.

Lemma deleteRemovedCirculars_abort circulars env db e :
  deleteRemovedCirculars circulars env db = Abort e ->
  e = IndexOutOfRange \/
  (e = FatalExit /\ (stmt_ok env 0 = false \/ stmt_ok env 1 = false)).
Proof.
  unfold deleteRemovedCirculars, Query. simpl.
  destruct (open_ok env); simpl; [|discriminate].
  destruct (ping_ok env); simpl; [|discriminate].
  destruct (begin_ok env); simpl; [|discriminate].
  destruct (stmt_ok env 0); [|intros [= <-]; auto].
  destruct (stmt_ok env 1); [|intros [= <-]; auto].
  destruct (idsToRemove _ _) eqn:E1; simpl;
    [|intros [= <-]; left; by apply idsToRemove_abort in E1].
  destruct (idsToRemove _ _) eqn:E2 in |- *; simpl;
    [|intros [= <-]; left; by apply idsToRemove_abort in E2].
  destruct (commit_ok env); discriminate.
Qed.

(** A pass ends the process in three ways only: a nil dereference while
    extracting, an index out of range while reconciling, or [log.Fatal]
    after a failed query of the cleanup. *)
Lemma cycle_abort e s db cfg f :
  cycle e s db cfg = Abort f ->
  f = NilDereference \/ f = IndexOutOfRange \/
  (f = FatalExit /\ ~ cleanupQueriesOk e).
Proof.
  unfold cycle, cleanupQueriesOk.
  destruct (fst (getCirculars (upstream e))) as [html| |]; try discriminate.
  destruct (NewDocumentFromReader e html) as [doc|]; [|discriminate].
  destruct (parseDocument doc) as [[circulars rowLog]|f'] eqn:Ep; simpl;
    [|intros [= <-]; left; by apply parseRows_abort in Ep].
  destruct (insertCirculars _ _ _ _) as [[db1 [err|]] tr]; [discriminate|].
  destruct (_ <? _)%Z; [|discriminate].
  destruct (deleteRemovedCirculars _ _ _) as [[[db2 [[rc ra] err]] tr']|f'] eqn:Ed; simpl.
  - destruct err; discriminate.
  - intros [= <-]. apply deleteRemovedCirculars_abort in Ed as [-> | [-> Hq]]; [auto|].
    right. right. split; [reflexivity|]. intros [H0 H1]. destruct Hq; congruence.
Qed.

Lemma passes_abort cfg es s db f :
  passes cfg es s db = Abort f ->
  f = NilDereference \/ f = IndexOutOfRange \/
  (f = FatalExit /\ Exists (fun e => ~ cleanupQueriesOk e) es).
Proof.
  revert s db. induction es as [|e es IH]; intros s db; simpl; [discriminate|].
  destruct (cycle e s db cfg) as [[s' db' log|]|f'] eqn:Ec; simpl.
  - destruct (passes cfg es s' db') as [[s'' db'' log'|]|f'] eqn:Ep; simpl;
      try discriminate.
    intros [= <-]. destruct (IH _ _ Ep) as [-> | [-> | [-> Hex]]]; auto.
  - discriminate.
  - intros [= <-]. destruct (cycle_abort _ _ _ _ _ Ec) as [-> | [-> | [-> Hq]]]; auto.
Qed.

(** Every failure of a pass is logged and the loop goes round again, with
    the next wake time moved on. *)
Lemma cycle_logs_failure e s db cfg err :
  cycleFailure e s db cfg err ->
  exists s' db' log,
    cycle e s db cfg = Done (Continue s' db' log) /\
    ErrCycle err ∈ log /\
    nextTime s' = (Truncate (nextTime s) Minute + parseTimeout cfg)%Z.
Proof.
  intros Hf. unfold cycle.
  destruct Hf as [err Hg | html Hg Hd
                 | html doc cs rl db1 err tr Hg Hd Hp Hi
                 | html doc cs rl db1 tr db2 rc ra err tr' Hg Hd Hp Hi Hdue Hc].
  - rewrite Hg. eexists _, _, _. split; [reflexivity|]. split; [|reflexivity].
    apply list_elem_of_In. simpl. auto.
  - rewrite Hg, Hd. eexists _, _, _. split; [reflexivity|]. split; [|reflexivity].
    apply list_elem_of_In. simpl. auto.
  - rewrite Hg, Hd, Hp. simpl. rewrite Hi.
    eexists _, _, _. split; [reflexivity|]. split; [|reflexivity].
    set_solver.
  - rewrite Hg, Hd, Hp. simpl. rewrite Hi.
    apply Z.ltb_lt in Hdue. rewrite Hdue, Hc. simpl.
    eexists _, _, _. split; [reflexivity|]. split; [|reflexivity].
    set_solver.
Qed.

(** Startup yields the configuration, ends the process through
    [log.Fatal], or dereferences the nil configuration of a credentials
    file that decoded to nothing. *)
Lemma startup_outcome os :
  (exists cfg, startup os = Done cfg) \/ startup os = Abort FatalExit
  \/ (startup os = Abort NilDereference /\ nilConfiguration os).
Proof.
  unfold startup, nilConfiguration, loadConfiguration.
  destruct (LookupEnv os "CIRCULARS_DB_CONNECTION_STRING") as [cs|]; simpl.
  2: { destruct (Nat.ltb_spec (length (Args os)) 2); [by right; left|].
       unfold index. destruct (lookup_lt_is_Some_2 (Args os) 1 ltac:(lia)) as [a Ha].
       rewrite Ha. simpl.
       destruct (OpenFile os a) as [content|] eqn:Eo; simpl; [|by right; left].
       destruct (DecodeConfig os content) as [[c|]|] eqn:Ed; simpl;
         [| right; right; split; [reflexivity|]; split; [reflexivity|];
            by exists a, content | by right; left].
       destruct (LookupEnv os "CIRCULARS_SITE_URL"); simpl; [|by right; left].
       destruct (LookupEnv os "CIRCULARS_CYCLE_WAIT") as [w|]; simpl; [|by right; left].
       destruct (ParseDuration os w); simpl; [left; eauto | by right; left]. }
  destruct (LookupEnv os "CIRCULARS_SITE_URL"); simpl; [|by right; left].
  destruct (LookupEnv os "CIRCULARS_CYCLE_WAIT") as [w|]; simpl; [|by right; left].
  destruct (ParseDuration os w); simpl; [left; eauto | by right; left].
Qed.

Lemma cycle_query_failure e s db cfg :
  cleanupQueryFails e s db cfg -> cycle e s db cfg = Abort FatalExit.
Proof.
  intros [html doc circulars rowLog db1 trace Hg Hd Hp Hi Hdue Ho Hpi Hb Hq].
  unfold cycle. rewrite Hg, Hd, Hp. simpl. rewrite Hi.
  apply Z.ltb_lt in Hdue. rewrite Hdue.
  unfold deleteRemovedCirculars, Query. rewrite Ho, Hpi, Hb. simpl.
  unfold cleanupQueriesOk in Hq.
  destruct (stmt_ok (cleanup_store e) 0); [|reflexivity].
  destruct (stmt_ok (cleanup_store e) 1); [|reflexivity].
  exfalso. by apply Hq.
Qed.

Lemma passes_then_abort cfg es e rest s db s1 db1 log f :
  passes cfg es s db = Done (Continue s1 db1 log) ->
  cycle e s1 db1 cfg = Abort f ->
  passes cfg (es ++ e :: rest) s db = Abort f.
Proof.
  revert s db log. induction es as [|e0 es IH]; intros s db log; simpl.
  - intros [= <- <- _] ->. reflexivity.
  - destruct (cycle e0 s db cfg) as [[s' db' l0|]|] eqn:Ec; simpl; try discriminate.
    destruct (passes cfg es s' db') as [[s'' db'' l1|]|] eqn:Ep; simpl;
      try discriminate.
    intros [= <- <- _] Ha. by rewrite (IH _ _ _ Ep Ha).
Qed.

Lemma main_fatal_needs_failed_query os cfg start es db :
  startup os = Done cfg -> Forall cleanupQueriesOk es ->
  main os start es db <> Abort FatalExit.
Proof.
  intros Hs Hq. unfold main. rewrite Hs. simpl. intros Ha.
  destruct (passes_abort _ _ _ _ _ Ha) as [? | [? | [_ Hex]]]; try discriminate.
  apply Exists_exists in Hex as (e & Hin & Hn).
  rewrite Forall_forall in Hq. by apply Hn, Hq.
Qed.

(** C4.  The code breaks the claim.  With the configuration in place, a
    pass that reaches the queries of a cleanup that is due, one of which
    fails, ends the process through [log.Fatal], after any number of
    passes that went round: nothing is logged for the loop to go on with.
    Every other failure of a pass - the fetch, the markup parse, the
    write transaction, and the connection, ping, begin or commit of the
    same cleanup - is logged and the loop goes on with the next wake time
    moved on; and [log.Fatal] ends the process after startup in no other
    case than a failed query of the cleanup. *)
Theorem cleanup_query_failure_ends_process os cfg start es e rest db s db1 log :
  startup os = Done cfg ->
  passes cfg es (mkLoop start start) db = Done (Continue s db1 log) ->
  cleanupQueryFails e s db1 cfg ->
  cycle e s db1 cfg = Abort FatalExit /\
  main os start (es ++ e :: rest) db = Abort FatalExit /\
  (forall e' s' db' err,
     cycleFailure e' s' db' cfg err ->
     exists s'' db'' log',
       cycle e' s' db' cfg = Done (Continue s'' db'' log') /\
       ErrCycle err ∈ log' /\
       nextTime s'' = (Truncate (nextTime s') Minute + parseTimeout cfg)%Z) /\
  (forall es', Forall cleanupQueriesOk es' ->
               main os start es' db <> Abort FatalExit).
Proof.
  intros Hs Hp Hq. pose proof (cycle_query_failure _ _ _ _ Hq) as Hc.
  split; [exact Hc|]. split; [|split].
  - unfold main. rewrite Hs. simpl. by eapply passes_then_abort.
  - intros. by apply cycle_logs_failure.
  - intros es' Hok. by apply main_fatal_needs_failed_query with (cfg := cfg).
Qed.

(** ** The theorems at concrete inputs *)

Lemma getCirculars_paginates_witness :
  getCirculars [Reply firstPage; Reply secondPage]
  = (Corpus "<html><body><table><tr>a</tr><tr>b</tr></table></body></html>",
     [0; 100]%Z).
Proof.
  assert (H1 : Forall (fun m => (0 < Cnt m)%Z) [firstPage]).
  { apply Forall_cons. split; [reflexivity | apply Forall_nil_2]. }
  assert (H2 : (Cnt secondPage <= 0)%Z) by (vm_compute; discriminate).
  assert (H3 : (100 * Z.of_nat (length [firstPage]) < 2 ^ 63)%Z) by reflexivity.
  exact (getCirculars_paginates [firstPage] secondPage [] H1 H2 H3).
Defined.

Lemma deleteRemovedCirculars_attachments_first_witness :
  deleteRemovedCirculars listed steady_store stored
  = Done (cleaned, (1, 2, None),
          [SelectCircolareIds; SelectAllegatoIds;
           DeleteAllegato 8; DeleteAllegato 7; DeleteCircolare 5]) /\
  3 < 4.
Proof.
  assert (E : deleteRemovedCirculars listed steady_store stored
              = Done (cleaned, (1, 2, None),
                      [SelectCircolareIds; SelectAllegatoIds;
                       DeleteAllegato 8; DeleteAllegato 7; DeleteCircolare 5])).
  { vm_compute. reflexivity. }
  split; [exact E|].
  exact (deleteRemovedCirculars_attachments_first _ _ _ _ _ _ E 4 3 5%N 7%N
           eq_refl eq_refl).
Defined.

Lemma insertCirculars_recent_window_witness :
  NoDup (parsedCircIds listed) /\
  circolare (insertCirculars listed 25 steady_store stored).1.1 !! 9%N
  = Some (mkCircolare "Sciopero" "Avvisi" "2024-09-07" "2024-09-30"
            "2024-09-01T08:00:00Z").
Proof.
  assert (Hnd : NoDup (parsedCircIds listed)).
  { apply (bool_decide_unpack _). vm_compute. exact I. }
  split; [exact Hnd|].
  assert (E : insertCirculars listed 25 steady_store stored
              = ((insertCirculars listed 25 steady_store stored).1.1, None,
                 (insertCirculars listed 25 steady_store stored).2)).
  { vm_compute. reflexivity. }
  destruct (insertCirculars_recent_window _ _ _ _ _ E 0
              (mkCircular 9 "Sciopero" "Avvisi" sept7 sept30 []) eq_refl)
    as (_ & Hc & _).
  exact (Hc Hnd).
Defined.



Lemma cleanup_query_failure_ends_process_witness :
  cycle queryFails (mkLoop fiveMinutes 0) emptyStore deployedConfig = Abort FatalExit /\
  main deployed 0 [transportFails; queryFails] emptyStore = Abort FatalExit.
Proof.
  assert (Hs : startup deployed = Done deployedConfig) by reflexivity.
  assert (Hp : passes deployedConfig [transportFails] (mkLoop 0 0) emptyStore
               = Done (Continue (mkLoop fiveMinutes 0) emptyStore
                         ([InfoGetting; ErrCycle ErrTransport] ++ []))).
  { vm_compute. reflexivity. }
  assert (Hq : cleanupQueryFails queryFails (mkLoop fiveMinutes 0) emptyStore
                 deployedConfig).
  { eapply (QueryFails queryFails (mkLoop fiveMinutes 0) emptyStore deployedConfig
              "<html><body><table><tr>...</tr></table></body></html>"
              (page [soundRow "14" "Orario"])
              [mkCircular 14 "Orario" "Docenti" (mkDate 2024 10 1) (mkDate 2024 10 31) []]
              []
              (insertCirculars
                 [mkCircular 14 "Orario" "Docenti" (mkDate 2024 10 1)
                    (mkDate 2024 10 31) []] 25 steady_store emptyStore).1.1
              (insertCirculars
                 [mkCircular 14 "Orario" "Docenti" (mkDate 2024 10 1)
                    (mkDate 2024 10 31) []] 25 steady_store emptyStore).2);
      try (vm_compute; reflexivity).
    intros [H0 _]. vm_compute in H0. discriminate. }
  destruct (cleanup_query_failure_ends_process deployed deployedConfig 0
              [transportFails] queryFails [] emptyStore _ _ _ Hs Hp Hq)
    as (Hc & Hm & _).
  split; [exact Hc | exact Hm].
Defined.

(* ================================================================== *)
(** * Further properties of the code *)

Set Warnings "-clear-no-such-hyp".

(** ** Fetcher: failures and what a returned corpus implies *)

Lemma getCirculars_loop_fails (pages : list moreCircularsMsg) bad err rest
  count html asked :
  Forall (fun m => (0 < Cnt m)%Z) pages -> failureOf bad = Some err ->
  let r := getCirculars_loop (map Reply pages ++ bad :: rest) count html asked in
  fst r = FetchFailed err /\
  length (snd r) = length asked + length pages
                   + (match bad with RequestError => 0 | _ => 1 end).
Proof.
  intros Hpos Hbad. revert count html asked.
  induction Hpos as [|m pages Hm _ IH]; intros count html asked; simpl.
  - destruct bad; try discriminate; injection Hbad as <-; simpl;
      rewrite ?length_app; simpl; split; (reflexivity || lia).
  - destruct (Z.leb_spec (Cnt m) 0); [lia|].
    destruct (IH (wrap64 (count + 100)) (html ++ Htm m)%string (asked ++ [count]))
      as [H1 H2].
    split; [exact H1|]. rewrite H2, length_app. simpl. lia.
Qed.

(** X1.  A round that fails after any number of replies with a positive
    remaining count ends the fetch with that round's error: no corpus is
    returned, however many fragments were collected.  One request was sent
    per reply, and one more unless the failure was in building the
    request. *)
Theorem getCirculars_fails_fast (pages : list moreCircularsMsg) bad err rest :
  Forall (fun m => (0 < Cnt m)%Z) pages -> failureOf bad = Some err ->
  fst (getCirculars (map Reply pages ++ bad :: rest)) = FetchFailed err /\
  length (snd (getCirculars (map Reply pages ++ bad :: rest)))
  = length pages + (match bad with RequestError => 0 | _ => 1 end).
Proof.
  intros Hpos Hbad. unfold getCirculars.
  destruct (getCirculars_loop_fails pages bad err rest 0 "" [] Hpos Hbad) as [H1 H2].
  split; [exact H1 | exact H2].
Qed.

Lemma getCirculars_fails_fast_witness :
  fst (getCirculars [Reply firstPage; DecodeError; Reply secondPage])
  = FetchFailed ErrDecode.
Proof.
  assert (H1 : Forall (fun m => (0 < Cnt m)%Z) [firstPage]).
  { apply Forall_cons. split; [reflexivity | apply Forall_nil_2]. }
  exact (proj1 (getCirculars_fails_fast [firstPage] DecodeError ErrDecode
                  [Reply secondPage] H1 eq_refl)).
Defined.

Lemma getCirculars_loop_corpus upstream count acc asked html :
  fst (getCirculars_loop upstream count acc asked) = Corpus html ->
  exists pages last rest,
    upstream = map Reply pages ++ Reply last :: rest /\
    Forall (fun m => (0 < Cnt m)%Z) pages /\ (Cnt last <= 0)%Z /\
    html = wrapTable (acc ++ String.concat "" (map Htm (pages ++ [last]))).
Proof.
  revert count acc asked.
  induction upstream as [|r upstream IH]; intros count acc asked; simpl;
    [discriminate|].
  destruct r as [m| | |]; try discriminate.
  destruct (Z.leb_spec (Cnt m) 0) as [Hle|Hgt]; simpl.
  - intros [= <-]. exists [], m, upstream. repeat split; auto.
  - intros H. destruct (IH _ _ _ H) as (pages & last & rest & -> & Hpos & Hlast & ->).
    exists (m :: pages), last, rest. repeat split; auto.
    unfold wrapTable. do 2 f_equal.
    change (map Htm ((m :: pages) ++ [last]))
      with (Htm m :: map Htm (pages ++ [last])).
    by rewrite concat_cons, string_app_assoc.
Qed.

(** X2.  A corpus is returned only when every round up to and including
    the first reply with a remaining count of zero or less was answered
    and decoded; the corpus then holds the fragments of exactly these
    replies, in order, and nothing of what upstream would have sent
    afterwards. *)
Theorem getCirculars_corpus_complete upstream html :
  fst (getCirculars upstream) = Corpus html ->
  exists pages last rest,
    upstream = map Reply pages ++ Reply last :: rest /\
    Forall (fun m => (0 < Cnt m)%Z) pages /\ (Cnt last <= 0)%Z /\
    html = wrapTable (String.concat "" (map Htm (pages ++ [last]))).
Proof. apply getCirculars_loop_corpus. Qed.

Lemma getCirculars_corpus_complete_witness :
  exists pages last rest,
    [Reply firstPage; Reply secondPage; TransportError]
    = map Reply pages ++ Reply last :: rest /\
    Forall (fun m => (0 < Cnt m)%Z) pages /\ (Cnt last <= 0)%Z /\
    "<html><body><table><tr>a</tr><tr>b</tr></table></body></html>"
    = wrapTable (String.concat "" (map Htm (pages ++ [last]))).
Proof.
  exact (getCirculars_corpus_complete
           [Reply firstPage; Reply secondPage; TransportError]
           "<html><body><table><tr>a</tr><tr>b</tr></table></body></html>"
           eq_refl).
Defined.

(** ** Extractor: the label scan, the fields of a circular, the attachments *)

Lemma findNodeWithContext_abort_iff context spans f :
  findNodeWithContext context spans = Abort f <->
  f = NilDereference /\
  exists before n after,
    spans = before ++ n :: after /\ PrevSibling n = None /\
    Forall (fun m => is_Some (PrevSibling m) /\ isLabelled context m = false) before.
Proof.
  induction spans as [|s spans IH]; simpl.
  - split; [discriminate|]. intros (_ & before & n & after & H & _).
    by destruct before.
  - destruct (PrevSibling s) as [prev|] eqn:Es; simpl.
    + destruct (Contains (Data prev) context) eqn:Ec.
      * split; [discriminate|].
        intros (_ & before & n & after & H & Hn & Hb).
        destruct before as [|b before]; simpl in H; injection H as <- ->.
        -- congruence.
        -- apply Forall_cons in Hb as [[_ Hb] _].
           unfold isLabelled in Hb. rewrite Es in Hb. congruence.
      * rewrite IH. split.
        -- intros (-> & before & n & after & -> & Hn & Hb). split; [reflexivity|].
           exists (s :: before), n, after. repeat split; auto.
           apply Forall_cons. split; [|assumption].
           split; [by rewrite Es|]. unfold isLabelled. by rewrite Es.
        -- intros (-> & before & n & after & H & Hn & Hb). split; [reflexivity|].
           destruct before as [|b before]; simpl in H; injection H as <- ->.
           ++ congruence.
           ++ apply Forall_cons in Hb as [_ Hb]. eauto 6.
    + split.
      * intros [= <-]. split; [reflexivity|]. exists [], s, spans. by repeat split.
      * by intros (-> & _).
Qed.

(** X3.  The label scan returns exactly when no span without previous
    sibling comes before the first labelled span (or anywhere, when no span
    is labelled).  When it returns, it returns the first child of the
    first labelled span and [true], or [nil] and [false] when no span is
    labelled; otherwise it ends with a nil dereference. *)
Theorem findNodeWithContext_outcome context spans :
  (forall r, findNodeWithContext context spans = Done r ->
             r = labelResult context spans) /\
  (forall f, findNodeWithContext context spans = Abort f <->
     f = NilDereference /\
     exists before n after,
       spans = before ++ n :: after /\ PrevSibling n = None /\
       Forall (fun m => is_Some (PrevSibling m) /\ isLabelled context m = false)
              before).
Proof.
  split.
  - intros r. apply findNodeWithContext_done.
  - intros f. apply findNodeWithContext_abort_iff.
Qed.

Lemma ParseUint_range s n : ParseUint s = Some n -> (n < 2 ^ 64)%N.
Proof.
  unfold ParseUint. destruct s; [discriminate|].
  destruct (parseDigits _ _) as [m|]; [|discriminate].
  destruct (N.ltb_spec m (2 ^ 64)); [by intros [= <-] | discriminate].
Qed.

Lemma parseAttachments_spec id markers atts logs :
  parseAttachments id markers = (atts, logs) ->
  length atts + length logs = length (filter (fun a => hasIdDoc a = true) markers) /\
  Forall (fun l => l = WarnAttachment id) logs /\
  Forall (fun a => (att_Id a < 2 ^ 64)%N /\
                   exists m, m ∈ markers /\ hasIdDoc m = true /\
                     ParseUint (fst (SelAttr [m] "id_doc")) = Some (att_Id a) /\
                     att_Title a = Text [m]) atts.
Proof.
  revert atts logs. induction markers as [|a markers IH]; intros atts logs; simpl.
  - intros [= <- <-]. repeat split; constructor.
  - destruct (parseAttachments id markers) as [atts0 logs0].
    destruct (IH _ _ eq_refl) as (Hl & Hlog & Hat).
    assert (Hat' : Forall (fun x => (att_Id x < 2 ^ 64)%N /\
                   exists m, m ∈ a :: markers /\ hasIdDoc m = true /\
                     ParseUint (fst (SelAttr [m] "id_doc")) = Some (att_Id x) /\
                     att_Title x = Text [m]) atts0).
    { eapply Forall_impl; [exact Hat|]. simpl.
      intros x (Hx & m & Hm & Hrest). split; [exact Hx|].
      exists m. split; [by apply list_elem_of_further | exact Hrest]. }
    rewrite (filter_cons (fun a0 : NodeRef => hasIdDoc a0 = true) a markers).
    destruct (decide (hasIdDoc a = true)) as [Hd|Hd];
      pose proof Hd as Hd'; unfold hasIdDoc in Hd; simpl in Hd;
      destruct (getAttributeValue "id_doc" (target a)) as [idDocStr b] eqn:Ea;
      simpl in Hd; destruct b; try congruence.
    + destruct (ParseUint idDocStr) as [idDoc|] eqn:Ep; intros [= <- <-];
        cbn [length].
      * split; [simpl; f_equal; exact Hl|]. split; [exact Hlog|].
        apply Forall_cons. split; [|exact Hat'].
        split; [by apply ParseUint_range in Ep|].
        exists a. split; [apply list_elem_of_here|].
        split; [exact Hd'|]. simpl. rewrite Ea. by split.
      * split; [rewrite Nat.add_succ_r; f_equal; exact Hl|]. split; [|exact Hat'].
        apply Forall_cons. by split.
    + intros [= <- <-]. by repeat split.
Qed.

(** X4.  Of the attachment markers, those without [id_doc] attribute are
    passed over in silence; each of the others yields either an attachment
    (identifier parsed from [id_doc], fitting in 64 bits; title the
    marker's text) or one warning carrying the circular's identifier, and
    nothing else is logged. *)
Theorem parseAttachments_accounts_for_markers id markers :
  let '(atts, logs) := parseAttachments id markers in
  length atts + length logs = length (filter (fun a => hasIdDoc a = true) markers) /\
  Forall (fun l => l = WarnAttachment id) logs /\
  Forall (fun a => (att_Id a < 2 ^ 64)%N /\
                   exists m, m ∈ markers /\ hasIdDoc m = true /\
                     ParseUint (fst (SelAttr [m] "id_doc")) = Some (att_Id a) /\
                     att_Title a = Text [m]) atts.
Proof.
  destruct (parseAttachments id markers) as [atts logs] eqn:E.
  by apply parseAttachments_spec.
Qed.

Lemma parseRow_fields_of row c logs :
  parseRow row = Done (Some c, logs) ->
  snd (idMarker row) = true /\
  ParseUint (fst (idMarker row)) = Some (Id c) /\
  Title c = titleOf row /\
  labelled "Categoria" row = Some (Category c) /\
  labelled "Pubblicato il" row = Some (formatDMY (PublishedDate c)) /\
  labelled "Valido fino" row = Some (formatDMY (ValidUntilDate c)) /\
  (Attachments c, logs) = parseAttachments (Id c) (attachmentMarkersOf row) /\
  wellFormed c.
Proof.
  unfold parseRow. fold (idMarker row) (spanTagsOf row) (titleOf row)
    (attachmentMarkersOf row).
  destruct (idMarker row) as [idStr [|]]; [|discriminate].
  destruct (ParseUint idStr) as [id|] eqn:Eid; [|discriminate].
  destruct (String.eqb (titleOf row) "") eqn:Et; [discriminate|].
  destruct (findNodeWithContext "Categoria" _) as [[cat [|]]|] eqn:Ec;
    simpl; try discriminate.
  destruct (findNodeWithContext "Pubblicato il" _) as [[pub [|]]|] eqn:Ep;
    simpl; try discriminate.
  destruct pub as [pub|]; simpl; [|discriminate].
  destruct (parseDate (Data pub)) as [pd|] eqn:Epd; [|discriminate].
  destruct (findNodeWithContext "Valido fino" _) as [[val [|]]|] eqn:Ev;
    simpl; try discriminate.
  destruct val as [val|]; simpl; [|discriminate].
  destruct (parseDate (Data val)) as [vd|] eqn:Evd; [|discriminate].
  destruct (parseAttachments id _) as [atts alogs] eqn:Ea.
  destruct cat as [cat|]; simpl; [|discriminate].
  intros [= <- <-]. simpl.
  apply labelled_of_scan in Ec, Ep, Ev.
  apply parseDate_layout in Epd as [Epd Hpd]. apply parseDate_layout in Evd as [Evd Hvd].
  apply String.eqb_neq in Et.
  destruct (parseAttachments_spec _ _ _ _ Ea) as (_ & _ & Hat).
  split; [reflexivity|]. split; [exact Eid|]. split; [reflexivity|].
  split; [exact Ec|]. split; [congruence|]. split; [congruence|].
  split; [by rewrite Ea|].
  unfold wellFormed. simpl.
  split; [by apply ParseUint_range in Eid|]. split; [exact Et|].
  split; [exact Hpd|]. split; [exact Hvd|].
  eapply Forall_impl; [exact Hat|]. simpl. tauto.
Qed.

(** X5.  A circular that a row yields carries what the row shows: its
    identifier is the [id_doc] of the marker, read as a decimal number;
    its title is the text of the first span and is not empty; its category
    is the text after the "Categoria" label; its two dates are valid
    calendar dates whose day/month/year spelling is the text after
    "Pubblicato il" and "Valido fino"; its attachments and the warnings
    logged are those of the attachment markers of the information cell. *)
Theorem parseRow_fields row c logs :
  parseRow row = Done (Some c, logs) ->
  snd (idMarker row) = true /\
  ParseUint (fst (idMarker row)) = Some (Id c) /\
  Title c = titleOf row /\
  labelled "Categoria" row = Some (Category c) /\
  labelled "Pubblicato il" row = Some (formatDMY (PublishedDate c)) /\
  labelled "Valido fino" row = Some (formatDMY (ValidUntilDate c)) /\
  (Attachments c, logs) = parseAttachments (Id c) (attachmentMarkersOf row) /\
  wellFormed c.
Proof. apply parseRow_fields_of. Qed.

Lemma parseRows_wellFormed rows cs logs :
  parseRows rows = Done (cs, logs) ->
  length cs <= length rows /\ Forall wellFormed cs /\
  cs = omap circularOf rows.
Proof.
  revert cs logs. induction rows as [|row rows IH]; intros cs logs; simpl.
  - intros [= <- <-]. split; [simpl; lia|]. split; [constructor | reflexivity].
  - destruct (parseRow row) as [[o rl]|] eqn:Er; simpl; [|discriminate].
    destruct (parseRows rows) as [[cs0 logs0]|]; simpl; [|discriminate].
    destruct (IH _ _ eq_refl) as (Hlen & Hwf & Hcs).
    destruct (circularOf_done _ _ _ Er) as [Hc _]. rewrite Hc.
    intros [= <- <-]. destruct o as [c|]; simpl.
    + split; [lia|]. split; [|by rewrite Hcs].
      apply Forall_cons. split; [|assumption].
      by destruct (parseRow_fields_of _ _ _ Er) as (_ & _ & _ & _ & _ & _ & _ & ?).
    + split; [lia|]. by split.
Qed.

(** X6.  When the extraction of a document returns, it returns at most one
    circular per result row, in row order, and every circular it returns
    is well formed: identifiers below 2^64, a title that is not empty, two
    valid calendar dates. *)
Theorem parseDocument_yields_wellFormed doc cs logs :
  parseDocument doc = Done (cs, logs) ->
  length cs <= length (resultRows doc) /\ Forall wellFormed cs /\
  cs = omap circularOf (resultRows doc).
Proof. apply parseRows_wellFormed. Qed.

Lemma parseRow_fields_witness :
  exists row c, resultRows doc1 !! 0 = Some row /\
    parseRow row = Done (Some c, [WarnAttachment 12]) /\
    labelled "Pubblicato il" row = Some (formatDMY (PublishedDate c)) /\
    wellFormed c.
Proof.
  eexists. eexists. split; [reflexivity|].
  assert (E : parseRow (mkRef None (resultRow
                [idCell "12"; infoCell "Sciopero" "Avvisi" "07/09/2024" "30/09/2024"
                   [fileLink "7" "testo.pdf"; fileLink "x" "rotto.pdf"]]))
              = Done (Some (mkCircular 12 "Sciopero" "Avvisi" sept7 sept30
                              [mkAttachment 7 "testo.pdf"]),
                      [WarnAttachment 12])) by reflexivity.
  split; [exact E|].
  pose proof (parseRow_fields _ _ _ E) as (_ & _ & _ & _ & Hp & _ & _ & Hw).
  split; [exact Hp | exact Hw].
Defined.

Lemma parseDocument_yields_wellFormed_witness :
  exists cs logs, parseDocument doc1 = Done (cs, logs) /\
    length cs <= length (resultRows doc1) /\ Forall wellFormed cs.
Proof.
  eexists. eexists.
  assert (E : parseDocument doc1
              = Done ([mkCircular 12 "Sciopero" "Avvisi" sept7 sept30
                         [mkAttachment 7 "testo.pdf"];
                       mkCircular 14 "Orario" "Docenti" (mkDate 2024 10 1)
                         (mkDate 2024 10 31) []],
                      [WarnAttachment 12; ErrBadPublished 13])) by reflexivity.
  split; [exact E|].
  pose proof (parseDocument_yields_wellFormed _ _ _ E) as (Hl & Hw & _).
  split; [exact Hl | exact Hw].
Defined.

(** ** From the page to the date columns *)

Lemma formatDate_of_formatDMY d :
  formatDate d = isoOfDMY (formatDMY d) /\ String.length (formatDMY d) = 10.
Proof.
  unfold formatDate, isoOfDMY, formatDMY, pad2.
  set (d1 := digitChar (day d / 10)). set (d2 := digitChar (day d mod 10)).
  set (m1 := digitChar (month d / 10)). set (m2 := digitChar (month d mod 10)).
  set (y1 := digitChar (year d / 100 / 10)).
  set (y2 := digitChar ((year d / 100) mod 10)).
  set (y3 := digitChar (year d mod 100 / 10)).
  set (y4 := digitChar ((year d mod 100) mod 10)).
  clearbody d1 d2 m1 m2 y1 y2 y3 y4. split; reflexivity.
Qed.

(** X7.  A date text that [time.Parse] accepts has ten characters, and
    what [Format("2006-01-02")] makes of the parsed date for the store is
    that text's digits in the order year, month, day, with dashes: the
    date columns hold the date of the page, to the day. *)
Theorem stored_date_is_page_date s d :
  parseDate s = Some d ->
  formatDate d = isoOfDMY s /\ String.length s = 10.
Proof.
  intros H. apply parseDate_layout in H as [-> _].
  apply formatDate_of_formatDMY.
Qed.

Lemma stored_date_is_page_date_witness :
  formatDate (mkDate 2024 9 7) = "2024-09-07".
Proof.
  exact (proj1 (stored_date_is_page_date "07/09/2024" (mkDate 2024 9 7) eq_refl)).
Defined.

(** ** Sync Engine: what a write sends and what it leaves behind *)

Lemma applyAll_app ss1 ss2 db :
  applyAll (ss1 ++ ss2) db = applyAll ss2 (applyAll ss1 db).
Proof. unfold applyAll. apply fold_left_app. Qed.

Lemma insertAttachments_run env q cid atts t t' :
  insertAttachments env q cid atts t = (t', None) ->
  exists more, sent t' = sent t ++ more /\ length more = length atts /\
               work t' = applyAll more (work t).
Proof.
  revert t. induction atts as [|a atts IH]; intros t; simpl.
  - intros [= <-]. exists []. by rewrite app_nil_r.
  - destruct (Exec env t _) as [t1 [e|]] eqn:E; [discriminate|].
    apply Exec_inv in E as (Es & _ & Ew). intros H.
    destruct (IH _ H) as (more & Hs & Hl & Hw).
    eexists (_ :: more). rewrite Hs, Es, <- app_assoc. split; [reflexivity|].
    split; [simpl; by rewrite Hl|]. rewrite Hw, Ew. reflexivity.
Qed.

Lemma insertLoop_run env n idx cs t t' :
  insertLoop env n idx cs t = (t', None) ->
  exists more, sent t' = sent t ++ more /\
               length more = length cs + length (parsedAttachIds cs) /\
               work t' = applyAll more (work t).
Proof.
  revert idx t. induction cs as [|c cs IH]; intros idx t; simpl.
  - intros [= <-]. exists []. by rewrite app_nil_r.
  - destruct (Exec env t _) as [t1 [e|]] eqn:E; [discriminate|].
    apply Exec_inv in E as (Es & _ & Ew).
    destruct (insertAttachments env _ _ _ t1) as [t2 [e|]] eqn:E2; [discriminate|].
    apply insertAttachments_run in E2 as (m2 & Hs2 & Hl2 & Hw2). intros H.
    destruct (IH _ _ H) as (more & Hs & Hl & Hw).
    eexists (_ :: m2 ++ more). rewrite Hs, Hs2, Es, <- !app_assoc.
    split; [reflexivity|]. split.
    + simpl. rewrite !length_app, length_map, Hl, Hl2. lia.
    + rewrite Hw, Hw2, Ew. simpl. by rewrite applyAll_app.
Qed.

(** X8.  A write that returns no error has sent exactly one statement per
    circular and one per attachment, every one of them succeeded, and the
    store it leaves is the store it found with these statements applied in
    the order sent; a write that returns an error leaves the store as it
    found it. *)
Theorem insertCirculars_all_or_nothing circulars n env db db' r trace :
  insertCirculars circulars n env db = (db', r, trace) ->
  match r with
  | None =>
      length trace = length circulars + length (parsedAttachIds circulars) /\
      (forall k, k < length trace -> stmt_ok env k = true) /\
      commit_ok env = true /\
      db' = applyAll trace db
  | Some _ => db' = db
  end.
Proof.
  unfold insertCirculars.
  destruct (open_ok env); simpl; [|by intros [= <- <- _]].
  destruct (ping_ok env); simpl; [|by intros [= <- <- _]].
  destruct (begin_ok env); simpl; [|by intros [= <- <- _]].
  destruct (insertLoop _ _ _ _ _) as [t [e|]] eqn:E; [by intros [= <- <- _]|].
  destruct (commit_ok env); [|by intros [= <- <- _]].
  intros [= <- <- <-].
  destruct (insertLoop_run _ _ _ _ _ _ E) as (more & Hs & Hl & Hw).
  apply insertLoop_went_well in E as [_ Hall]. simpl in *. subst more.
  repeat split; auto. intros k Hk. apply Hall. lia.
Qed.

Lemma insertCirculars_all_or_nothing_witness :
  length (insertCirculars listed 25 steady_store stored).2 = 3.
Proof.
  assert (E : insertCirculars listed 25 steady_store stored
              = ((insertCirculars listed 25 steady_store stored).1.1, None,
                 (insertCirculars listed 25 steady_store stored).2)).
  { vm_compute. reflexivity. }
  exact (proj1 (insertCirculars_all_or_nothing _ _ _ _ _ _ _ E)).
Defined.

Lemma Exec_stoppedAt env t s t' err :
  Exec env t s = (t', Some err) -> stoppedAt env t t' err.
Proof.
  intros H. apply Exec_inv in H as (Hs & Hbad & _ & ->).
  unfold stoppedAt. rewrite Hs, length_app. simpl.
  replace (length (sent t) + 1 - 1) with (length (sent t)) by lia.
  repeat split; [lia | assumption | intros; lia].
Qed.

Lemma stoppedAt_after env t0 t t' err :
  went_well env t0 t -> stoppedAt env t t' err -> stoppedAt env t0 t' err.
Proof.
  intros [Hl Hok] (He & Hlt & Hbad & Hall). unfold stoppedAt.
  repeat split; [assumption | lia | assumption |].
  intros k Hk. destruct (le_lt_dec (length (sent t)) k); [apply Hall | apply Hok]; lia.
Qed.

Lemma insertAttachments_stops env q cid atts t t' err :
  insertAttachments env q cid atts t = (t', Some err) ->
  stoppedAt env t t' err /\ length (sent t') <= length (sent t) + length atts.
Proof.
  revert t. induction atts as [|a atts IH]; intros t; simpl; [discriminate|].
  destruct (Exec env t _) as [t1 [e|]] eqn:E.
  - intros [= <- <-]. split; [by eapply Exec_stoppedAt|].
    apply Exec_inv in E as (-> & _). rewrite length_app. simpl. lia.
  - intros H. destruct (IH _ H) as [Hst Hl].
    split; [eapply stoppedAt_after; [eapply Exec_went_well|]; eauto|].
    apply Exec_inv in E as (Es & _). rewrite Es, length_app in Hl. simpl in Hl. lia.
Qed.

Lemma insertLoop_stops env n idx cs t t' err :
  insertLoop env n idx cs t = (t', Some err) ->
  stoppedAt env t t' err /\
  length (sent t') <= length (sent t) + length cs + length (parsedAttachIds cs).
Proof.
  revert idx t. induction cs as [|c cs IH]; intros idx t; simpl; [discriminate|].
  destruct (Exec env t _) as [t1 [e|]] eqn:E.
  - intros [= <- <-]. split; [by eapply Exec_stoppedAt|].
    apply Exec_inv in E as (-> & _). rewrite length_app. simpl. lia.
  - pose proof (Exec_went_well _ _ _ _ E) as W1.
    apply Exec_inv in E as (Es & _).
    destruct (insertAttachments env _ _ _ t1) as [t2 [e|]] eqn:E2.
    + intros [= <- <-]. destruct (insertAttachments_stops _ _ _ _ _ _ _ E2) as [Hst Hl].
      split; [eapply stoppedAt_after; eauto|].
      rewrite Es, length_app in Hl. simpl in Hl. rewrite length_app, length_map. lia.
    + pose proof (insertAttachments_went_well _ _ _ _ _ _ E2) as W2.
      apply insertAttachments_sent in E2. intros H.
      destruct (IH _ _ H) as [Hst Hl]. split.
      * eapply stoppedAt_after; [|exact Hst]. eapply went_well_trans; eauto.
      * rewrite E2, Es, !length_app, length_map in Hl. simpl in Hl.
        rewrite length_app, length_map. lia.
Qed.

(** X9.  A write that returns an error leaves the store as it found it,
    and the error tells where it stopped: before any statement when the
    connection or the transaction could not be opened; on the statement
    that failed, the first to fail and the last one sent; or at the commit,
    after every statement had been sent and had succeeded. *)
Theorem insertCirculars_stops_at_first_failure circulars n env db db' err trace :
  insertCirculars circulars n env db = (db', Some err, trace) ->
  db' = db /\
  match err with
  | ErrOpen | ErrPing | ErrBegin => trace = []
  | ErrExec k =>
      length trace = S k /\ stmt_ok env k = false /\
      (forall j, j < k -> stmt_ok env j = true) /\
      k < length circulars + length (parsedAttachIds circulars)
  | ErrCommit =>
      length trace = length circulars + length (parsedAttachIds circulars) /\
      (forall j, j < length trace -> stmt_ok env j = true)
  | _ => False
  end.
Proof.
  unfold insertCirculars.
  destruct (open_ok env); simpl; [|by intros [= <- <- <-]].
  destruct (ping_ok env); simpl; [|by intros [= <- <- <-]].
  destruct (begin_ok env); simpl; [|by intros [= <- <- <-]].
  destruct (insertLoop _ _ _ _ _) as [t [e|]] eqn:E.
  - intros [= <- <- <-]. split; [reflexivity|].
    destruct (insertLoop_stops _ _ _ _ _ _ _ E) as [(-> & Hlt & Hbad & Hall) Hl].
    simpl in *. repeat split; [lia | assumption | intros; apply Hall; lia | lia].
  - destruct (commit_ok env); [discriminate|]. intros [= <- <- <-].
    split; [reflexivity|].
    destruct (insertLoop_run _ _ _ _ _ _ E) as (more & Hs & Hl & _).
    apply insertLoop_went_well in E as [_ Hall]. simpl in *. subst more.
    split; [assumption|]. intros j Hj. apply Hall. lia.
Qed.

Lemma insertCirculars_stops_at_first_failure_witness :
  (insertCirculars listed 25 (failing_at 1) stored).1.1 = stored.
Proof.
  assert (E : insertCirculars listed 25 (failing_at 1) stored
              = ((insertCirculars listed 25 (failing_at 1) stored).1.1,
                 Some (ErrExec 1),
                 (insertCirculars listed 25 (failing_at 1) stored).2)).
  { vm_compute. reflexivity. }
  exact (proj1 (insertCirculars_stops_at_first_failure _ _ _ _ _ _ _ E)).
Defined.

Lemma keepsOrigins_refl db : keepsOrigins db db.
Proof. split; intros id old H; eauto. Qed.

Lemma keepsOrigins_trans db1 db2 db3 :
  keepsOrigins db1 db2 -> keepsOrigins db2 db3 -> keepsOrigins db1 db3.
Proof.
  intros [C1 A1] [C2 A2]. split; intros id old H.
  - destruct (C1 _ _ H) as (mid & Hm & E1). destruct (C2 _ _ Hm) as (new & Hn & E2).
    exists new. split; [assumption | congruence].
  - destruct (A1 _ _ H) as (mid & Hm & E1). destruct (A2 _ _ Hm) as (new & Hn & E2).
    exists new. split; [assumption | congruence].
Qed.

Lemma insertCircolare_keepsOrigins q id r db :
  keepsOrigins db (applyStatement (InsertCircolare q id r) db).
Proof.
  split; simpl; intros k old H; [|eauto].
  destruct (decide (id = k)) as [->|Hne].
  - rewrite insertCircolare_lookup, H. destruct q; eauto.
  - rewrite insertCircolare_other by assumption. eauto.
Qed.

Lemma insertAllegato_keepsOrigins q id r db :
  keepsOrigins db (applyStatement (InsertAllegato q id r) db).
Proof.
  split; simpl; intros k old H; [eauto|].
  destruct (decide (id = k)) as [->|Hne].
  - rewrite insertAllegato_lookup, H. destruct q; eauto.
  - rewrite insertAllegato_other by assumption. eauto.
Qed.

Lemma Exec_keeps (R : database -> database -> Prop) env t s t' r :
  R (work t) (work t) -> R (work t) (applyStatement s (work t)) ->
  Exec env t s = (t', r) -> R (work t) (work t').
Proof.
  intros Hrefl Hstep H. apply Exec_inv in H as (_ & H).
  destruct r; [destruct H as (_ & -> & _) | destruct H as (_ & ->)]; assumption.
Qed.

Lemma insertAttachments_keepsOrigins env q cid atts t t' r :
  insertAttachments env q cid atts t = (t', r) -> keepsOrigins (work t) (work t').
Proof.
  revert t. induction atts as [|a atts IH]; intros t; simpl.
  - intros [= <- _]. apply keepsOrigins_refl.
  - destruct (Exec env t _) as [t1 [e|]] eqn:E;
      apply (Exec_keeps keepsOrigins) in E;
      try apply keepsOrigins_refl; try apply insertAllegato_keepsOrigins.
    + by intros [= <- _].
    + intros H. eapply keepsOrigins_trans; eauto.
Qed.

Lemma insertLoop_keepsOrigins env n idx cs t t' r :
  insertLoop env n idx cs t = (t', r) -> keepsOrigins (work t) (work t').
Proof.
  revert idx t. induction cs as [|c cs IH]; intros idx t; simpl.
  - intros [= <- _]. apply keepsOrigins_refl.
  - destruct (Exec env t _) as [t1 [e|]] eqn:E;
      apply (Exec_keeps keepsOrigins) in E;
      try apply keepsOrigins_refl; try apply insertCircolare_keepsOrigins.
    + by intros [= <- _].
    + destruct (insertAttachments env _ _ _ t1) as [t2 [e|]] eqn:E2;
        apply insertAttachments_keepsOrigins in E2.
      * intros [= <- _]. eapply keepsOrigins_trans; eauto.
      * intros H. eapply keepsOrigins_trans; [exact E|].
        eapply keepsOrigins_trans; eauto.
Qed.

(** X10.  Whatever the window, the outcome and the store's behaviour, a
    write removes no row, and in a row that was already stored it never
    changes the insertion timestamp of a circular nor the owning circular
    of an attachment. *)
Theorem insertCirculars_keeps_origins circulars n env db :
  keepsOrigins db (insertCirculars circulars n env db).1.1.
Proof.
  unfold insertCirculars.
  destruct (open_ok env); simpl; [|apply keepsOrigins_refl].
  destruct (ping_ok env); simpl; [|apply keepsOrigins_refl].
  destruct (begin_ok env); simpl; [|apply keepsOrigins_refl].
  destruct (insertLoop _ _ _ _ _) as [t [e|]] eqn:E; simpl;
    [apply keepsOrigins_refl|].
  destruct (commit_ok env); simpl; [|apply keepsOrigins_refl].
  by apply insertLoop_keepsOrigins in E.
Qed.

Lemma keepsRows_refl db : keepsRows db db.
Proof. split; intros id old H; eauto. Qed.

Lemma keepsRows_trans db1 db2 db3 :
  keepsRows db1 db2 -> keepsRows db2 db3 -> keepsRows db1 db3.
Proof. intros [C1 A1] [C2 A2]. split; intros id old H; eauto. Qed.

Lemma queryKind_nonpositive n idx : (n <= 0)%Z -> queryKind n idx = InsertIgnore.
Proof. intros H. unfold queryKind. destruct (Z.ltb_spec (Z.of_nat idx) n); [lia | reflexivity]. Qed.

Lemma insertIgnore_keepsRows s db :
  (exists id r, s = InsertCircolare InsertIgnore id r) \/
  (exists id r, s = InsertAllegato InsertIgnore id r) ->
  keepsRows db (applyStatement s db).
Proof.
  intros [(id & r & ->) | (id & r & ->)]; split; simpl; intros k old H; eauto.
  - destruct (decide (id = k)) as [->|Hne].
    + by rewrite insertCircolare_lookup, H.
    + by rewrite insertCircolare_other.
  - destruct (decide (id = k)) as [->|Hne].
    + by rewrite insertAllegato_lookup, H.
    + by rewrite insertAllegato_other.
Qed.

Lemma insertAttachments_keepsRows env cid atts t t' r :
  insertAttachments env InsertIgnore cid atts t = (t', r) ->
  keepsRows (work t) (work t').
Proof.
  revert t. induction atts as [|a atts IH]; intros t; simpl.
  - intros [= <- _]. apply keepsRows_refl.
  - destruct (Exec env t _) as [t1 [e|]] eqn:E;
      apply (Exec_keeps keepsRows) in E;
      try apply keepsRows_refl; try (apply insertIgnore_keepsRows; eauto).
    + by intros [= <- _].
    + intros H. eapply keepsRows_trans; eauto.
Qed.

Lemma insertLoop_keepsRows env n idx cs t t' r :
  (n <= 0)%Z ->
  insertLoop env n idx cs t = (t', r) -> keepsRows (work t) (work t').
Proof.
  intros Hn. revert idx t. induction cs as [|c cs IH]; intros idx t; simpl.
  - intros [= <- _]. apply keepsRows_refl.
  - rewrite (queryKind_nonpositive n idx Hn).
    destruct (Exec env t _) as [t1 [e|]] eqn:E;
      apply (Exec_keeps keepsRows) in E;
      try apply keepsRows_refl; try (apply insertIgnore_keepsRows; eauto).
    + by intros [= <- _].
    + destruct (insertAttachments env _ _ _ t1) as [t2 [e|]] eqn:E2;
        apply insertAttachments_keepsRows in E2.
      * intros [= <- _]. eapply keepsRows_trans; eauto.
      * intros H. eapply keepsRows_trans; [exact E|].
        eapply keepsRows_trans; eauto.
Qed.

(** X11.  With a window of zero (or less) every statement is an
    [INSERT IGNORE]: whatever the outcome, each row that was stored before
    the write is stored unchanged after it. *)
Theorem insertCirculars_without_window circulars n env db :
  (n <= 0)%Z -> keepsRows db (insertCirculars circulars n env db).1.1.
Proof.
  intros Hn. unfold insertCirculars.
  destruct (open_ok env); simpl; [|apply keepsRows_refl].
  destruct (ping_ok env); simpl; [|apply keepsRows_refl].
  destruct (begin_ok env); simpl; [|apply keepsRows_refl].
  destruct (insertLoop _ _ _ _ _) as [t [e|]] eqn:E; simpl; [apply keepsRows_refl|].
  destruct (commit_ok env); simpl; [|apply keepsRows_refl].
  by apply (insertLoop_keepsRows _ _ _ _ _ _ _ Hn) in E.
Qed.

Lemma insertCirculars_without_window_witness :
  keepsRows stored (insertCirculars listed 0 steady_store stored).1.1.
Proof.
  assert (H : (0 <= 0)%Z) by lia.
  exact (insertCirculars_without_window listed 0 steady_store stored H).
Defined.

Lemma insertCirculars_success_inv circulars n env db db' trace :
  insertCirculars circulars n env db = (db', None, trace) ->
  exists t, insertLoop env n 0 circulars (mkTx db []) = (t, None) /\
            db' = work t /\ trace = sent t.
Proof.
  unfold insertCirculars.
  destruct (open_ok env); simpl; [|discriminate].
  destruct (ping_ok env); simpl; [|discriminate].
  destruct (begin_ok env); simpl; [|discriminate].
  destruct (insertLoop _ _ _ _ _) as [t [e|]] eqn:E; [discriminate|].
  destruct (commit_ok env); [|discriminate].
  intros [= <- <-]. eauto.
Qed.

Lemma dom_insertCircolare q id r (t : gmap N circolare_row) :
  dom (insertCircolare q id r t) = {[id]} ∪ dom t.
Proof.
  unfold insertCircolare. destruct (t !! id) as [old|] eqn:E.
  - assert (id ∈ dom t) by (apply elem_of_dom; eauto).
    destruct q; [|rewrite dom_insert_L]; set_solver.
  - by rewrite dom_insert_L.
Qed.

Lemma dom_insertAllegato q id r (t : gmap N allegato_row) :
  dom (insertAllegato q id r t) = {[id]} ∪ dom t.
Proof.
  unfold insertAllegato. destruct (t !! id) as [old|] eqn:E.
  - assert (id ∈ dom t) by (apply elem_of_dom; eauto).
    destruct q; [|rewrite dom_insert_L]; set_solver.
  - by rewrite dom_insert_L.
Qed.

Lemma insertAttachments_dom env q cid atts t t' :
  insertAttachments env q cid atts t = (t', None) ->
  dom (circolare_allegato (work t'))
  = dom (circolare_allegato (work t)) ∪ list_to_set (map att_Id atts).
Proof.
  revert t. induction atts as [|a atts IH]; intros t; simpl.
  - intros [= <-]. set_solver.
  - destruct (Exec env t _) as [t1 [e|]] eqn:E; [discriminate|].
    apply Exec_inv in E as (_ & _ & Ew). intros H.
    rewrite (IH _ H), Ew. simpl. rewrite dom_insertAllegato. set_solver.
Qed.

Lemma insertLoop_dom env n idx cs t t' :
  insertLoop env n idx cs t = (t', None) ->
  dom (circolare (work t'))
  = dom (circolare (work t)) ∪ list_to_set (parsedCircIds cs) /\
  dom (circolare_allegato (work t'))
  = dom (circolare_allegato (work t)) ∪ list_to_set (parsedAttachIds cs).
Proof.
  revert idx t. induction cs as [|c cs IH]; intros idx t; simpl.
  - intros [= <-]. set_solver.
  - destruct (Exec env t _) as [t1 [e|]] eqn:E; [discriminate|].
    apply Exec_inv in E as (_ & _ & Ew).
    destruct (insertAttachments env _ _ _ t1) as [t2 [e|]] eqn:E2; [discriminate|].
    pose proof (insertAttachments_circolare _ _ _ _ _ _ _ E2) as Hc.
    apply insertAttachments_dom in E2. intros H.
    destruct (IH _ _ H) as [H1 H2]. rewrite H1, H2, Hc, E2, Ew. simpl.
    rewrite dom_insertCircolare, list_to_set_app_L.
    split; [by rewrite (comm_L (∪) {[Id c]}), !(assoc_L (∪)) | by rewrite !(assoc_L (∪))].
Qed.

(** X12.  After a write that returns no error, the identifiers stored are
    exactly those stored before together with those of the extracted
    circulars, and likewise for the attachments: every extracted record is
    in the store, and nothing else was added. *)
Theorem insertCirculars_stores_every_identifier circulars n env db db' trace :
  insertCirculars circulars n env db = (db', None, trace) ->
  dom (circolare db') = dom (circolare db) ∪ list_to_set (parsedCircIds circulars) /\
  dom (circolare_allegato db')
  = dom (circolare_allegato db) ∪ list_to_set (parsedAttachIds circulars).
Proof.
  intros H. apply insertCirculars_success_inv in H as (t & E & -> & _).
  by apply insertLoop_dom in E.
Qed.

Lemma insertCirculars_stores_every_identifier_witness :
  dom (circolare (insertCirculars listed 25 steady_store emptyStore).1.1)
  = dom (circolare emptyStore) ∪ list_to_set (parsedCircIds listed).
Proof.
  assert (E : insertCirculars listed 25 steady_store emptyStore
              = ((insertCirculars listed 25 steady_store emptyStore).1.1, None,
                 (insertCirculars listed 25 steady_store emptyStore).2)).
  { vm_compute. reflexivity. }
  exact (proj1 (insertCirculars_stores_every_identifier _ _ _ _ _ _ E)).
Defined.

Lemma elem_of_parsedCircIds k cs :
  k ∈ parsedCircIds cs -> exists i c, cs !! i = Some c /\ Id c = k.
Proof.
  unfold parsedCircIds. intros H.
  apply list_elem_of_In, in_map_iff in H as (c & <- & Hc).
  apply list_elem_of_In, list_elem_of_lookup in Hc as [i Hi]. eauto.
Qed.

Lemma elem_of_parsedAttachIds k cs :
  k ∈ parsedAttachIds cs ->
  exists i c a, cs !! i = Some c /\ a ∈ Attachments c /\ att_Id a = k.
Proof.
  unfold parsedAttachIds. intros H.
  apply list_elem_of_In, in_flat_map in H as (c & Hc & Ha).
  apply in_map_iff in Ha as (a & <- & Ha).
  apply list_elem_of_In, list_elem_of_lookup in Hc as [i Hi].
  exists i, c, a. split; [assumption|]. split; [by apply list_elem_of_In | reflexivity].
Qed.

Lemma database_eq (a b : database) :
  circolare a = circolare b -> circolare_allegato a = circolare_allegato b -> a = b.
Proof. destruct a, b. simpl. by intros -> ->. Qed.

(** X13.  With identifiers unique within the extraction, writing the same
    extraction a second time changes nothing: when both writes return no
    error, the store after the second is the store after the first. *)
Theorem insertCirculars_twice circulars n env1 env2 db db1 db2 tr1 tr2 :
  NoDup (parsedCircIds circulars) -> NoDup (parsedAttachIds circulars) ->
  insertCirculars circulars n env1 db = (db1, None, tr1) ->
  insertCirculars circulars n env2 db1 = (db2, None, tr2) ->
  db2 = db1.
Proof.
  intros Hc Ha H1 H2.
  apply insertCirculars_success_inv in H1 as (t1 & E1 & -> & _).
  apply insertCirculars_success_inv in H2 as (t2 & E2 & -> & _).
  apply database_eq; apply map_eq; intros k.
  - destruct (decide (k ∈ parsedCircIds circulars)) as [Hin|Hout].
    + apply elem_of_parsedCircIds in Hin as (i & c & Hi & <-).
      destruct (insertLoop_circolare_at _ _ _ _ _ _ _ _ E1 Hc Hi) as [ts1 L1].
      destruct (insertLoop_circolare_at _ _ _ _ _ _ _ _ E2 Hc Hi) as [ts2 L2].
      simpl in L1, L2. rewrite insertCircolare_lookup in L2.
      rewrite L2, L1, insertCircolare_lookup.
      destruct (circolare db !! Id c), (queryKind n i); reflexivity.
    + by rewrite (insertLoop_circolare_other _ _ _ _ _ _ _ _ E2 Hout).
  - destruct (decide (k ∈ parsedAttachIds circulars)) as [Hin|Hout].
    + apply elem_of_parsedAttachIds in Hin as (i & c & a & Hi & Hat & <-).
      pose proof (insertLoop_allegato_at _ _ _ _ _ _ _ _ _ E1 Ha Hi Hat) as L1.
      pose proof (insertLoop_allegato_at _ _ _ _ _ _ _ _ _ E2 Ha Hi Hat) as L2.
      simpl in L1, L2. rewrite insertAllegato_lookup in L2.
      rewrite L2, L1, insertAllegato_lookup.
      destruct (circolare_allegato db !! att_Id a), (queryKind n i); reflexivity.
    + by rewrite (insertLoop_allegato_other _ _ _ _ _ _ _ _ E2 Hout).
Qed.

Lemma insertCirculars_twice_witness :
  (insertCirculars listed 25 steady_store
     (insertCirculars listed 25 steady_store stored).1.1).1.1
  = (insertCirculars listed 25 steady_store stored).1.1.
Proof.
  assert (Hc : NoDup (parsedCircIds listed)).
  { apply (bool_decide_unpack _). vm_compute. exact I. }
  assert (Ha : NoDup (parsedAttachIds listed)).
  { apply (bool_decide_unpack _). vm_compute. exact I. }
  set (db1 := (insertCirculars listed 25 steady_store stored).1.1).
  assert (E1 : insertCirculars listed 25 steady_store stored
               = (db1, None, (insertCirculars listed 25 steady_store stored).2)).
  { vm_compute. reflexivity. }
  assert (E2 : insertCirculars listed 25 steady_store db1
               = ((insertCirculars listed 25 steady_store db1).1.1, None,
                  (insertCirculars listed 25 steady_store db1).2)).
  { vm_compute. reflexivity. }
  exact (insertCirculars_twice _ _ _ _ _ _ _ _ _ Hc Ha E1 E2).
Defined.

(** ** Sync Engine: what a cleanup removes and what it leaves *)

Lemma removalCandidates_elem current persisted removed id :
  removalCandidates current persisted = Done removed ->
  id ∈ removed <-> id ∈ persisted /\ id ∉ current.
Proof.
  intros H. pose proof (removalCandidates_done_inv _ _ _ H) as Hall.
  rewrite (removalCandidates_difference _ _ Hall) in H. injection H as <-.
  rewrite list_elem_of_filter. tauto.
Qed.

Lemma deleteAll_allegato env ids t :
  let t' := deleteAll env DeleteAllegato ids t in
  circolare (work t') = circolare (work t) /\
  (forall id, id ∉ ids ->
     circolare_allegato (work t') !! id = circolare_allegato (work t) !! id) /\
  (forall id r, circolare_allegato (work t') !! id = Some r ->
     circolare_allegato (work t) !! id = Some r) /\
  ((forall k, length (sent t) <= k -> stmt_ok env k = true) ->
   forall id, id ∈ ids -> circolare_allegato (work t') !! id = None).
Proof.
  revert t. induction ids as [|x ids IH]; intros t; simpl.
  - repeat split; auto. intros _ id Hid. by apply elem_of_nil in Hid.
  - unfold deleteAll in *. simpl.
    destruct (Exec env t (DeleteAllegato x)) as [t1 r] eqn:E. simpl.
    destruct (IH t1) as (Hc & Hf & Hs & Hok).
    apply Exec_inv in E as (Es & E).
    assert (Hc1 : circolare (work t1) = circolare (work t)).
    { destruct r; [destruct E as (_ & -> & _) | destruct E as (_ & ->)]; reflexivity. }
    assert (Hs1 : forall id r0, circolare_allegato (work t1) !! id = Some r0 ->
                   circolare_allegato (work t) !! id = Some r0).
    { intros id r0. destruct r; [destruct E as (_ & -> & _); auto|].
      destruct E as (_ & ->). simpl. intros H.
      apply lookup_delete_Some in H. tauto. }
    assert (Hf1 : forall id, id <> x ->
                   circolare_allegato (work t1) !! id
                   = circolare_allegato (work t) !! id).
    { intros id Hne. destruct r; [destruct E as (_ & -> & _); auto|].
      destruct E as (_ & ->). simpl. by apply lookup_delete_ne. }
    split; [congruence|]. split; [|split].
    + intros id Hid. apply not_elem_of_cons in Hid as [Hne Hid].
      rewrite Hf by assumption. by apply Hf1.
    + intros id r0 H. eauto.
    + intros Hall id Hid.
      assert (Hall1 : forall k, length (sent t1) <= k -> stmt_ok env k = true).
      { intros k Hk. apply Hall. rewrite Es, length_app in Hk. simpl in Hk. lia. }
      destruct (decide (id ∈ ids)) as [Hin|Hout]; [by apply Hok|].
      apply elem_of_cons in Hid as [-> | Hid]; [|contradiction].
      rewrite Hf by assumption.
      destruct r as [e|]; [destruct E as (Hbad & _); rewrite Hall in Hbad by lia;
                           discriminate|].
      destruct E as (_ & ->). simpl. apply lookup_delete_eq.
Qed.

Lemma deleteAll_circolare env ids t :
  let t' := deleteAll env DeleteCircolare ids t in
  circolare_allegato (work t') = circolare_allegato (work t) /\
  (forall id, id ∉ ids -> circolare (work t') !! id = circolare (work t) !! id) /\
  (forall id r, circolare (work t') !! id = Some r ->
     circolare (work t) !! id = Some r) /\
  ((forall k, length (sent t) <= k -> stmt_ok env k = true) ->
   forall id, id ∈ ids -> circolare (work t') !! id = None).
Proof.
  revert t. induction ids as [|x ids IH]; intros t; simpl.
  - repeat split; auto. intros _ id Hid. by apply elem_of_nil in Hid.
  - unfold deleteAll in *. simpl.
    destruct (Exec env t (DeleteCircolare x)) as [t1 r] eqn:E. simpl.
    destruct (IH t1) as (Hc & Hf & Hs & Hok).
    apply Exec_inv in E as (Es & E).
    assert (Hc1 : circolare_allegato (work t1) = circolare_allegato (work t)).
    { destruct r; [destruct E as (_ & -> & _) | destruct E as (_ & ->)]; reflexivity. }
    assert (Hs1 : forall id r0, circolare (work t1) !! id = Some r0 ->
                   circolare (work t) !! id = Some r0).
    { intros id r0. destruct r; [destruct E as (_ & -> & _); auto|].
      destruct E as (_ & ->). simpl. intros H.
      apply lookup_delete_Some in H. tauto. }
    assert (Hf1 : forall id, id <> x ->
                   circolare (work t1) !! id = circolare (work t) !! id).
    { intros id Hne. destruct r; [destruct E as (_ & -> & _); auto|].
      destruct E as (_ & ->). simpl. by apply lookup_delete_ne. }
    split; [congruence|]. split; [|split].
    + intros id Hid. apply not_elem_of_cons in Hid as [Hne Hid].
      rewrite Hf by assumption. by apply Hf1.
    + intros id r0 H. eauto.
    + intros Hall id Hid.
      assert (Hall1 : forall k, length (sent t1) <= k -> stmt_ok env k = true).
      { intros k Hk. apply Hall. rewrite Es, length_app in Hk. simpl in Hk. lia. }
      destruct (decide (id ∈ ids)) as [Hin|Hout]; [by apply Hok|].
      apply elem_of_cons in Hid as [-> | Hid]; [|contradiction].
      rewrite Hf by assumption.
      destruct r as [e|]; [destruct E as (Hbad & _); rewrite Hall in Hbad by lia;
                           discriminate|].
      destruct E as (_ & ->). simpl. apply lookup_delete_eq.
Qed.

(** The shape of a cleanup that returns: either nothing was committed and
    the store is as before, or the two delete loops ran over the
    candidates of the Reconciler. *)
Lemma deleteRemovedCirculars_done_inv circulars env db db' rc ra err trace :
  deleteRemovedCirculars circulars env db = Done (db', (rc, ra, err), trace) ->
  (db' = db /\ rc = 0 /\ ra = 0 /\ err <> None) \/
  exists idsCirc idsAttach,
    removalCandidates (parsedCircIds circulars)
      (sortDesc (elements (dom (circolare db)))) = Done idsCirc /\
    removalCandidates (parsedAttachIds circulars)
      (sortDesc (elements (dom (circolare_allegato db)))) = Done idsAttach /\
    db' = work (deleteAll env DeleteCircolare idsCirc
                  (deleteAll env DeleteAllegato idsAttach
                     (mkTx db [SelectCircolareIds; SelectAllegatoIds]))) /\
    rc = length idsCirc /\ ra = length idsAttach /\ err = None /\
    commit_ok env = true.
Proof.
  unfold deleteRemovedCirculars, Query. simpl.
  destruct (open_ok env); simpl; [|intros [= <- <- <- <- _]; by left].
  destruct (ping_ok env); simpl; [|intros [= <- <- <- <- _]; by left].
  destruct (begin_ok env); simpl; [|intros [= <- <- <- <- _]; by left].
  destruct (stmt_ok env 0); [|discriminate].
  destruct (stmt_ok env 1); [|discriminate].
  fold (removalCandidates (parsedCircIds circulars)
          (sortDesc (elements (dom (circolare db))))).
  fold (removalCandidates (parsedAttachIds circulars)
          (sortDesc (elements (dom (circolare_allegato db))))).
  destruct (removalCandidates (parsedCircIds circulars) _) as [idsCirc|]; [|discriminate].
  destruct (removalCandidates (parsedAttachIds circulars) _) as [idsAttach|]; [|discriminate].
  simpl. destruct (commit_ok env).
  - intros [= <- <- <- <- _]. right. exists idsCirc, idsAttach. by repeat split.
  - intros [= <- <- <- <- _]. by left.
Qed.

Lemma cleanup_spares_current circulars env db db' r trace :
  deleteRemovedCirculars circulars env db = Done (db', r, trace) ->
  onlyRemoves db db' /\
  (forall id, id ∈ parsedCircIds circulars ->
     circolare db' !! id = circolare db !! id) /\
  (forall id, id ∈ parsedAttachIds circulars ->
     circolare_allegato db' !! id = circolare_allegato db !! id).
Proof.
  destruct r as [[rc ra] err]. intros H.
  apply deleteRemovedCirculars_done_inv in H
    as [(-> & _) | (ic & ia & Hc & Ha & -> & _)].
  { by repeat split. }
  set (t0 := mkTx db [SelectCircolareIds; SelectAllegatoIds]).
  destruct (deleteAll_allegato env ia t0) as (A1 & A2 & A3 & _).
  destruct (deleteAll_circolare env ic (deleteAll env DeleteAllegato ia t0))
    as (C1 & C2 & C3 & _).
  split; [split|split].
  - intros id r H. apply C3 in H. by rewrite A1 in H.
  - intros id r H. rewrite C1 in H. by apply A3 in H.
  - intros id Hid. rewrite C2, A1; [reflexivity|].
    intros Hin. apply (removalCandidates_elem _ _ _ id Hc) in Hin. tauto.
  - intros id Hid. rewrite C1, A2; [reflexivity|].
    intros Hin. apply (removalCandidates_elem _ _ _ id Ha) in Hin. tauto.
Qed.

(** X14.  Whatever the outcome of the individual deletions, a cleanup that
    returns has only removed rows: every row left in the store was there
    before, unchanged; and no circular or attachment whose identifier is
    in the current extraction has been touched. *)
Theorem deleteRemovedCirculars_spares_current circulars env db db' r trace :
  deleteRemovedCirculars circulars env db = Done (db', r, trace) ->
  onlyRemoves db db' /\
  (forall id, id ∈ parsedCircIds circulars ->
     circolare db' !! id = circolare db !! id) /\
  (forall id, id ∈ parsedAttachIds circulars ->
     circolare_allegato db' !! id = circolare_allegato db !! id).
Proof. apply cleanup_spares_current. Qed.

Lemma deleteRemovedCirculars_spares_current_witness :
  circolare cleaned !! 9%N = circolare stored !! 9%N.
Proof.
  assert (E : deleteRemovedCirculars listed steady_store stored
              = Done (cleaned, (1, 2, None),
                      [SelectCircolareIds; SelectAllegatoIds;
                       DeleteAllegato 8; DeleteAllegato 7; DeleteCircolare 5])).
  { vm_compute. reflexivity. }
  destruct (deleteRemovedCirculars_spares_current _ _ _ _ _ _ E) as (_ & H & _).
  apply H. apply list_elem_of_here.
Defined.

Lemma cleanup_reconciles circulars env db db' rc ra trace :
  deleteRemovedCirculars circulars env db = Done (db', (rc, ra, None), trace) ->
  (forall k, stmt_ok env k = true) ->
  (forall id, circolare db' !! id
              = if decide (id ∈ parsedCircIds circulars)
                then circolare db !! id else None) /\
  (forall id, circolare_allegato db' !! id
              = if decide (id ∈ parsedAttachIds circulars)
                then circolare_allegato db !! id else None) /\
  length trace = 2 + rc + ra.
Proof.
  intros H Hok. pose proof H as Hrun.
  apply deleteRemovedCirculars_done_inv in H
    as [(_ & _ & _ & Hn) | (ic & ia & Hc & Ha & -> & -> & -> & _)]; [congruence|].
  pose proof (cleanup_spares_current _ _ _ _ _ _ Hrun) as (_ & Hkc & Hka).
  set (t0 := mkTx db [SelectCircolareIds; SelectAllegatoIds]) in *.
  destruct (deleteAll_allegato env ia t0) as (A1 & A2 & A3 & A4).
  destruct (deleteAll_circolare env ic (deleteAll env DeleteAllegato ia t0))
    as (C1 & C2 & C3 & C4).
  split; [|split].
  - intros id. destruct (decide _) as [Hin|Hout]; [by apply Hkc|].
    destruct (circolare db !! id) as [row|] eqn:El.
    + apply C4; [auto|]. apply (removalCandidates_elem _ _ _ id Hc).
      split; [|assumption]. apply sortDesc_elem, elem_of_elements, elem_of_dom. eauto.
    + match goal with
      | |- ?x = None => destruct x as [row|] eqn:El'; [|reflexivity]
      end.
      apply C3 in El'. rewrite A1 in El'. simpl in El'. congruence.
  - intros id. destruct (decide _) as [Hin|Hout]; [by apply Hka|].
    rewrite C1.
    destruct (circolare_allegato db !! id) as [row|] eqn:El.
    + apply A4; [auto|]. apply (removalCandidates_elem _ _ _ id Ha).
      split; [|assumption]. apply sortDesc_elem, elem_of_elements, elem_of_dom. eauto.
    + match goal with
      | |- ?x = None => destruct x as [row|] eqn:El'; [|reflexivity]
      end.
      apply A3 in El'. simpl in El'. congruence.
  - destruct (deleteRemovedCirculars_sent _ _ _ _ _ _ Hrun)
      as [-> | (ic' & ia' & Hc' & Ha' & ->)].
    + exfalso. unfold deleteRemovedCirculars, Query in Hrun. simpl in Hrun.
      destruct (open_ok env); simpl in Hrun; [|discriminate].
      destruct (ping_ok env); simpl in Hrun; [|discriminate].
      destruct (begin_ok env); simpl in Hrun; [|discriminate].
      rewrite !Hok in Hrun.
      destruct (idsToRemove _ _); simpl in Hrun; [|discriminate].
      destruct (idsToRemove _ _); simpl in Hrun; [|discriminate].
      destruct (commit_ok env); [|discriminate].
      injection Hrun as _ _ _ Ht. rewrite !deleteAll_sent in Ht. discriminate.
    + rewrite Hc in Hc'. rewrite Ha in Ha'. injection Hc' as <-. injection Ha' as <-.
      simpl. rewrite length_app, !length_map. lia.
Qed.

(** X15.  A cleanup that returns without error, in which every statement
    succeeded, leaves exactly the stored rows whose identifier is in the
    current extraction: each such row is unchanged, every other row is
    gone; and it reports as many removed circulars and attachments as the
    Reconciler returned candidates. *)
Theorem deleteRemovedCirculars_reconciles circulars env db db' rc ra trace :
  deleteRemovedCirculars circulars env db = Done (db', (rc, ra, None), trace) ->
  (forall k, stmt_ok env k = true) ->
  (forall id, circolare db' !! id
              = if decide (id ∈ parsedCircIds circulars)
                then circolare db !! id else None) /\
  (forall id, circolare_allegato db' !! id
              = if decide (id ∈ parsedAttachIds circulars)
                then circolare_allegato db !! id else None) /\
  length trace = 2 + rc + ra.
Proof. apply cleanup_reconciles. Qed.

Lemma deleteRemovedCirculars_reconciles_witness :
  circolare cleaned !! 5%N = None /\ circolare cleaned !! 1%N = circolare stored !! 1%N.
Proof.
  assert (E : deleteRemovedCirculars listed steady_store stored
              = Done (cleaned, (1, 2, None),
                      [SelectCircolareIds; SelectAllegatoIds;
                       DeleteAllegato 8; DeleteAllegato 7; DeleteCircolare 5])).
  { vm_compute. reflexivity. }
  assert (Hok : forall k, stmt_ok steady_store k = true) by reflexivity.
  destruct (deleteRemovedCirculars_reconciles _ _ _ _ _ _ _ E Hok) as (H & _ & _).
  split; [exact (H 5%N) | exact (H 1%N)].
Defined.

(** X16.  A cleanup that returns an error has committed nothing: the
    store is as it was and the reported counts are zero.  The error is one
    of opening the connection, pinging, beginning (nothing was sent) or
    committing; a failed deletion is never reported. *)
Theorem deleteRemovedCirculars_error_keeps_store circulars env db db' rc ra err trace :
  deleteRemovedCirculars circulars env db = Done (db', (rc, ra, Some err), trace) ->
  db' = db /\ rc = 0 /\ ra = 0 /\
  ((err = ErrOpen \/ err = ErrPing \/ err = ErrBegin) /\ trace = []
   \/ err = ErrCommit /\ commit_ok env = false).
Proof.
  intros H. pose proof H as Hrun.
  apply deleteRemovedCirculars_done_inv in H as [(-> & -> & -> & _) | (? & ? & H)];
    [|destruct H as (_ & _ & _ & _ & _ & H & _); discriminate].
  repeat split; try reflexivity.
  unfold deleteRemovedCirculars, Query in Hrun. simpl in Hrun.
  destruct (open_ok env); simpl in Hrun; [|injection Hrun as <- <-; left; tauto].
  destruct (ping_ok env); simpl in Hrun; [|injection Hrun as <- <-; left; tauto].
  destruct (begin_ok env); simpl in Hrun; [|injection Hrun as <- <-; left; tauto].
  destruct (stmt_ok env 0); [|discriminate].
  destruct (stmt_ok env 1); [|discriminate].
  destruct (idsToRemove _ _); simpl in Hrun; [|discriminate].
  destruct (idsToRemove _ _); simpl in Hrun; [|discriminate].
  destruct (commit_ok env); [discriminate|].
  injection Hrun as <- _. right. by split.
Qed.

Lemma deleteRemovedCirculars_error_keeps_store_witness :
  deleteRemovedCirculars listed
    (mkStore true false true (fun _ => true) true (fun _ => "t")) stored
  = Done (stored, (0, 0, Some ErrPing), []) /\
  ((ErrPing = ErrOpen \/ ErrPing = ErrPing \/ ErrPing = ErrBegin)
   /\ @nil statement = []
   \/ ErrPing = ErrCommit /\ true = false).
Proof.
  assert (E : deleteRemovedCirculars listed
                (mkStore true false true (fun _ => true) true (fun _ => "t")) stored
              = Done (stored, (0, 0, Some ErrPing), [])) by reflexivity.
  split; [exact E|].
  exact (proj2 (proj2 (proj2
           (deleteRemovedCirculars_error_keeps_store _ _ _ _ _ _ _ _ E)))).
Defined.

(** ** The worker: startup, the schedule, the store across a pass *)

Lemma Truncate_bounds t d : (0 < d)%Z -> (Truncate t d <= t < Truncate t d + d)%Z.
Proof.
  intros Hd. unfold Truncate. destruct (Z.leb_spec d 0); [lia|].
  pose proof (Z.mod_pos_bound t d Hd). lia.
Qed.

Lemma Truncate_multiple t d : (0 < d)%Z -> (Truncate t d mod d = 0)%Z.
Proof.
  intros Hd. unfold Truncate. destruct (Z.leb_spec d 0); [lia|].
  rewrite Zminus_mod, Z.mod_mod, Z.sub_diag by lia. apply Z.mod_0_l. lia.
Qed.

Lemma parseAttachments_log id markers :
  Forall (fun l => isRowEntry l = true) (snd (parseAttachments id markers)).
Proof.
  destruct (parseAttachments id markers) as [atts logs] eqn:E.
  destruct (parseAttachments_spec _ _ _ _ E) as (_ & Hl & _). simpl.
  eapply Forall_impl; [exact Hl|]. simpl. by intros l ->.
Qed.

Lemma parseRow_log row o logs :
  parseRow row = Done (o, logs) -> Forall (fun l => isRowEntry l = true) logs.
Proof.
  unfold parseRow.
  destruct (SelAttr _ _) as [idStr [|]]; [|intros [= _ <-]; constructor].
  destruct (ParseUint idStr) as [id|]; [|intros [= _ <-]; by repeat constructor].
  destruct (String.eqb _ _); [intros [= _ <-]; by repeat constructor|].
  destruct (findNodeWithContext "Categoria" _) as [[cat [|]]|]; simpl;
    try discriminate; [|intros [= _ <-]; by repeat constructor].
  destruct (findNodeWithContext "Pubblicato il" _) as [[pub [|]]|]; simpl;
    try discriminate; [|intros [= _ <-]; by repeat constructor].
  destruct pub as [pub|]; simpl; [|discriminate].
  destruct (parseDate (Data pub)); [|intros [= _ <-]; by repeat constructor].
  destruct (findNodeWithContext "Valido fino" _) as [[val [|]]|]; simpl;
    try discriminate; [|intros [= _ <-]; by repeat constructor].
  destruct val as [val|]; simpl; [|discriminate].
  destruct (parseDate (Data val)); [|intros [= _ <-]; by repeat constructor].
  pose proof (parseAttachments_log id
                (Find (Eq (Find [row] (byTag "td")) 1) (byClass "link-to-file"))) as Hl.
  destruct (parseAttachments _ _) as [atts alogs].
  destruct cat; simpl; [|discriminate]. by intros [= _ <-].
Qed.

Lemma parseRows_log rows cs logs :
  parseRows rows = Done (cs, logs) -> Forall (fun l => isRowEntry l = true) logs.
Proof.
  revert cs logs. induction rows as [|row rows IH]; intros cs logs; simpl.
  - intros [= _ <-]. constructor.
  - destruct (parseRow row) as [[o rl]|] eqn:Er; simpl; [|discriminate].
    destruct (parseRows rows) as [[cs0 logs0]|]; simpl; [|discriminate].
    intros [= _ <-]. apply Forall_app. split; [by eapply parseRow_log | eauto].
Qed.

Lemma rowEntries_exclude (l : log_entry) rowLog :
  Forall (fun l => isRowEntry l = true) rowLog -> isRowEntry l = false -> l ∉ rowLog.
Proof.
  intros H Hl Hin. rewrite Forall_forall in H. specialize (H _ Hin). congruence.
Qed.

Lemma startup_configuredAs os cfg : startup os = Done cfg <-> configuredAs os cfg.
Proof.
  unfold startup, configuredAs, loadConfiguration. destruct cfg as [cs su pt].
  simpl. split.
  - destruct (LookupEnv os "CIRCULARS_DB_CONNECTION_STRING") as [c|]; simpl.
    + destruct (LookupEnv os "CIRCULARS_SITE_URL"); simpl; [|discriminate].
      destruct (LookupEnv os "CIRCULARS_CYCLE_WAIT") as [w|]; simpl; [|discriminate].
      destruct (ParseDuration os w) eqn:Ew; simpl; [|discriminate].
      intros [= -> -> ->]. split; [by left|]. split; [reflexivity|]. by exists w.
    + destruct (length (Args os) <? 2)%nat; [discriminate|].
      unfold index. destruct (Args os !! 1) as [file|]; simpl; [|discriminate].
      destruct (OpenFile os file) as [content|] eqn:Eo; simpl; [|discriminate].
      destruct (DecodeConfig os content) as [[[c]|]|] eqn:Ed; simpl; try discriminate.
      destruct (LookupEnv os "CIRCULARS_SITE_URL"); simpl; [|discriminate].
      destruct (LookupEnv os "CIRCULARS_CYCLE_WAIT") as [w|]; simpl; [|discriminate].
      destruct (ParseDuration os w) eqn:Ew; simpl; [|discriminate].
      intros [= -> -> ->].
      split; [right; split; [reflexivity|by exists file, content]|].
      split; [reflexivity|]. by exists w.
  - intros (Hc & -> & w & -> & Hw). simpl. rewrite Hw.
    destruct Hc as [-> | (-> & file & content & Hf & Ho & Hd)]; simpl; [reflexivity|].
    destruct (Nat.ltb_spec (length (Args os)) 2) as [Hlt|_].
    { apply lookup_lt_Some in Hf. lia. }
    unfold index. rewrite Hf. simpl. by rewrite Ho, Hd.
Qed.

Lemma startup_nilConfiguration os :
  startup os = Abort NilDereference <-> nilConfiguration os.
Proof.
  split.
  - intros H. destruct (startup_outcome os) as [[cfg Hc] | [Hf | [_ Hn]]];
      [congruence | congruence | exact Hn].
  - unfold startup, nilConfiguration, loadConfiguration.
    intros (-> & file & content & Hf & Ho & Hd). simpl.
    destruct (Nat.ltb_spec (length (Args os)) 2) as [Hlt|_].
    { apply lookup_lt_Some in Hf. lia. }
    unfold index. rewrite Hf. simpl. by rewrite Ho, Hd.
Qed.

(** X17.  [main] reaches its loop exactly when the surroundings offer a
    configuration, and then with that one: a connection string set in the
    environment is used and the command line is not looked at; the file
    named by the first argument is read only when the variable is not
    set.  When that file opens and decodes without error to a nil
    configuration (a file holding [null]), [loadConfiguration] returns
    nil and no error, and [main] ends with a nil dereference on
    [dbConfig.ConnectionString], whatever the rest of the environment
    holds.  In every other case the process ends by [log.Fatal]; the
    unguarded-looking [os.Args[1]] never faults. *)
Theorem startup_configuration os :
  (forall cfg, startup os = Done cfg <-> configuredAs os cfg) /\
  (startup os = Abort NilDereference <-> nilConfiguration os) /\
  ((forall cfg, ~ configuredAs os cfg) -> ~ nilConfiguration os ->
   startup os = Abort FatalExit).
Proof.
  split; [apply startup_configuredAs|]. split; [apply startup_nilConfiguration|].
  intros Hn Hnil. destruct (startup_outcome os) as [[cfg H] | [H | [_ H]]].
  - apply startup_configuredAs in H. by apply Hn in H.
  - exact H.
  - by apply Hnil in H.
Qed.

Lemma startup_configuration_witness :
  startup deployedWithFile
  = Done (mkConfig "user:pass@/db" "https://example.org/" fiveMinutes) /\
  startup deployedWithNull = Abort NilDereference.
Proof.
  split.
  - apply (proj1 (startup_configuration deployedWithFile)).
    split; [right; split; [reflexivity|]|split; [reflexivity|]].
    + exists "sqlcredentials.json", "{...}". repeat split; reflexivity.
    + exists "5m". split; reflexivity.
  - apply (proj1 (proj2 (startup_configuration deployedWithNull))).
    split; [reflexivity|].
    exists "sqlcredentials.json", "null". repeat split; reflexivity.
Defined.

(** The ways a pass can end when the loop goes round again. *)
Lemma cycle_continue_inv e s db cfg s' db' log :
  cycle e s db cfg = Done (Continue s' db' log) ->
  let nt := (Truncate (nextTime s) Minute + parseTimeout cfg)%Z in
  nextTime s' = nt /\
  ((exists err, log = [InfoGetting; ErrCycle err]
                /\ db' = db /\ nextCleanupTime s' = nextCleanupTime s)
   \/ (log = [InfoGetting; InfoParsing; ErrCycle ErrMarkup]
       /\ db' = db /\ nextCleanupTime s' = nextCleanupTime s)
   \/ exists html doc circulars rowLog,
        fst (getCirculars (upstream e)) = Corpus html /\
        NewDocumentFromReader e html = Some doc /\
        parseDocument doc = Done (circulars, rowLog) /\
        Forall (fun l => isRowEntry l = true) rowLog /\
        let log1 := [InfoGetting; InfoParsing] ++ rowLog
                    ++ [InfoParsed (length circulars); InfoUpdating] in
        ((exists err tr,
            insertCirculars circulars 25 (write_store e) db = (db', Some err, tr) /\
            log = log1 ++ [ErrCycle err] /\
            nextCleanupTime s' = nextCleanupTime s)
         \/ exists db1 tr,
              insertCirculars circulars 25 (write_store e) db = (db1, None, tr) /\
              (((nt <= nextCleanupTime s)%Z /\ db' = db1 /\
                log = log1 ++ [InfoUpdated; InfoWaiting] /\
                nextCleanupTime s' = nextCleanupTime s)
               \/ (nextCleanupTime s < nt)%Z /\
                  nextCleanupTime s' = (Truncate nt Hour + 6 * Hour)%Z /\
                  exists rc ra err tr',
                    deleteRemovedCirculars circulars (cleanup_store e) db1
                    = Done (db', (rc, ra, err), tr') /\
                    log = log1 ++ [InfoUpdated] ++ cleanupLog rc ra err))).
Proof.
  intros H nt. unfold cycle in H. fold nt in H.
  destruct (fst (getCirculars (upstream e))) as [html|err|] eqn:Eg;
    [| |discriminate].
  2: { injection H as <- <- <-. split; [reflexivity|]. left. by exists err. }
  destruct (NewDocumentFromReader e html) as [doc|] eqn:Ed.
  2: { injection H as <- <- <-. split; [reflexivity|]. right. by left. }
  destruct (parseDocument doc) as [[circulars rowLog]|] eqn:Ep; simpl in H;
    [|discriminate].
  pose proof (parseRows_log _ _ _ Ep) as Hrl.
  destruct (insertCirculars circulars 25 (write_store e) db)
    as [[db1 [err|]] tr] eqn:Ei.
  { injection H as <- <- <-. split; [reflexivity|]. right. right.
    exists html, doc, circulars, rowLog. repeat (split; [assumption||reflexivity|]).
    left. by exists err, tr. }
  destruct (Z.ltb_spec (nextCleanupTime s) nt) as [Hdue|Hnot].
  - destruct (deleteRemovedCirculars circulars (cleanup_store e) db1)
      as [[[db2 [[rc ra] err]] tr']|] eqn:Ec; simpl in H; [|discriminate].
    assert (s' = mkLoop nt (Truncate nt Hour + 6 * Hour)%Z /\ db' = db2 /\
            log = ([InfoGetting; InfoParsing] ++ rowLog
                   ++ [InfoParsed (length circulars); InfoUpdating])
                  ++ [InfoUpdated] ++ cleanupLog rc ra err) as (-> & -> & ->).
    { destruct err; injection H as <- <- <-; by repeat split. }
    split; [reflexivity|]. right. right.
    exists html, doc, circulars, rowLog. repeat (split; [assumption||reflexivity|]).
    right. exists db1, tr. split; [assumption|]. right.
    split; [assumption|]. split; [reflexivity|]. by exists rc, ra, err, tr'.
  - injection H as <- <- <-. split; [reflexivity|]. right. right.
    exists html, doc, circulars, rowLog. repeat (split; [assumption||reflexivity|]).
    right. exists db1, tr. split; [assumption|]. left. by repeat split.
Qed.

Lemma passLog_excludes rowLog n (l : log_entry) :
  Forall (fun l => isRowEntry l = true) rowLog ->
  isRowEntry l = false ->
  l <> InfoGetting -> l <> InfoParsing -> l <> InfoParsed n -> l <> InfoUpdating ->
  l ∉ [InfoGetting; InfoParsing] ++ rowLog ++ [InfoParsed n; InfoUpdating].
Proof.
  intros Hr Hl H1 H2 H3 H4 Hin.
  apply elem_of_app in Hin as [Hin|Hin]; [set_solver|].
  apply elem_of_app in Hin as [Hin|Hin]; [|set_solver].
  by apply (rowEntries_exclude l rowLog Hr Hl).
Qed.

Lemma Truncate_Hour_ahead t :
  let c := (Truncate t Hour + 6 * Hour)%Z in
  (c mod Hour = 0 /\ t + 5 * Hour < c <= t + 6 * Hour)%Z.
Proof.
  intros c. subst c. assert (Hh : (0 < Hour)%Z) by reflexivity.
  pose proof (Truncate_bounds t Hour Hh). pose proof (Truncate_multiple t Hour Hh).
  split; [|lia]. rewrite Z.mod_add by lia. assumption.
Qed.

(** X18.  The schedule of the loop.  Every pass that hands back to the
    loop moves the wake time to the start of the minute of the previous
    one plus the cycle period, whether the pass failed or not; with a
    period of a minute or more the wake time moves forward.  The cleanup
    is started exactly in the passes whose write succeeded and whose new
    wake time is after the cleanup time; starting it moves the cleanup
    time to a full hour more than five and at most six hours after the
    new wake time, also when the cleanup then fails; no other pass
    changes the cleanup time. *)
Theorem cycle_schedule e s db cfg s' db' log :
  cycle e s db cfg = Done (Continue s' db' log) ->
  nextTime s' = (Truncate (nextTime s) Minute + parseTimeout cfg)%Z /\
  ((Minute <= parseTimeout cfg)%Z -> (nextTime s < nextTime s')%Z) /\
  (InfoRemoving ∈ log <->
   InfoUpdated ∈ log /\ (nextCleanupTime s < nextTime s')%Z) /\
  (InfoRemoving ∈ log ->
   nextCleanupTime s' = (Truncate (nextTime s') Hour + 6 * Hour)%Z /\
   (nextCleanupTime s' mod Hour = 0)%Z /\
   (nextTime s' + 5 * Hour < nextCleanupTime s' <= nextTime s' + 6 * Hour)%Z) /\
  (InfoRemoving ∉ log -> nextCleanupTime s' = nextCleanupTime s).
Proof.
  intros H. apply cycle_continue_inv in H as [Hnt H]. cbv zeta in H.
  split; [exact Hnt|]. split.
  { intros Hp. rewrite Hnt.
    pose proof (Truncate_bounds (nextTime s) Minute eq_refl). lia. }
  destruct H as [(err & -> & _ & Hc) | [(-> & _ & Hc)
    | (html & doc & circulars & rowLog & _ & _ & _ & Hr & H)]].
  - split; [|split]; [set_solver | set_solver | done].
  - split; [|split]; [set_solver | set_solver | done].
  - assert (Hx : forall l, isRowEntry l = false -> l <> InfoGetting ->
                           l <> InfoParsing -> l <> InfoUpdating ->
                           (forall n, l <> InfoParsed n) ->
                           l ∉ [InfoGetting; InfoParsing] ++ rowLog
                               ++ [InfoParsed (length circulars); InfoUpdating]).
    { intros l H1 H2 H3 H4 H5.
      apply (passLog_excludes rowLog (length circulars) l); auto. }
    pose proof (Hx InfoRemoving eq_refl ltac:(done) ltac:(done) ltac:(done)
                  ltac:(done)) as Hrem.
    pose proof (Hx InfoUpdated eq_refl ltac:(done) ltac:(done) ltac:(done)
                  ltac:(done)) as Hupd.
    destruct H as [(err & tr & _ & -> & Hc)
      | (db1 & tr & _ & [(Hle & _ & -> & Hc) | (Hlt & Hc & rc & ra & err & tr' & _ & ->)])].
    + split; [|split]; [| |done].
      * split; [intros Hin|intros [Hin _]];
          apply elem_of_app in Hin as [Hin|Hin]; set_solver.
      * intros Hin. apply elem_of_app in Hin as [Hin|Hin]; set_solver.
    + split; [|split]; [| |done].
      * split; [intros Hin|intros [_ Hlt]; lia].
        apply elem_of_app in Hin as [Hin|Hin]; set_solver.
      * intros Hin. apply elem_of_app in Hin as [Hin|Hin]; set_solver.
    + assert (Hin : InfoRemoving
                    ∈ ([InfoGetting; InfoParsing] ++ rowLog
                         ++ [InfoParsed (length circulars); InfoUpdating])
                      ++ [InfoUpdated] ++ cleanupLog rc ra err).
      { apply elem_of_app. right. destruct err; set_solver. }
      split; [|split]; [| |done].
      * split; [intros _|done]. split; [set_solver|lia].
      * intros _. rewrite Hnt, Hc. split; [reflexivity|].
        apply Truncate_Hour_ahead.
Qed.

Lemma cycle_schedule_witness :
  InfoRemoving ∈ [InfoGetting; InfoParsing; InfoParsed 1; InfoUpdating; InfoUpdated;
                  InfoRemoving; InfoRemoved 1 0; InfoWaiting] <->
  InfoUpdated ∈ [InfoGetting; InfoParsing; InfoParsed 1; InfoUpdating; InfoUpdated;
                 InfoRemoving; InfoRemoved 1 0; InfoWaiting]
  /\ (0 < fiveMinutes)%Z.
Proof.
  assert (E : cycle steadyPass (mkLoop 0 0) staleStore deployedConfig
              = Done (Continue (mkLoop fiveMinutes (6 * Hour))
                        mirrored
                        [InfoGetting; InfoParsing; InfoParsed 1; InfoUpdating; InfoUpdated;
                         InfoRemoving; InfoRemoved 1 0; InfoWaiting])).
  { vm_compute. reflexivity. }
  exact (proj1 (proj2 (proj2 (cycle_schedule _ _ _ _ _ _ _ E)))).
Defined.

(** X19.  What a pass leaves in the log and in the store.  A pass logs
    [INFO: waiting] exactly when it logs no error of its own; and a pass
    that does not log [INFO: updated DB] - the fetch, the markup parse or
    the write failed - leaves the store as it found it and ends its log
    with the error. *)
Theorem cycle_log_and_store e s db cfg s' db' log :
  cycle e s db cfg = Done (Continue s' db' log) ->
  (InfoWaiting ∈ log <-> forall err, ErrCycle err ∉ log) /\
  (InfoUpdated ∉ log -> db' = db /\ exists err, last log = Some (ErrCycle err)).
Proof.
  intros H. apply cycle_continue_inv in H as [_ H]. cbv zeta in H.
  destruct H as [(err & -> & -> & _) | [(-> & -> & _)
    | (html & doc & circulars & rowLog & _ & _ & _ & Hr & H)]].
  - split; [split; [set_solver|]|intros _; split; [reflexivity|by exists err]].
    intros Hn. exfalso. apply (Hn err). set_solver.
  - split; [split; [set_solver|]|intros _; split; [reflexivity|by exists ErrMarkup]].
    intros Hn. exfalso. apply (Hn ErrMarkup). set_solver.
  - assert (Hx : forall l, isRowEntry l = false -> l <> InfoGetting ->
                           l <> InfoParsing -> l <> InfoUpdating ->
                           (forall n, l <> InfoParsed n) ->
                           l ∉ [InfoGetting; InfoParsing] ++ rowLog
                               ++ [InfoParsed (length circulars); InfoUpdating]).
    { intros l H1 H2 H3 H4 H5.
      apply (passLog_excludes rowLog (length circulars) l); auto. }
    pose proof (Hx InfoWaiting eq_refl ltac:(done) ltac:(done) ltac:(done)
                  ltac:(done)) as Hwait.
    assert (Herr : forall err,
               ErrCycle err ∉ [InfoGetting; InfoParsing] ++ rowLog
                              ++ [InfoParsed (length circulars); InfoUpdating]).
    { intros err. by apply Hx. }
    destruct H as [(err & tr & Hi & -> & _)
      | (db1 & tr & _ & [(_ & _ & -> & _) | (_ & _ & rc & ra & err & tr' & _ & ->)])].
    + split.
      * split.
        -- intros Hin. apply elem_of_app in Hin as [Hin|Hin]; set_solver.
        -- intros Hn. exfalso. apply (Hn err). set_solver.
      * intros _. split; [by eapply insertCirculars_error_keeps_store|].
        exists err. by rewrite last_snoc.
    + split.
      * split; [|set_solver]. intros _ err Hin.
        apply elem_of_app in Hin as [Hin|Hin]; [by apply (Herr err)|set_solver].
      * intros Hn. exfalso. apply Hn. set_solver.
    + split.
      * destruct err as [err|]; cbn [cleanupLog].
        -- split.
           ++ intros Hin. apply elem_of_app in Hin as [Hin|Hin]; set_solver.
           ++ intros Hn. exfalso. apply (Hn err). set_solver.
        -- split; [|set_solver]. intros _ err Hin.
           apply elem_of_app in Hin as [Hin|Hin]; [by apply (Herr err)|set_solver].
      * intros Hn. exfalso. apply Hn. set_solver.
Qed.

Lemma cycle_log_and_store_witness :
  staleStore = staleStore /\
  exists err, last [InfoGetting; ErrCycle ErrTransport] = Some (ErrCycle err).
Proof.
  assert (E : cycle transportFails (mkLoop 0 0) staleStore deployedConfig
              = Done (Continue (mkLoop fiveMinutes 0) staleStore
                        [InfoGetting; ErrCycle ErrTransport])).
  { vm_compute. reflexivity. }
  apply (proj2 (cycle_log_and_store _ _ _ _ _ _ _ E)).
  intros Hin. by repeat (apply elem_of_cons in Hin as [Hin|Hin]; [discriminate|]);
    apply elem_of_nil in Hin.
Defined.

(** X20.  A pass whose cleanup completed, every statement of the cleanup
    having succeeded, leaves the store a mirror of the page: the stored
    circulars are exactly the circulars extracted in that pass, and the
    stored attachments exactly their attachments. *)
Theorem cycle_mirrors_listing e s db cfg s' db' log rc ra :
  cycle e s db cfg = Done (Continue s' db' log) ->
  InfoRemoved rc ra ∈ log ->
  (forall k, stmt_ok (cleanup_store e) k = true) ->
  exists html doc circulars rowLog,
    fst (getCirculars (upstream e)) = Corpus html /\
    NewDocumentFromReader e html = Some doc /\
    parseDocument doc = Done (circulars, rowLog) /\
    dom (circolare db') = list_to_set (parsedCircIds circulars) /\
    dom (circolare_allegato db') = list_to_set (parsedAttachIds circulars).
Proof.
  intros H Hin Hok. apply cycle_continue_inv in H as [_ H]. cbv zeta in H.
  destruct H as [(err & -> & _) | [(-> & _)
    | (html & doc & circulars & rowLog & Hg & Hd & Hp & Hr & H)]];
    [set_solver | set_solver |].
  exists html, doc, circulars, rowLog. repeat (split; [assumption|]).
  assert (Hx : InfoRemoved rc ra ∉ [InfoGetting; InfoParsing] ++ rowLog
                 ++ [InfoParsed (length circulars); InfoUpdating]).
  { by apply passLog_excludes. }
  destruct H as [(err & tr & _ & -> & _)
    | (db1 & tr & Hi & [(_ & _ & -> & _) | (_ & _ & rc' & ra' & err & tr' & Hc & ->)])].
  { apply elem_of_app in Hin as [Hin|Hin]; set_solver. }
  { apply elem_of_app in Hin as [Hin|Hin]; set_solver. }
  destruct err as [err|].
  { apply elem_of_app in Hin as [Hin|Hin]; set_solver. }
  apply insertCirculars_success_inv in Hi as (t & Hl & -> & _).
  apply insertLoop_dom in Hl as [D1 D2].
  destruct (cleanup_reconciles _ _ _ _ _ _ _ Hc Hok) as (L1 & L2 & _).
  split; apply set_eq; intros id; rewrite elem_of_dom, elem_of_list_to_set.
  - rewrite L1. destruct (decide _) as [Hid|Hid].
    + split; [done|]. intros _. apply elem_of_dom. rewrite D1. set_solver.
    + split; [by intros [? ?]|done].
  - rewrite L2. destruct (decide _) as [Hid|Hid].
    + split; [done|]. intros _. apply elem_of_dom. rewrite D2. set_solver.
    + split; [by intros [? ?]|done].
Qed.

Lemma cycle_mirrors_listing_witness :
  exists html doc circulars rowLog,
    fst (getCirculars (upstream steadyPass)) = Corpus html /\
    NewDocumentFromReader steadyPass html = Some doc /\
    parseDocument doc = Done (circulars, rowLog) /\
    dom (circolare mirrored) = list_to_set (parsedCircIds circulars) /\
    dom (circolare_allegato mirrored) = list_to_set (parsedAttachIds circulars).
Proof.
  assert (E : cycle steadyPass (mkLoop 0 0) staleStore deployedConfig
              = Done (Continue (mkLoop fiveMinutes (6 * Hour)) mirrored
                        [InfoGetting; InfoParsing; InfoParsed 1; InfoUpdating; InfoUpdated;
                         InfoRemoving; InfoRemoved 1 0; InfoWaiting])).
  { vm_compute. reflexivity. }
  apply (cycle_mirrors_listing _ _ _ _ _ _ _ 1 0 E).
  - do 6 apply list_elem_of_further. apply list_elem_of_here.
  - reflexivity.
Defined.

(** ** The Reconciler, when it returns *)

(** X21.  The Reconciler returns exactly when every stored identifier has
    a current identifier that is not above it, and what it returns is then
    the stored identifiers that are not current, in the order and with the
    multiplicity of the stored list; the order of the current list plays
    no role. *)
Theorem removalCandidates_exact (current persisted removed : list N) :
  removalCandidates current persisted = Done removed <->
  Forall (fun p => Exists (fun c => (c <= p)%N) current) persisted /\
  removed = filter (fun p => p ∉ current) persisted.
Proof.
  split.
  - intros H. pose proof (removalCandidates_done_inv _ _ _ H) as Hc.
    split; [exact Hc|].
    rewrite (removalCandidates_difference _ _ Hc) in H. by injection H.
  - intros [Hc ->]. by apply removalCandidates_difference.
Qed.

Lemma removalCandidates_exact_witness :
  removalCandidates [1; 9]%N [9; 5; 1; 5]%N = Done [5; 5]%N.
Proof.
  apply (proj2 (removalCandidates_exact [1; 9]%N [9; 5; 1; 5]%N [5; 5]%N)).
  split; [|reflexivity].
  apply (bool_decide_unpack _). vm_compute. exact I.
Defined.

Lemma removalCandidates_nothing (current persisted : list N) :
  (forall p, p ∈ persisted -> p ∈ current) ->
  removalCandidates current persisted = Done [].
Proof.
  intros Hsub. rewrite removalCandidates_difference.
  - f_equal. induction persisted as [|p ps IH]; [reflexivity|].
    rewrite (filter_cons (fun p => p ∉ current) p ps).
    destruct (decide (p ∉ current)) as [Hn|_].
    + exfalso. apply Hn, Hsub. apply list_elem_of_here.
    + apply IH. intros q Hq. apply Hsub. by apply list_elem_of_further.
  - apply Forall_forall. intros p Hp. apply Exists_exists.
    exists p. split; [by apply Hsub | lia].
Qed.

(** X22.  The cleanup is idempotent.  After a cleanup that returned
    without error with every statement succeeding, a second cleanup
    against the same extraction whose two queries succeed always returns,
    sends no [DELETE], reports nothing removed and leaves the store as the
    first one left it. *)
Theorem deleteRemovedCirculars_twice circulars env1 env2 db db1 rc ra tr :
  deleteRemovedCirculars circulars env1 db = Done (db1, (rc, ra, None), tr) ->
  (forall k, stmt_ok env1 k = true) ->
  stmt_ok env2 0 = true -> stmt_ok env2 1 = true ->
  exists err tr2,
    deleteRemovedCirculars circulars env2 db1 = Done (db1, (0, 0, err), tr2) /\
    (tr2 = [] \/ tr2 = [SelectCircolareIds; SelectAllegatoIds]).
Proof.
  intros H Hok Q0 Q1.
  destruct (cleanup_reconciles _ _ _ _ _ _ _ H Hok) as (L1 & L2 & _).
  assert (Rc : removalCandidates (parsedCircIds circulars)
                 (sortDesc (elements (dom (circolare db1)))) = Done []).
  { apply removalCandidates_nothing. intros p Hp.
    apply (proj1 (sortDesc_elem _ _)), elem_of_elements, elem_of_dom in Hp.
    rewrite L1 in Hp. destruct (decide _); [assumption|]. by destruct Hp. }
  assert (Ra : removalCandidates (parsedAttachIds circulars)
                 (sortDesc (elements (dom (circolare_allegato db1)))) = Done []).
  { apply removalCandidates_nothing. intros p Hp.
    apply (proj1 (sortDesc_elem _ _)), elem_of_elements, elem_of_dom in Hp.
    rewrite L2 in Hp. destruct (decide _); [assumption|]. by destruct Hp. }
  unfold deleteRemovedCirculars, Query. simpl.
  destruct (open_ok env2); simpl; [|exists (Some ErrOpen), []; by split; [|left]].
  destruct (ping_ok env2); simpl; [|exists (Some ErrPing), []; by split; [|left]].
  destruct (begin_ok env2); simpl; [|exists (Some ErrBegin), []; by split; [|left]].
  rewrite Q0, Q1.
  fold (removalCandidates (parsedCircIds circulars)
          (sortDesc (elements (dom (circolare db1))))).
  fold (removalCandidates (parsedAttachIds circulars)
          (sortDesc (elements (dom (circolare_allegato db1))))).
  rewrite Rc, Ra. simpl.
  destruct (commit_ok env2).
  - exists None, [SelectCircolareIds; SelectAllegatoIds]. by split; [|right].
  - exists (Some ErrCommit), [SelectCircolareIds; SelectAllegatoIds]. by split; [|right].
Qed.

Lemma deleteRemovedCirculars_twice_witness :
  exists err tr2,
    deleteRemovedCirculars listed steady_store cleaned = Done (cleaned, (0, 0, err), tr2) /\
    (tr2 = [] \/ tr2 = [SelectCircolareIds; SelectAllegatoIds]).
Proof.
  assert (E : deleteRemovedCirculars listed steady_store stored
              = Done (cleaned, (1, 2, None),
                      [SelectCircolareIds; SelectAllegatoIds;
                       DeleteAllegato 8; DeleteAllegato 7; DeleteCircolare 5])).
  { vm_compute. reflexivity. }
  apply (deleteRemovedCirculars_twice listed steady_store steady_store _ _ _ _ _ E);
    reflexivity.
Defined.

(** ** The earlier [parseCirculars] against the current one *)

(** On a row with an identifier marker the two versions do the same. *)
Lemma legacy_parseRow_marked row idStr :
  SelAttr (Find [row] (byClass "download-file")) "id_doc" = (idStr, true) ->
  Legacy.parseRow row
  = let* (o, logs) := parseRow row in
    Done (match o with Some c => Legacy.Listed c | None => Legacy.Skipped end, logs).
Proof.
  intros Hm. unfold Legacy.parseRow, parseRow. rewrite Hm. cbn [negb].
  destruct (ParseUint idStr) as [id|]; [|reflexivity].
  destruct (String.eqb _ _); [reflexivity|].
  destruct (findNodeWithContext "Categoria" _) as [[cat [|]]|]; simpl;
    try reflexivity.
  destruct (findNodeWithContext "Pubblicato il" _) as [[pub [|]]|]; simpl;
    try reflexivity.
  destruct pub as [pub|]; simpl; [|reflexivity].
  destruct (parseDate (Data pub)); [|reflexivity].
  destruct (findNodeWithContext "Valido fino" _) as [[val [|]]|]; simpl;
    try reflexivity.
  destruct val as [val|]; simpl; [|reflexivity].
  destruct (parseDate (Data val)); [|reflexivity].
  destruct (parseAttachments _ _) as [atts alogs].
  destruct cat; reflexivity.
Qed.

(** On a row without marker the current version returns at once; the
    earlier one, when it returns, skips the row or reports it canceled. *)
Lemma legacy_parseRow_unmarked row idStr r logs :
  SelAttr (Find [row] (byClass "download-file")) "id_doc" = (idStr, false) ->
  parseRow row = Done (None, []) /\
  (Legacy.parseRow row = Done (r, logs) ->
   r = Legacy.Skipped
   \/ logs = [] /\ exists c, r = Legacy.Canceled c /\ Id c = 0%N /\ Attachments c = []).
Proof.
  intros Hm. unfold Legacy.parseRow, parseRow. rewrite Hm. cbn [negb].
  split; [reflexivity|].
  destruct (String.eqb _ _); [intros [= <- _]; by left|].
  destruct (findNodeWithContext "Categoria" _) as [[cat [|]]|]; simpl;
    try discriminate; [|intros [= <- _]; by left].
  destruct (findNodeWithContext "Pubblicato il" _) as [[pub [|]]|]; simpl;
    try discriminate; [|intros [= <- _]; by left].
  destruct pub as [pub|]; simpl; [|discriminate].
  destruct (parseDate (Data pub)); [|intros [= <- _]; by left].
  destruct (findNodeWithContext "Valido fino" _) as [[val [|]]|]; simpl;
    try discriminate; [|intros [= <- _]; by left].
  destruct val as [val|]; simpl; [|discriminate].
  destruct (parseDate (Data val)); [|intros [= <- _]; by left].
  destruct cat; simpl; [|discriminate].
  intros [= <- <-]. right. split; [reflexivity|]. eexists. by repeat split.
Qed.

Lemma legacy_parseRows_agree rows circulars canceled logs :
  Legacy.parseRows rows = Done (circulars, canceled, logs) ->
  exists logs',
    parseRows rows = Done (circulars, logs') /\
    logs' `sublist_of` logs /\
    Forall (fun c => Id c = 0%N /\ Attachments c = []) canceled.
Proof.
  revert circulars canceled logs.
  induction rows as [|row rows IH]; intros circulars canceled logs; simpl.
  - intros [= <- <- <-]. exists []. by repeat split.
  - destruct (Legacy.parseRow row) as [[r rl]|] eqn:Er; simpl; [|discriminate].
    destruct (Legacy.parseRows rows) as [[[cs0 cn0] logs0]|]; simpl; [|discriminate].
    destruct (IH _ _ _ eq_refl) as (logs1 & -> & Hsub & Hcn). clear IH.
    intros [= <- <- <-].
    destruct (SelAttr (Find [row] (byClass "download-file")) "id_doc")
      as [idStr [|]] eqn:Hm.
    + rewrite (legacy_parseRow_marked _ _ Hm) in Er.
      destruct (parseRow row) as [[o ol]|]; simpl in Er; [|discriminate].
      injection Er as <- <-. simpl.
      exists (ol ++ logs1). destruct o; simpl;
        (split; [reflexivity|]; split; [by apply sublist_app|assumption]).
    + destruct (legacy_parseRow_unmarked _ _ r rl Hm) as [-> Hr].
      destruct (Hr Er) as [-> | (-> & c & -> & Hc)]; simpl.
      * exists logs1. split; [reflexivity|].
        split; [by apply sublist_inserts_l|assumption].
      * exists logs1. split; [reflexivity|]. split; [assumption|].
        by constructor.
Qed.

(** X23.  The two versions of [parseCirculars].  Whenever the earlier
    version ([circolari.go]) returns on a document, the current one
    returns on it too, with the same circulars in the same order and a
    log that is the earlier log without some of its entries; and every
    record the earlier version reports as canceled has identifier 0 and
    no attachment. *)
Theorem legacy_parseDocument_agrees doc circulars canceled logs :
  Legacy.parseDocument doc = Done (circulars, canceled, logs) ->
  exists logs',
    parseDocument doc = Done (circulars, logs') /\
    logs' `sublist_of` logs /\
    Forall (fun c => Id c = 0%N /\ Attachments c = []) canceled.
Proof. apply legacy_parseRows_agree. Qed.

Lemma legacy_parseDocument_agrees_witness :
  exists logs',
    parseDocument docCanceled
    = Done ([mkCircular 14 "Orario" "Docenti" (mkDate 2024 10 1) (mkDate 2024 10 31) []],
            logs') /\
    logs' `sublist_of` [] /\
    Forall (fun c => Id c = 0%N /\ Attachments c = [])
      [mkCircular 0 "Gita" "Docenti" (mkDate 2024 10 1) (mkDate 2024 10 31) []].
Proof.
  apply (legacy_parseDocument_agrees docCanceled). vm_compute. reflexivity.
Defined.

(** ** The loop over several passes *)

Lemma cleanupsStarted_app l1 l2 :
  cleanupsStarted (l1 ++ l2) = cleanupsStarted l1 + cleanupsStarted l2.
Proof. unfold cleanupsStarted. by rewrite List.filter_app, length_app. Qed.

Lemma cleanupsStarted_rows rowLog :
  Forall (fun l => isRowEntry l = true) rowLog -> cleanupsStarted rowLog = 0.
Proof.
  induction 1 as [|l ls Hl _ IH]; [reflexivity|].
  change (l :: ls) with ([l] ++ ls). rewrite cleanupsStarted_app, IH.
  by destruct l.
Qed.

(** A pass starts at most one cleanup; it starts one only when the new
    wake time is after the cleanup time, and then moves the cleanup time
    more than five hours past the new wake time. *)
Lemma cycle_cleanupsStarted e s db cfg s' db' log :
  cycle e s db cfg = Done (Continue s' db' log) ->
  (Minute <= parseTimeout cfg)%Z ->
  (nextTime s < nextTime s')%Z /\
  (cleanupsStarted log = 0 /\ nextCleanupTime s' = nextCleanupTime s
   \/ cleanupsStarted log = 1 /\ (nextCleanupTime s < nextTime s')%Z /\
      (nextTime s' + 5 * Hour < nextCleanupTime s')%Z).
Proof.
  intros H Hp. apply cycle_continue_inv in H as [Hnt H]. cbv zeta in H.
  split.
  { rewrite Hnt. pose proof (Truncate_bounds (nextTime s) Minute eq_refl). lia. }
  destruct H as [(err & -> & _ & Hc) | [(-> & _ & Hc)
    | (html & doc & circulars & rowLog & _ & _ & _ & Hr & H)]];
    [by left | by left |].
  destruct H as [(err & tr & _ & -> & Hc)
    | (db1 & tr & _ & [(_ & _ & -> & Hc) | (Hlt & Hc & rc & ra & err & tr' & _ & ->)])].
  - left. split; [|assumption].
    rewrite !cleanupsStarted_app, (cleanupsStarted_rows _ Hr). reflexivity.
  - left. split; [|assumption].
    rewrite !cleanupsStarted_app, (cleanupsStarted_rows _ Hr). reflexivity.
  - right. split; [|split].
    + rewrite !cleanupsStarted_app, (cleanupsStarted_rows _ Hr). by destruct err.
    + by rewrite Hnt.
    + rewrite Hnt, Hc. pose proof (Truncate_Hour_ahead
        (Truncate (nextTime s) Minute + parseTimeout cfg)) as [_ ?]. lia.
Qed.

Lemma passes_cleanupsStarted cfg es s db s' db' log :
  passes cfg es s db = Done (Continue s' db' log) ->
  (Minute <= parseTimeout cfg)%Z ->
  (nextTime s <= nextTime s')%Z /\
  (1 <= cleanupsStarted log ->
   (Z.max (nextCleanupTime s) (nextTime s)
    + 5 * Hour * (Z.of_nat (cleanupsStarted log) - 1) < nextTime s')%Z).
Proof.
  intros H Hp. revert s db s' db' log H.
  induction es as [|e es IH]; intros s db s' db' log; simpl.
  - intros [= <- <- <-]. split; [lia|]. unfold cleanupsStarted. simpl. lia.
  - destruct (cycle e s db cfg) as [[s1 db1 l1|]|] eqn:Ec; simpl; try discriminate.
    destruct (passes cfg es s1 db1) as [[s2 db2 l2|]|] eqn:Ep; simpl;
      try discriminate.
    intros [= <- <- <-].
    destruct (IH _ _ _ _ _ Ep) as [Hle Hcnt]. clear IH.
    destruct (cycle_cleanupsStarted _ _ _ _ _ _ _ Ec Hp) as [Hlt Hone].
    split; [lia|]. rewrite cleanupsStarted_app.
    assert (Hh : (0 < Hour)%Z) by reflexivity.
    destruct Hone as [(-> & Hsame) | (-> & Hdue & Hfar)]; simpl.
    + intros Hc. specialize (Hcnt Hc). rewrite Hsame in Hcnt. lia.
    + intros _. destruct (cleanupsStarted l2) as [|c2] eqn:E2.
      * simpl. lia.
      * specialize (Hcnt ltac:(lia)). nia.
Qed.

(** X24.  The cleanup runs at a lower frequency than the passes.  With a
    cycle period of at least a minute, the wake time never moves back
    over any number of passes, and the wake times at which two cleanups
    are started are more than five hours apart: a run of passes that
    started [n] cleanups has moved the wake time by more than [5 (n - 1)]
    hours past both the wake time and the cleanup time it began with. *)
Theorem passes_cleanup_frequency cfg es s db s' db' log :
  passes cfg es s db = Done (Continue s' db' log) ->
  (Minute <= parseTimeout cfg)%Z ->
  (nextTime s <= nextTime s')%Z /\
  (1 <= cleanupsStarted log ->
   (Z.max (nextCleanupTime s) (nextTime s)
    + 5 * Hour * (Z.of_nat (cleanupsStarted log) - 1) < nextTime s')%Z).
Proof. apply passes_cleanupsStarted. Qed.

Lemma passes_cleanup_frequency_witness :
  (0 <= 2 * fiveMinutes)%Z /\
  (1 <= 1 -> (Z.max 0 0 + 5 * Hour * (Z.of_nat 1 - 1) < 2 * fiveMinutes)%Z).
Proof.
  assert (E : passes deployedConfig [steadyPass; steadyPass] (mkLoop 0 0) staleStore
              = Done (Continue (mkLoop (2 * fiveMinutes) (6 * Hour)) mirrored
                        ([InfoGetting; InfoParsing; InfoParsed 1; InfoUpdating;
                          InfoUpdated; InfoRemoving; InfoRemoved 1 0; InfoWaiting]
                         ++ [InfoGetting; InfoParsing; InfoParsed 1; InfoUpdating;
                             InfoUpdated; InfoWaiting] ++ []))).
  { vm_compute. reflexivity. }
  exact (passes_cleanup_frequency _ _ _ _ _ _ _ E ltac:(vm_compute; discriminate)).
Defined.
